(** * Accessible palette: the colour engine

    A shallow embedding of the colour core of the palette tool:
    - [src/lib/color/utils.ts]: hex validation and normalisation;
    - [src/lib/color/contrast.ts]: contrast ratio, pass flags, the N x N
      matrix and its summary;
    - [src/lib/color/suggestions.ts]: the lightness search for the nearest
      accessible colour.

    Conventions.  JavaScript numbers are modelled as rationals ([Q]); every
    finite double is one, and the code only adds, halves, multiplies by 100,
    rounds and compares them.  Where the value of a result depends on the
    rounding of a double operation (the percentage of the summary, the
    channels of the colour-blindness simulation), the operation is rounded
    to the nearest double by [Double.round].
    JavaScript strings are modelled as [string] (a code unit is a byte
    here; a code unit that is not ASCII is not a hex digit in either
    reading).  [toUpperCase] is the mapping of the ASCII letters: it is the
    JavaScript one on strings of ASCII characters ([JS.isAscii]), which is
    what a statement about arbitrary input is restricted to.
    [null]/[undefined] are [None].  The colour
    library [culori] is not part of the repository: its three entry points
    ([oklch], [formatHex], [wcagContrast]) are parameters of the embedding. *)

From Stdlib Require Import Bool Arith ZArith QArith Qround Qminmax Qpower Lia Lqa.
From Stdlib Require Import List String Ascii.
From Equations Require Import Equations.
Import ListNotations.

Local Open Scope string_scope.

(* ================================================================== *)
(** ** JavaScript string primitives used by the sources                *)
(* ================================================================== *)

Module JS.

(** [c] lies in the closed character range [lo-hi]. *)
Definition in_range (lo hi c : ascii) : bool :=
  (nat_of_ascii lo <=? nat_of_ascii c)%nat && (nat_of_ascii c <=? nat_of_ascii hi)%nat.

(** [String.prototype.toUpperCase], on the ASCII letters.  On a string of
    ASCII characters this is what JavaScript computes; the full Unicode
    mapping of other characters (which can change the length, as for the
    ligature U+FB00) is outside the model. *)
Definition upper_ascii (c : ascii) : ascii :=
  if in_range "a" "z" c then ascii_of_nat (nat_of_ascii c - 32) else c.

(** Every character of [s] is an ASCII character (code below 128). *)
Fixpoint isAscii (s : string) : bool :=
  match s with
  | EmptyString => true
  | String c s' => (nat_of_ascii c <? 128)%nat && isAscii s'
  end.

Fixpoint toUpperCase (s : string) : string :=
  match s with
  | EmptyString => EmptyString
  | String c s' => String (upper_ascii c) (toUpperCase s')
  end.

(** [s.startsWith('#')]. *)
Definition startsWithHash (s : string) : bool :=
  match s with
  | String c _ => Ascii.eqb c "#"
  | EmptyString => false
  end.

(** [s.slice(1)]. *)
Definition slice1 (s : string) : string :=
  match s with
  | String _ s' => s'
  | EmptyString => EmptyString
  end.

(** [s.split('')]: one string per character. *)
Fixpoint split_chars (s : string) : list string :=
  match s with
  | EmptyString => []
  | String c s' => String c EmptyString :: split_chars s'
  end.

(** [xs.join('')]. *)
Definition join (xs : list string) : string := String.concat "" xs.

(** [s.replace('#', '')]: drops the first ['#'] only. *)
Fixpoint replaceHash (s : string) : string :=
  match s with
  | EmptyString => EmptyString
  | String c s' => if Ascii.eqb c "#" then s' else String c (replaceHash s')
  end.

(** Truthiness of a [string | undefined] value: [undefined] and the empty
    string are falsy. *)
Definition truthy (s : option string) : bool :=
  match s with
  | Some (String _ _) => true
  | _ => false
  end.

(** [Math.round]: nearest integer, a tie goes up. *)
Definition Math_round (x : Q) : Z := Qfloor (x + (1 # 2))%Q.

End JS.

(* ================================================================== *)
(** ** Double-precision arithmetic                                     *)
(* ================================================================== *)

(** A JavaScript number is an IEEE 754 binary64 value, and [a / b], [a * b]
    and [a + b] are the exact results rounded to the nearest double, a tie
    going to the even significand.  A finite double is the rational
    [m * 2^e] with [|m| < 2^53] and [-1074 <= e]; [round] is that rounding
    on the rationals of magnitude below [2^1024] (no overflow arises
    here). *)
Module Double.

(** The nearest integer, a tie going to the even one. *)
Definition rne (y : Q) : Z :=
  let f := Qfloor y in
  match Qcompare (y - inject_Z f) (1 # 2) with
  | Lt => f
  | Gt => (f + 1)%Z
  | Eq => if Z.even f then f else (f + 1)%Z
  end.

(** [floor (log2 x)] for [0 < x]. *)
Definition flog2 (x : Q) : Z :=
  if Qle_bool 1 x then Z.log2 (Qfloor x) else (- Z.log2_up (Qceiling (/ x)))%Z.

(** The exponent of the last place of the doubles around [x]: 53
    significant bits, and [2^-1074] for the subnormal ones. *)
Definition ulp_exp (x : Q) : Z := Z.max (-1074) (flog2 x - 52).

Definition round (x : Q) : Q :=
  match Qcompare x 0 with
  | Eq => 0
  | Gt => let e := ulp_exp x in inject_Z (rne (x * 2 ^ (- e))) * 2 ^ e
  | Lt => let e := ulp_exp (- x) in - (inject_Z (rne ((- x) * 2 ^ (- e))) * 2 ^ e)
  end.

Definition div (a b : Q) : Q := round (a / b).
Definition mul (a b : Q) : Q := round (a * b).
Definition add (a b : Q) : Q := round (a + b).

End Double.

(* ================================================================== *)
(** ** Regular expressions, as far as the literal in [isValidHex] goes *)
(* ================================================================== *)

Module Regex.

Inductive regex : Type :=
| Never                                   (* matches nothing *)
| Eps                                     (* the empty string *)
| Chr (c : ascii)                         (* a literal character *)
| Class (ranges : list (ascii * ascii))   (* a bracket class of ranges *)
| Seq (r1 r2 : regex)                     (* r1 r2 *)
| Alt (r1 r2 : regex)                     (* r1 | r2 *)
| Opt (r : regex).                        (* r? *)

(** [r{n}] *)
Fixpoint times (n : nat) (r : regex) : regex :=
  match n with
  | O => Eps
  | S k => Seq r (times k r)
  end.

Definition in_class (ranges : list (ascii * ascii)) (c : ascii) : bool :=
  existsb (fun lh => JS.in_range (fst lh) (snd lh) c) ranges.

Fixpoint nullable (r : regex) : bool :=
  match r with
  | Never => false
  | Eps => true
  | Chr _ => false
  | Class _ => false
  | Seq r1 r2 => nullable r1 && nullable r2
  | Alt r1 r2 => nullable r1 || nullable r2
  | Opt _ => true
  end.

(** What is left of [r] once the character [a] has been read. *)
Fixpoint deriv (a : ascii) (r : regex) : regex :=
  match r with
  | Never => Never
  | Eps => Never
  | Chr c => if Ascii.eqb c a then Eps else Never
  | Class rs => if in_class rs a then Eps else Never
  | Seq r1 r2 =>
      if nullable r1
      then Alt (Seq (deriv a r1) r2) (deriv a r2)
      else Seq (deriv a r1) r2
  | Alt r1 r2 => Alt (deriv a r1) (deriv a r2)
  | Opt r1 => deriv a r1
  end.

(** [/^r$/.test(s)]: the whole of [s] is matched by [r]. *)
Fixpoint test (r : regex) (s : string) : bool :=
  match s with
  | EmptyString => nullable r
  | String a s' => test (deriv a r) s'
  end.

(** The language of a regular expression. *)
Inductive matches : regex -> string -> Prop :=
| m_eps : matches Eps ""
| m_chr c : matches (Chr c) (String c "")
| m_class rs c : in_class rs c = true -> matches (Class rs) (String c "")
| m_seq r1 r2 s1 s2 : matches r1 s1 -> matches r2 s2 -> matches (Seq r1 r2) (s1 ++ s2)
| m_alt_l r1 r2 s : matches r1 s -> matches (Alt r1 r2) s
| m_alt_r r1 r2 s : matches r2 s -> matches (Alt r1 r2) s
| m_opt_none r : matches (Opt r) ""
| m_opt_some r s : matches r s -> matches (Opt r) s.

End Regex.

(* ================================================================== *)
(** ** [src/lib/color/utils.ts]                                        *)
(* ================================================================== *)

Module Utils.
Import Regex.

(** The class [[0-9A-Fa-f]]. *)
Definition hexClass : regex :=
  Class [("0", "9"); ("A", "F"); ("a", "f")]%char.

(** [/^#?([0-9A-Fa-f]{3}|[0-9A-Fa-f]{6})$/] *)
Definition hexPattern : regex :=
  Seq (Opt (Chr "#")) (Alt (times 3 hexClass) (times 6 hexClass)).

Definition isValidHex (value : string) : bool := test hexPattern value.

Definition normalizeHex (value : string) : option string :=
  if negb (isValidHex value) then None
  else
    let hex := if JS.startsWithHash value then JS.slice1 value else value in
    if (String.length hex =? 3)%nat
    then Some (JS.toUpperCase (JS.join (map (fun char => char ++ char) (JS.split_chars hex))))
    else Some (JS.toUpperCase hex).

Definition formatHexForDisplay (value : string) : string :=
  let normalized := JS.toUpperCase value in
  if JS.startsWithHash normalized then normalized else "#" ++ normalized.

Definition parseHexInput (value : string) : option string := normalizeHex value.

(** The words of the specification: an optional ['#'] followed by exactly
    3 or exactly 6 hex digits. *)
Definition isHexDigit (c : ascii) : bool :=
  JS.in_range "0" "9" c || JS.in_range "A" "F" c || JS.in_range "a" "f" c.

Fixpoint all_hex (s : string) : bool :=
  match s with
  | EmptyString => true
  | String c s' => isHexDigit c && all_hex s'
  end.

Definition hex_digits (n : nat) (d : string) : Prop :=
  String.length d = n /\ all_hex d = true.

Definition hex_shape (s : string) : Prop :=
  exists d, (s = d \/ s = String "#" d) /\ (hex_digits 3 d \/ hex_digits 6 d).

(** Doubling every character of a string: ["abc"] becomes ["aabbcc"]. *)
Fixpoint double_chars (s : string) : string :=
  match s with
  | EmptyString => EmptyString
  | String ch s' => String ch (String ch (double_chars s'))
  end.

(** A normalised colour value: six digits out of [0-9A-F]. *)
Definition isUpperHexDigit (ch : ascii) : bool :=
  JS.in_range "0" "9" ch || JS.in_range "A" "F" ch.

Fixpoint all_upper_hex (s : string) : bool :=
  match s with
  | EmptyString => true
  | String ch s' => isUpperHexDigit ch && all_upper_hex s'
  end.

Definition normalized (v : string) : Prop :=
  String.length v = 6%nat /\ all_upper_hex v = true.

End Utils.

(* ================================================================== *)
(** ** The colour library [culori]                                     *)
(* ================================================================== *)

Module Culori.

(** The library's [Oklch] colour: lightness, chroma, optional hue and
    optional alpha.  The type declares [l] a number. *)
Record Oklch : Type := mkOklch {
  l : Q;
  c : Q;
  h : option Q;
  alpha : option Q
}.

(** [{ ...fg, l: mid }] *)
Definition with_l (fg : Oklch) (mid : Q) : Oklch :=
  {| l := mid; c := c fg; h := h fg; alpha := alpha fg |}.

End Culori.

(** Modelled from the spec: [wcagContrast] is a function of the external
    colour library and its code is not in the repository.  Section 4.2 of the
    specification fixes what it computes: each sRGB channel is divided by
    255 and decoded by the piecewise curve with breakpoint 0.03928, the three
    linear channels are combined with the weights 0.2126, 0.7152 and 0.0722,
    and the ratio is (L_lighter + 0.05) / (L_darker + 0.05).  The curve is the
    one of WCAG 2.x: [c / 12.92] below the breakpoint and
    [((c + 0.055) / 1.055) ^ 2.4] above it.  The power is the only operation
    that leaves the rationals; it is the parameter [pow24]. *)
Module Wcag.
Section Formula.

Variable pow24 : Q -> Q.

Definition hexValue (ch : ascii) : option Z :=
  let n := Z.of_nat (nat_of_ascii ch) in
  if JS.in_range "0" "9" ch then Some (n - 48)%Z
  else if JS.in_range "A" "F" ch then Some (n - 55)%Z
  else if JS.in_range "a" "f" ch then Some (n - 87)%Z
  else None.

Fixpoint hexValues (s : string) : option (list Z) :=
  match s with
  | EmptyString => Some []
  | String ch s' =>
    match hexValue ch, hexValues s' with
    | Some v, Some vs => Some (v :: vs)
    | _, _ => None
    end
  end.

(** A colour string [#rgb] or [#rrggbb] as its three 8-bit channels. *)
Definition parseHex (s : string) : option (Z * Z * Z) :=
  match s with
  | String "#" d =>
    match hexValues d with
    | Some [r; g; b] => Some (17 * r, 17 * g, 17 * b)%Z
    | Some [r1; r2; g1; g2; b1; b2] =>
        Some (16 * r1 + r2, 16 * g1 + g2, 16 * b1 + b2)%Z
    | _ => None
    end
  | _ => None
  end.

(** Modelled from the spec: the piecewise gamma-decoding curve of the
    library's [wcagContrast], breakpoint 0.03928 in sRGB space. *)
Definition linearize (v : Q) : Q :=
  if Qle_bool v 0.03928 then v / 12.92 else pow24 ((v + 0.055) / 1.055).

Definition channel (n : Z) : Q := linearize (inject_Z n / 255).

(** Modelled from the spec: the relative luminance inside the library's
    [wcagContrast], with the weights 0.2126, 0.7152 and 0.0722. *)
Definition luminance (rgb : Z * Z * Z) : Q :=
  let '(r, g, b) := rgb in
  0.2126 * channel r + 0.7152 * channel g + 0.0722 * channel b.

(** The value on a string that is no colour is left open by the
  specification (callers validate first); no result below depends on the
  choice made here. *)
Definition luminanceOf (s : string) : Q :=
  match parseHex s with
  | Some rgb => luminance rgb
  | None => 0
  end.

(** Modelled from the spec: the library's [wcagContrast], which is
    [(L_lighter + 0.05) / (L_darker + 0.05)]. *)
Definition wcagContrast (a b : string) : Q :=
  let L1 := luminanceOf a in
  let L2 := luminanceOf b in
  (Qmax L1 L2 + 0.05) / (Qmin L1 L2 + 0.05).

End Formula.
End Wcag.

(* ================================================================== *)
(** ** [src/lib/color/suggestions.ts]                                  *)
(* ================================================================== *)

(** JavaScript's [a >= b] and [a > b] on numbers. *)
Definition Qgeb (a b : Q) : bool := Qle_bool b a.
Definition Qgtb (a b : Q) : bool := negb (Qle_bool a b).

Inductive TargetLevel : Type := AA | AAA.

(** A value together with the fact that it is the value of [x]; it lets a
    definition branch on [x] and remember which branch it took. *)
Definition inspect {A : Type} (x : A) : { y : A | x = y } := exist _ x eq_refl.

Definition MAX_ITERATIONS : nat := 50.
Definition LIGHTNESS_PRECISION : Q := 0.001.

(** The variables of the loop in [searchLightness]. *)
Record LoopState : Type := mkLoop {
  low : Q;
  high : Q;
  bestColor : option Culori.Oklch;
  iterations : nat
}.

(** One pass through the loop body ends at the bottom or at [break]. *)
Inductive Outcome : Type :=
| Continue (st : LoopState)
| Break (st : LoopState).

Definition getTargetRatio (targetLevel : TargetLevel) (isLarge : bool) : Q :=
  if isLarge then 3
  else match targetLevel with AA => 4.5 | AAA => 7 end.

Section Suggestions.

Variable oklch : string -> option Culori.Oklch.
Variable formatHex : Culori.Oklch -> option string.
Variable wcagContrast : string -> string -> Q.

Section Search.

Variable fg : Culori.Oklch.
Variable bgColor : string.
Variable targetRatio : Q.
Variable shouldDarken : bool.

(** [iterations < MAX_ITERATIONS && high - low > LIGHTNESS_PRECISION] *)
Definition loop_guard (st : LoopState) : bool :=
  (iterations st <? MAX_ITERATIONS)%nat
  && Qgtb (high st - low st) LIGHTNESS_PRECISION.

Definition loop_body (st : LoopState) : Outcome :=
  let iterations' := S (iterations st) in
  let mid := (low st + high st) / 2 in
  let testColor := Culori.with_l fg mid in
  let testHex := formatHex testColor in
  match testHex with
  | Some (String _ _ as hex) =>
      let ratio := wcagContrast hex bgColor in
      if Qgeb ratio targetRatio
      then
        Continue {| low := if shouldDarken then mid else low st;
                    high := if shouldDarken then high st else mid;
                    bestColor := Some testColor;
                    iterations := iterations' |}
      else
        Continue {| low := if shouldDarken then low st else mid;
                    high := if shouldDarken then mid else high st;
                    bestColor := bestColor st;
                    iterations := iterations' |}
  | _ =>
      Break {| low := low st; high := high st;
               bestColor := bestColor st;
               iterations := iterations' |}
  end.

(** The [while] loop.  It is defined by recursion on the number of
    iterations still allowed, which every pass through the body
    decreases. *)
Equations? searchLoop (st : LoopState) : LoopState
  by wf (MAX_ITERATIONS - iterations st)%nat lt :=
  searchLoop st with inspect (loop_guard st) := {
    | exist _ false _ => st
    | exist _ true Hguard with inspect (loop_body st) := {
        | exist _ (Continue st') Hbody => searchLoop st'
        | exist _ (Break st') _ => st' } }.
Proof.
  clear searchLoop.
  change (MAX_ITERATIONS - iterations st' < MAX_ITERATIONS - iterations st)%nat.
  unfold loop_guard in Hguard.
  apply andb_prop in Hguard. destruct Hguard as [Hlt _].
  apply Nat.ltb_lt in Hlt.
  assert (iterations st' = S (iterations st)) as ->.
  { unfold loop_body in Hbody.
    destruct (formatHex _) as [[|? ?]|]; try discriminate.
    destruct (Qgeb _ _); inversion Hbody; reflexivity. }
  lia.
Qed.

(** The same loop as a relation: [loop_exec st n st'] says that the loop
    entered in state [st] leaves in state [st'] after running its body [n]
    times.  A loop that ran forever would have no such [n]. *)
Inductive loop_exec : LoopState -> nat -> LoopState -> Prop :=
| exec_exit st :
    loop_guard st = false -> loop_exec st 0 st
| exec_break st st' :
    loop_guard st = true -> loop_body st = Break st' -> loop_exec st 1 st'
| exec_next st st' n st'' :
    loop_guard st = true -> loop_body st = Continue st' ->
    loop_exec st' n st'' -> loop_exec st (S n) st''.

Definition initialState : LoopState :=
  {| low := if shouldDarken then 0 else Culori.l fg;
     high := if shouldDarken then Culori.l fg else 1;
     bestColor := None;
     iterations := 0 |}.

Definition searchLightness : option Culori.Oklch :=
  bestColor (searchLoop initialState).

(** What is known of a recorded candidate: it is the foreground with
    another lightness, it formats to a non-empty string whose contrast with
    the background reaches the target, and its lightness lies strictly inside
    the initial bounds. *)
Definition candidate_ok (c : Culori.Oklch) : Prop :=
  (exists hx, formatHex c = Some hx /\ JS.truthy (Some hx) = true
              /\ targetRatio <= wcagContrast hx bgColor)
  /\ c = Culori.with_l fg (Culori.l c)
  /\ low initialState < Culori.l c < high initialState.

End Search.

(** The last two lines of [findNearestAccessible]:
    [const hexResult = formatHex(result);
     return hexResult ? hexResult.replace('#', '').toUpperCase() : null]. *)
Definition resultHex (result : Culori.Oklch) : option string :=
  let hexResult := formatHex result in
  if JS.truthy hexResult
  then option_map (fun hx => JS.toUpperCase (JS.replaceHash hx)) hexResult
  else None.

Definition findNearestAccessible
    (foregroundHex backgroundHex : string) (targetRatio : Q) : option string :=
  let fgColor := "#" ++ foregroundHex in
  let bgColor := "#" ++ backgroundHex in
  match oklch fgColor with
  | None => None
  | Some fg =>
      let currentRatio := wcagContrast fgColor bgColor in
      if Qgeb currentRatio targetRatio then Some foregroundHex
      else
        let bg := oklch bgColor in
        let bgLightness := match bg with Some b => Culori.l b | None => 0.5 end in
        let shouldDarken := Qgtb (Culori.l fg) bgLightness in
        let result := searchLightness fg bgColor targetRatio shouldDarken in
        let result :=
          match result with
          | Some _ => result
          | None => searchLightness fg bgColor targetRatio (negb shouldDarken)
          end in
        match result with
        | None => None
        | Some res =>
            let hexResult := formatHex res in
            if JS.truthy hexResult
            then option_map (fun hx => JS.toUpperCase (JS.replaceHash hx)) hexResult
            else None
        end
  end.

End Suggestions.

(* ================================================================== *)
(** ** [src/lib/color/contrast.ts]                                     *)
(* ================================================================== *)

Module CONTRAST_THRESHOLDS.
Definition AA_NORMAL : Q := 4.5.
Definition AAA_NORMAL : Q := 7.
Definition AA_LARGE : Q := 3.
Definition UI_COMPONENT : Q := 3.
End CONTRAST_THRESHOLDS.

Record Evaluation : Type := mkEvaluation {
  ev_passesAA : bool;
  ev_passesAAA : bool;
  ev_passesAALarge : bool;
  ev_passesUIComponent : bool
}.

Record ContrastResult : Type := mkContrastResult {
  foregroundId : string;
  backgroundId : string;
  ratio : Q;
  apcaValue : option Q;
  passesAA : bool;
  passesAAA : bool;
  passesAALarge : bool;
  passesUIComponent : bool;
  suggestedFix : option string
}.

(** An element of the [colors] argument: [{ id: string; hex: string }]. *)
Record ColorEntry : Type := mkColor {
  id : string;
  hex : string
}.

Record Summary : Type := mkSummary {
  total : Z;
  passing : Z;
  failing : Z;
  percentage : Z
}.

Definition evaluateContrastRatio (ratio : Q) : Evaluation :=
  {| ev_passesAA := Qgeb ratio CONTRAST_THRESHOLDS.AA_NORMAL;
     ev_passesAAA := Qgeb ratio CONTRAST_THRESHOLDS.AAA_NORMAL;
     ev_passesAALarge := Qgeb ratio CONTRAST_THRESHOLDS.AA_LARGE;
     ev_passesUIComponent := Qgeb ratio CONTRAST_THRESHOLDS.UI_COMPONENT |}.

(** [a !== b] on strings. *)
Definition strictNe (a b : string) : bool := negb (String.eqb a b).

(** The flag the active target level reads:
    [targetLevel === 'AA' ? result.passesAA : result.passesAAA]. *)
Definition passesLevel (targetLevel : TargetLevel) (result : ContrastResult) : bool :=
  match targetLevel with
  | AA => passesAA result
  | AAA => passesAAA result
  end.

(** [total] and [passing] are lengths of arrays: integers below [2^32],
    exact as numbers.  [(passing / total) * 100] is a double division
    followed by a double multiplication, each rounded. *)
Definition getContrastSummary (matrix : list ContrastResult) (targetLevel : TargetLevel)
  : Summary :=
  let validPairs :=
    filter (fun result => strictNe (foregroundId result) (backgroundId result)) matrix in
  let passingPairs := filter (passesLevel targetLevel) validPairs in
  let total := Z.of_nat (List.length validPairs) in
  let passing := Z.of_nat (List.length passingPairs) in
  let failing := (total - passing)%Z in
  let percentage :=
    if (0 <? total)%Z
    then JS.Math_round (Double.mul (Double.div (inject_Z passing) (inject_Z total)) 100)
    else 0%Z in
  {| total := total; passing := passing; failing := failing; percentage := percentage |}.

Definition findContrastResult (matrix : list ContrastResult)
    (foregroundId' backgroundId' : string) : option ContrastResult :=
  find (fun result =>
          String.eqb (foregroundId result) foregroundId'
          && String.eqb (backgroundId result) backgroundId') matrix.

Section Contrast.

Variable oklch : string -> option Culori.Oklch.
Variable formatHex : Culori.Oklch -> option string.
Variable wcagContrast : string -> string -> Q.

Definition calculateContrast (foreground background : string) : Q :=
  let fgColor := "#" ++ foreground in
  let bgColor := "#" ++ background in
  let ratio := wcagContrast fgColor bgColor in
  inject_Z (JS.Math_round (ratio * 100)) / 100.

Definition calculateContrastResult
    (foregroundId foregroundHex backgroundId backgroundHex : string)
    (targetLevel : TargetLevel) : ContrastResult :=
  let ratio := calculateContrast foregroundHex backgroundHex in
  let evaluation := evaluateContrastRatio ratio in
  let passes :=
    match targetLevel with
    | AA => ev_passesAA evaluation
    | AAA => ev_passesAAA evaluation
    end in
  let suggestedFix :=
    if negb passes && strictNe foregroundId backgroundId
    then
      let targetRatio := getTargetRatio targetLevel false in
      findNearestAccessible oklch formatHex wcagContrast
        foregroundHex backgroundHex targetRatio
    else None in
  {| foregroundId := foregroundId;
     backgroundId := backgroundId;
     ratio := ratio;
     apcaValue := None;
     passesAA := ev_passesAA evaluation;
     passesAAA := ev_passesAAA evaluation;
     passesAALarge := ev_passesAALarge evaluation;
     passesUIComponent := ev_passesUIComponent evaluation;
     suggestedFix := suggestedFix |}.

(** The two nested [for ... of] loops push one result per ordered pair,
    foreground-major. *)
Definition generateContrastMatrix (colors : list ColorEntry) (targetLevel : TargetLevel)
  : list ContrastResult :=
  flat_map
    (fun foreground =>
       map (fun background =>
              calculateContrastResult
                (id foreground) (hex foreground)
                (id background) (hex background) targetLevel)
           colors)
    colors.

End Contrast.

(* ================================================================== *)
(** ** A small colour library to run the embedding on                  *)
(* ================================================================== *)

(** The theorems below hold for every implementation of the three library
    functions.  To evaluate the embedding on concrete colours the library is
    instantiated with a stand-in: its contrast is the formula of [Wcag] with
    the power computed to nine decimals, its lightness is the mean of the
    three channels, and it formats a colour as the grey of that lightness. *)
Module Demo.

(** The largest [r] in [lo, hi) with [(r / 10^9)^5 <= t], by bisection. *)
Fixpoint root5 (fuel : nat) (lo hi : Z) (t : Q) : Z :=
  match fuel with
  | O => lo
  | S k =>
      let mid := ((lo + hi) / 2)%Z in
      if (mid =? lo)%Z then lo
      else if Qle_bool ((mid # 1000000000) ^ 5) t
           then root5 k mid hi t
           else root5 k lo mid t
  end.

(** [x ^ 2.4] on the unit interval, as the fifth root of [x ^ 12]. *)
Definition pow24 (x : Q) : Q :=
  if Qle_bool x 0 then 0
  else if Qle_bool 1 x then 1
  else root5 40 0 1000000000 (x ^ 12) # 1000000000.

Definition wcagContrast : string -> string -> Q := Wcag.wcagContrast pow24.

Definition oklch (s : string) : option Culori.Oklch :=
  match Wcag.parseHex s with
  | Some (r, g, b) =>
      Some {| Culori.l := inject_Z (r + g + b) / 765;
              Culori.c := 0; Culori.h := None; Culori.alpha := None |}
  | None => None
  end.

Definition hexDigit (n : Z) : ascii :=
  if (n <? 10)%Z then ascii_of_nat (Z.to_nat n + 48) else ascii_of_nat (Z.to_nat n + 87).

Definition hexByte (n : Z) : string :=
  String (hexDigit (n / 16)) (String (hexDigit (n mod 16)) "").

Definition clampByte (n : Z) : Z := Z.max 0 (Z.min 255 n).

Definition formatHex (color : Culori.Oklch) : option string :=
  let v := clampByte (JS.Math_round (Culori.l color * 255)) in
  Some ("#" ++ hexByte v ++ hexByte v ++ hexByte v).

Definition findNearestAccessible := findNearestAccessible oklch formatHex wcagContrast.
Definition calculateContrast := calculateContrast wcagContrast.
Definition generateContrastMatrix := generateContrastMatrix oklch formatHex wcagContrast.

End Demo.

(* ================================================================== *)
(** ** [suggestions.ts]: the suggestions of one colour                 *)
(* ================================================================== *)

(** A [Map<string, string>]: the entries in insertion order, one per key.
    Setting a key that is present replaces its value in place. *)
Module JSMap.

Definition t : Type := list (string * string).

Fixpoint set (k v : string) (m : t) : t :=
  match m with
  | [] => [(k, v)]
  | (k', v') :: rest =>
      if String.eqb k' k then (k, v) :: rest else (k', v') :: set k v rest
  end.

Fixpoint get (k : string) (m : t) : option string :=
  match m with
  | [] => None
  | (k', v') :: rest => if String.eqb k' k then Some v' else get k rest
  end.

Definition keys (m : t) : list string := map fst m.

End JSMap.

Section SuggestionsForColor.

Variable oklch : string -> option Culori.Oklch.
Variable formatHex : Culori.Oklch -> option string.
Variable wcagContrast : string -> string -> Q.

(** One pass of the [for (const bg of backgrounds)] loop. *)
Definition suggestion_step (foregroundHex : string) (targetRatio : Q)
    (suggestions : JSMap.t) (bg : ColorEntry) : JSMap.t :=
  if String.eqb (hex bg) foregroundHex then suggestions
  else
    let suggestion :=
      findNearestAccessible oklch formatHex wcagContrast
        foregroundHex (hex bg) targetRatio in
    match suggestion with
    | Some (String _ _ as sug) =>
        if strictNe sug foregroundHex
        then JSMap.set (id bg) sug suggestions
        else suggestions
    | _ => suggestions
    end.

Definition findSuggestionsForColor (foregroundHex : string)
    (backgrounds : list ColorEntry) (targetLevel : TargetLevel) : JSMap.t :=
  let targetRatio := getTargetRatio targetLevel false in
  fold_left (suggestion_step foregroundHex targetRatio) backgrounds [].

End SuggestionsForColor.

(** [2 ^ n], for the width of the search interval after [n] halvings. *)
Fixpoint pow2 (n : nat) : positive :=
  match n with
  | O => 1%positive
  | S k => ((pow2 k)~0)%positive
  end.

(** The bound of the loop on the side of the candidates, and the bound on
    the side of the original lightness. *)
Definition candidate_side (shouldDarken : bool) (st : LoopState) : Q :=
  if shouldDarken then low st else high st.
Definition original_side (shouldDarken : bool) (st : LoopState) : Q :=
  if shouldDarken then high st else low st.

(** The lightness [m] was probed and its colour misses the target. *)
Definition probed_failing
    (formatHex : Culori.Oklch -> option string) (wcagContrast : string -> string -> Q)
    (fg : Culori.Oklch) (bgColor : string) (targetRatio : Q) (m : Q) : Prop :=
  exists hx, formatHex (Culori.with_l fg m) = Some hx
             /\ wcagContrast hx bgColor < targetRatio.

(* ================================================================== *)
(** ** The palette state ([types/index.ts], [lib/palette])             *)
(* ================================================================== *)

Module Palette.

Inductive ColorRole : Type :=
| role_primary | role_secondary | role_accent | role_background
| role_surface | role_text_primary | role_text_secondary | role_error
| role_warning | role_success | role_info | role_border | role_custom.

Definition role_eqb (a b : ColorRole) : bool :=
  match a, b with
  | role_primary, role_primary | role_secondary, role_secondary
  | role_accent, role_accent | role_background, role_background
  | role_surface, role_surface | role_text_primary, role_text_primary
  | role_text_secondary, role_text_secondary | role_error, role_error
  | role_warning, role_warning | role_success, role_success
  | role_info, role_info | role_border, role_border
  | role_custom, role_custom => true
  | _, _ => false
  end.

(** The [ColorEntry] of [types/index.ts]. *)
Record ColorEntry : Type := mkEntry {
  id : string;
  hex : string;
  label : string;
  role : ColorRole;
  locked : bool
}.

(** [Partial<Omit<ColorEntry, 'id'>>]: the fields that are present. *)
Record Updates : Type := mkUpdates {
  upd_hex : option string;
  upd_label : option string;
  upd_role : option ColorRole;
  upd_locked : option bool
}.

Inductive ContrastStandard : Type := WCAG2 | APCA.
Inductive Mode : Type := light | dark | both.

Record PaletteState : Type := mkState {
  colors : list ColorEntry;
  contrastStandard : ContrastStandard;
  targetLevel : TargetLevel;
  mode : Mode
}.

Inductive PaletteAction : Type :=
| ADD_COLOR (payload : ColorEntry)
| REMOVE_COLOR (payload_id : string)
| UPDATE_COLOR (payload_id : string) (updates : Updates)
| SET_CONTRAST_STANDARD (payload : ContrastStandard)
| SET_TARGET_LEVEL (payload : TargetLevel)
| SET_MODE (payload : Mode)
| RESET_PALETTE
| REPLACE_COLORS (payload : list ColorEntry).

(** [lib/palette/actions.ts] *)
Definition addColor (color : ColorEntry) : PaletteAction := ADD_COLOR color.
Definition removeColor (id : string) : PaletteAction := REMOVE_COLOR id.
Definition updateColor (id : string) (updates : Updates) : PaletteAction :=
  UPDATE_COLOR id updates.
Definition setContrastStandard (standard : ContrastStandard) : PaletteAction :=
  SET_CONTRAST_STANDARD standard.
Definition setTargetLevel (level : TargetLevel) : PaletteAction :=
  SET_TARGET_LEVEL level.
Definition setMode (mode : Mode) : PaletteAction := SET_MODE mode.
Definition resetPalette : PaletteAction := RESET_PALETTE.

(** [{ ...color, ...updates }] *)
Definition merge (color : ColorEntry) (updates : Updates) : ColorEntry :=
  {| id := id color;
     hex := match upd_hex updates with Some v => v | None => hex color end;
     label := match upd_label updates with Some v => v | None => label color end;
     role := match upd_role updates with Some v => v | None => role color end;
     locked := match upd_locked updates with Some v => v | None => locked color end |}.

(** [createDefaultPalette]; the five ids are what [crypto.randomUUID()]
    returned. *)
Definition createDefaultPalette (id1 id2 id3 id4 id5 : string) : list ColorEntry :=
  [ {| id := id1; hex := "FFFFFF"; label := "Background";
       role := role_background; locked := false |};
    {| id := id2; hex := "F3F4F6"; label := "Surface";
       role := role_surface; locked := false |};
    {| id := id3; hex := "111827"; label := "Text";
       role := role_text_primary; locked := false |};
    {| id := id4; hex := "2563EB"; label := "Primary";
       role := role_primary; locked := false |};
    {| id := id5; hex := "7C3AED"; label := "Accent";
       role := role_accent; locked := false |} ].

Section Reducer.

(** [initialPaletteState] is built once, when the module is loaded. *)
Variable initialPaletteState : PaletteState.

Definition paletteReducer (state : PaletteState) (action : PaletteAction)
  : PaletteState :=
  match action with
  | ADD_COLOR payload =>
      if (12 <=? List.length (colors state))%nat then state
      else {| colors := colors state ++ [payload];
              contrastStandard := contrastStandard state;
              targetLevel := targetLevel state;
              mode := mode state |}
  | REMOVE_COLOR payload_id =>
      if (List.length (colors state) <=? 2)%nat then state
      else {| colors := filter (fun color => strictNe (id color) payload_id)
                               (colors state);
              contrastStandard := contrastStandard state;
              targetLevel := targetLevel state;
              mode := mode state |}
  | UPDATE_COLOR payload_id updates =>
      {| colors := map (fun color =>
                          if String.eqb (id color) payload_id
                          then merge color updates
                          else color)
                       (colors state);
         contrastStandard := contrastStandard state;
         targetLevel := targetLevel state;
         mode := mode state |}
  | SET_CONTRAST_STANDARD payload =>
      {| colors := colors state;
         contrastStandard := payload;
         targetLevel := targetLevel state;
         mode := mode state |}
  | SET_TARGET_LEVEL payload =>
      {| colors := colors state;
         contrastStandard := contrastStandard state;
         targetLevel := payload;
         mode := mode state |}
  | SET_MODE payload =>
      {| colors := colors state;
         contrastStandard := contrastStandard state;
         targetLevel := targetLevel state;
         mode := payload |}
  | RESET_PALETTE => initialPaletteState
  | REPLACE_COLORS _ => state            (* no case of its own: [default] *)
  end.

(** [handleApplyFix] of the matrix component, as far as the state goes:
    [dispatch(updateColor(colorId, { hex: newHex }))]. *)
Definition handleApplyFix (state : PaletteState) (colorId newHex : string)
  : PaletteState :=
  paletteReducer state
    (updateColor colorId
       {| upd_hex := Some newHex; upd_label := None;
          upd_role := None; upd_locked := None |}).

End Reducer.

Definition initialPaletteState (id1 id2 id3 id4 id5 : string) : PaletteState :=
  {| colors := createDefaultPalette id1 id2 id3 id4 id5;
     contrastStandard := WCAG2;
     targetLevel := AA;
     mode := light |}.

End Palette.

(** A palette entry where an [{ id, hex }] is expected. *)
Definition idHex (color : Palette.ColorEntry) : ColorEntry :=
  mkColor (Palette.id color) (Palette.hex color).

(* ================================================================== *)
(** ** [hooks/useContrastMatrix.ts]                                    *)
(* ================================================================== *)

Record UseContrastMatrixReturn : Type := mkHook {
  hook_matrix : list ContrastResult;
  hook_getResult : string -> string -> option ContrastResult;
  hook_summary : Summary
}.

Section Hook.

Variable oklch : string -> option Culori.Oklch.
Variable formatHex : Culori.Oklch -> option string.
Variable wcagContrast : string -> string -> Q.

(** The hook on a given palette state; memoisation does not change the
    values. *)
Definition useContrastMatrix (state : Palette.PaletteState) : UseContrastMatrixReturn :=
  let matrix :=
    generateContrastMatrix oklch formatHex wcagContrast
      (map idHex (Palette.colors state)) (Palette.targetLevel state) in
  {| hook_matrix := matrix;
     hook_getResult := fun foregroundId backgroundId =>
                         findContrastResult matrix foregroundId backgroundId;
     hook_summary := getContrastSummary matrix (Palette.targetLevel state) |}.

End Hook.

(* ================================================================== *)
(** ** [lib/palette/generator.ts]: the compliance check                *)
(* ================================================================== *)

Section Generator.

Variable wcagContrast : string -> string -> Q.

(** JavaScript's [a < b] on numbers. *)
Definition Qltb (a b : Q) : bool := negb (Qle_bool b a).

Definition findRole (r : Palette.ColorRole) (palette : list Palette.ColorEntry)
  : option Palette.ColorEntry :=
  find (fun c => Palette.role_eqb (Palette.role c) r) palette.

Definition isPaletteCompliant (palette : list Palette.ColorEntry) : bool :=
  match findRole Palette.role_background palette,
        findRole Palette.role_surface palette,
        findRole Palette.role_text_primary palette with
  | Some background, Some surface, Some textPrimary =>
      let textOnBg :=
        calculateContrast wcagContrast (Palette.hex textPrimary) (Palette.hex background) in
      if Qltb textOnBg 4.5 then false
      else
        let textOnSurface :=
          calculateContrast wcagContrast (Palette.hex textPrimary) (Palette.hex surface) in
        if Qltb textOnSurface 4.5 then false
        else
          match findRole Palette.role_text_secondary palette with
          | Some textSecondary =>
              let textSecOnBg :=
                calculateContrast wcagContrast
                  (Palette.hex textSecondary) (Palette.hex background) in
              if Qltb textSecOnBg 4.5 then false
              else
                let textSecOnSurface :=
                  calculateContrast wcagContrast
                    (Palette.hex textSecondary) (Palette.hex surface) in
                if Qltb textSecOnSurface 3 then false else true
          | None => true
          end
  | _, _, _ => false
  end.

End Generator.

(* ================================================================== *)
(** ** [src/lib/color/colorblind.ts]                                   *)
(* ================================================================== *)

Module Colorblind.

Inductive ColorBlindnessType : Type :=
| none | protanopia | deuteranopia | tritanopia | achromatopsia.

(** A JavaScript number that may be [NaN] ([None]); the others are
    doubles. *)
Definition number : Type := option Q.

(** [a * x] for a decimal literal [a], which denotes the double nearest to
    it; the product is a double operation. *)
Definition nmul (a : Q) (x : number) : number :=
  option_map (Double.mul (Double.round a)) x.

(** [x + y], a double operation. *)
Definition nadd (x y : number) : number :=
  match x, y with
  | Some a, Some b => Some (Double.add a b)
  | _, _ => None
  end.

(** [parseInt(s, 16)]: leading white space is skipped, then an optional
    sign and an optional [0x] are read, then the longest run of hex digits;
    no digit gives [NaN]. *)
Definition isWhiteSpace (ch : ascii) : bool :=
  let n := nat_of_ascii ch in
  ((9 <=? n) && (n <=? 13) || (n =? 32) || (n =? 160))%nat.

Fixpoint skipWhiteSpace (s : string) : string :=
  match s with
  | String ch s' => if isWhiteSpace ch then skipWhiteSpace s' else s
  | EmptyString => s
  end.

Fixpoint digits16 (s : string) (acc : option Z) : option Z :=
  match s with
  | String ch s' =>
      match Wcag.hexValue ch with
      | Some v =>
          digits16 s' (Some (16 * match acc with Some a => a | None => 0 end + v)%Z)
      | None => acc
      end
  | EmptyString => acc
  end.

Definition parseInt16 (s : string) : option Z :=
  let s1 := skipWhiteSpace s in
  let '(sign, s2) :=
    match s1 with
    | String "-" r => ((-1)%Z, r)
    | String "+" r => (1%Z, r)
    | _ => (1%Z, s1)
    end in
  let s3 :=
    match s2 with
    | String "0" (String x r) =>
        if Ascii.eqb x "x" || Ascii.eqb x "X" then r else s2
    | _ => s2
    end in
  option_map (Z.mul sign) (digits16 s3 None).

(** One channel: [parseInt(cleanHex.substring(a, a + 2), 16) / 255], a
    double division of an integer. *)
Definition channelAt (cleanHex : string) (a : nat) : number :=
  option_map (fun n => Double.div (inject_Z n) 255) (parseInt16 (substring a 2 cleanHex)).

Definition hexToRgb (hex : string) : number * number * number :=
  let cleanHex := JS.replaceHash hex in
  (channelAt cleanHex 0, channelAt cleanHex 2, channelAt cleanHex 4).

Definition hexDigitChar (n : Z) : ascii :=
  if (n <? 10)%Z then ascii_of_nat (Z.to_nat n + 48) else ascii_of_nat (Z.to_nat n + 87).

(** [n.toString(16)] for the integers [0 .. 255] that [toHex] passes. *)
Definition toString16 (n : Z) : string :=
  if (n <? 16)%Z then String (hexDigitChar n) ""
  else String (hexDigitChar (n / 16)) (String (hexDigitChar (n mod 16)) "").

(** [s.padStart(2, '0')] *)
Definition padStart2 (s : string) : string :=
  match s with
  | EmptyString => "00"
  | String ch EmptyString => String "0" s
  | _ => s
  end.

Definition toHex (n : number) : string :=
  match n with
  | None => "NaN"                       (* every step keeps [NaN] *)
  | Some q =>
      let clamped := Z.max 0 (Z.min 255 (JS.Math_round (Double.mul q 255))) in
      padStart2 (toString16 clamped)
  end.

Definition rgbToHex (r g b : number) : string :=
  JS.toUpperCase (toHex r ++ toHex g ++ toHex b).

Definition Matrix : Type := (Q * Q * Q) * (Q * Q * Q) * (Q * Q * Q).

Definition applyMatrix (r g b : number) (matrix : Matrix) : number * number * number :=
  let '((m00, m01, m02), (m10, m11, m12), (m20, m21, m22)) := matrix in
  (nadd (nadd (nmul m00 r) (nmul m01 g)) (nmul m02 b),
   nadd (nadd (nmul m10 r) (nmul m11 g)) (nmul m12 b),
   nadd (nadd (nmul m20 r) (nmul m21 g)) (nmul m22 b)).

(** [matrices[type]] *)
Definition matrices (type : ColorBlindnessType) : option Matrix :=
  match type with
  | protanopia =>
      Some ((0.56667, 0.43333, 0.00000),
            (0.55833, 0.44167, 0.00000),
            (0.00000, 0.24167, 0.75833))
  | deuteranopia =>
      Some ((0.625, 0.375, 0.0),
            (0.70, 0.30, 0.0),
            (0.0, 0.30, 0.70))
  | tritanopia =>
      Some ((0.95, 0.05, 0.0),
            (0.0, 0.43333, 0.56667),
            (0.0, 0.475, 0.525))
  | _ => None
  end.

Definition simulateColorBlindness (hex : string) (type : ColorBlindnessType) : string :=
  match type with
  | none => JS.toUpperCase (JS.replaceHash hex)
  | _ =>
      let '(r, g, b) := hexToRgb hex in
      match type with
      | achromatopsia =>
          let gray := nadd (nadd (nmul 0.299 r) (nmul 0.587 g)) (nmul 0.114 b) in
          rgbToHex gray gray gray
      | _ =>
          match matrices type with
          | None => JS.toUpperCase (JS.replaceHash hex)
          | Some matrix =>
              let '(newR, newG, newB) := applyMatrix r g b matrix in
              rgbToHex newR newG newB
          end
      end
  end.

End Colorblind.

(* ================================================================== *)
(** * Properties                                                       *)
(* ================================================================== *)

(** ** The regular-expression matcher decides the language *)

Section RegexFacts.
Import Regex.

Lemma append_empty_inv (s1 s2 : string) : s1 ++ s2 = "" -> s1 = "" /\ s2 = "".
Proof. destruct s1; simpl; [auto | discriminate]. Qed.

Lemma nullable_matches (r : regex) : nullable r = true <-> matches r "".
Proof.
  split.
  - induction r; simpl; intros Hn; try discriminate.
    + constructor.
    + apply andb_prop in Hn as [H1 H2].
      change "" with ("" ++ ""). constructor; auto.
    + apply orb_prop in Hn as [H1 | H2]; [apply m_alt_l | apply m_alt_r]; auto.
    + apply m_opt_none.
  - intros Hm. remember "" as e eqn:He.
    induction Hm; simpl; try discriminate; auto.
    + apply append_empty_inv in He as [-> ->].
      rewrite IHHm1, IHHm2; auto.
    + rewrite IHHm; auto.
    + rewrite IHHm; auto using orb_true_r.
Qed.

Lemma deriv_sound (r : regex) :
  forall a s, matches (deriv a r) s -> matches r (String a s).
Proof.
  induction r; simpl; intros a s Hm.
  - inversion Hm.
  - inversion Hm.
  - destruct (Ascii.eqb c a) eqn:E; inversion Hm; subst.
    apply Ascii.eqb_eq in E. subst. constructor.
  - destruct (in_class ranges a) eqn:E; inversion Hm; subst.
    constructor. exact E.
  - assert (Hseq : forall s', matches (Seq (deriv a r1) r2) s' ->
                              matches (Seq r1 r2) (String a s')).
    { intros s' Hs. inversion Hs; subst.
      change (String a (s1 ++ s2)) with (String a s1 ++ s2).
      constructor; auto. }
    destruct (nullable r1) eqn:Hn.
    + inversion Hm; subst; auto.
      change (String a s) with ("" ++ String a s).
      constructor; auto. apply nullable_matches. exact Hn.
    + auto.
  - inversion Hm; subst; [apply m_alt_l | apply m_alt_r]; auto.
  - apply m_opt_some. auto.
Qed.

Lemma deriv_complete (r : regex) (t : string) :
  matches r t -> forall a s, t = String a s -> matches (deriv a r) s.
Proof.
  induction 1; intros a s' Eq; simpl; try discriminate.
  - inversion Eq; subst. rewrite Ascii.eqb_refl. constructor.
  - inversion Eq; subst. rewrite H. constructor.
  - destruct s1 as [| b s1'].
    + simpl in Eq. subst.
      assert (Hn : nullable r1 = true) by (apply nullable_matches; assumption).
      rewrite Hn. apply m_alt_r. eauto.
    + simpl in Eq. inversion Eq; subst.
      assert (Hs : matches (Seq (deriv a r1) r2) (s1' ++ s2))
        by (constructor; eauto).
      destruct (nullable r1); [apply m_alt_l |]; exact Hs.
  - apply m_alt_l. eauto.
  - apply m_alt_r. eauto.
  - eauto.
Qed.

Lemma test_matches (s : string) : forall r, test r s = true <-> matches r s.
Proof.
  induction s as [| a s IH]; intros r; simpl.
  - apply nullable_matches.
  - rewrite IH. split.
    + apply deriv_sound.
    + intros Hm. eapply deriv_complete; eauto.
Qed.

End RegexFacts.

(** ** Hex validation and normalisation ([utils.ts]) *)

Section UtilsFacts.
Import Regex Utils.

Ltac each_ascii ch :=
  destruct ch as [[|] [|] [|] [|] [|] [|] [|] [|]]; vm_compute; try reflexivity; try discriminate; auto.

Lemma in_hexClass (ch : ascii) :
  in_class [("0", "9"); ("A", "F"); ("a", "f")]%char ch = isHexDigit ch.
Proof.
  unfold in_class, isHexDigit. simpl. rewrite orb_false_r, orb_assoc. reflexivity.
Qed.

Lemma hex_not_hash (ch : ascii) : isHexDigit ch = true -> Ascii.eqb ch "#" = false.
Proof. each_ascii ch. Qed.

Lemma upper_hex_digit (ch : ascii) :
  isHexDigit ch = true -> isUpperHexDigit (JS.upper_ascii ch) = true.
Proof. each_ascii ch. Qed.

Lemma upper_of_upper_hex (ch : ascii) :
  isUpperHexDigit ch = true -> JS.upper_ascii ch = ch.
Proof. each_ascii ch. Qed.

Lemma upper_hex_is_hex (ch : ascii) : isUpperHexDigit ch = true -> isHexDigit ch = true.
Proof. unfold isHexDigit, isUpperHexDigit. intros ->. reflexivity. Qed.

Lemma times_hexClass (n : nat) :
  forall d, matches (times n hexClass) d <-> hex_digits n d.
Proof.
  unfold hex_digits.
  induction n as [| n IH]; intros d; simpl.
  - split.
    + intros Hm. inversion Hm. auto.
    + intros [Hl _]. destruct d; [constructor | discriminate].
  - split.
    + intros Hm. inversion Hm as [| | | r1 r2 s1 s2 H1 H2 | | | |]; subst.
      inversion H1 as [| | rs ch Hc | | | | |]; subst.
      apply IH in H2 as [Hl Ha]. rewrite in_hexClass in Hc.
      simpl. rewrite Hc, Ha, Hl. auto.
    + intros [Hl Ha]. destruct d as [| ch d]; [discriminate |].
      simpl in Hl, Ha. apply andb_prop in Ha as [Hc Ha].
      change (String ch d) with (String ch "" ++ d).
      constructor.
      * constructor. rewrite in_hexClass. exact Hc.
      * apply IH. split; [congruence | exact Ha].
Qed.

Lemma hexPattern_language (s : string) : matches hexPattern s <-> hex_shape s.
Proof.
  unfold hexPattern, hex_shape. split.
  - intros Hm. inversion Hm as [| | | r1 r2 s1 s2 H1 H2 | | | |]; subst.
    exists s2. split.
    + inversion H1 as [| | | | | | | r s Hc]; subst; [left; reflexivity |].
      inversion Hc; subst. right. reflexivity.
    + inversion H2; subst; [left | right]; apply times_hexClass; assumption.
  - intros (d & Hs & Hd).
    assert (Hbody : matches (Alt (times 3 hexClass) (times 6 hexClass)) d).
    { destruct Hd as [Hd | Hd]; [apply m_alt_l | apply m_alt_r];
        apply times_hexClass; exact Hd. }
    destruct Hs as [-> | ->].
    + change d with ("" ++ d). constructor; [apply m_opt_none | exact Hbody].
    + change (String "#" d) with (String "#" "" ++ d).
      constructor; [apply m_opt_some; constructor | exact Hbody].
Qed.

(** [isValidHex] is true exactly on an optional ['#'] followed by 3 or 6
    hex digits. *)
Lemma isValidHex_shape (s : string) : isValidHex s = true <-> hex_shape s.
Proof. unfold isValidHex. rewrite test_matches. apply hexPattern_language. Qed.

Lemma join_doubled (s : string) :
  JS.join (map (fun char => char ++ char) (JS.split_chars s)) = double_chars s.
Proof.
  unfold JS.join.
  induction s as [| ch s IH]; simpl; [reflexivity |].
  destruct s as [| ch' s'].
  - reflexivity.
  - simpl in *. rewrite IH. reflexivity.
Qed.

Lemma length_toUpperCase (s : string) : String.length (JS.toUpperCase s) = String.length s.
Proof. induction s; simpl; congruence. Qed.

Lemma length_double_chars (s : string) :
  String.length (double_chars s) = (2 * String.length s)%nat.
Proof. induction s; simpl; lia. Qed.

Lemma all_hex_double (s : string) : all_hex s = true -> all_hex (double_chars s) = true.
Proof.
  induction s as [| ch s IH]; simpl; [auto |].
  intros H. apply andb_prop in H as [Hc Hs]. rewrite Hc, IH; auto.
Qed.

Lemma all_upper_of_hex (s : string) :
  all_hex s = true -> all_upper_hex (JS.toUpperCase s) = true.
Proof.
  induction s as [| ch s IH]; simpl; [auto |].
  intros H. apply andb_prop in H as [Hc Hs].
  rewrite upper_hex_digit, IH; auto.
Qed.

Lemma toUpperCase_fixed (s : string) :
  all_upper_hex s = true -> JS.toUpperCase s = s.
Proof.
  induction s as [| ch s IH]; simpl; [auto |].
  intros H. apply andb_prop in H as [Hc Hs].
  rewrite upper_of_upper_hex, IH; auto.
Qed.

Lemma all_upper_is_hex (s : string) : all_upper_hex s = true -> all_hex s = true.
Proof.
  induction s as [| ch s IH]; simpl; [auto |].
  intros H. apply andb_prop in H as [Hc Hs].
  rewrite upper_hex_is_hex, IH; auto.
Qed.

(** A non-empty run of hex digits does not start with ['#']. *)
Lemma digits_no_hash (n : nat) (d : string) :
  hex_digits (S n) d -> JS.startsWithHash d = false.
Proof.
  intros [Hl Ha]. destruct d as [| ch d]; [reflexivity |].
  simpl in *. apply andb_prop in Ha as [Hc _]. apply hex_not_hash. exact Hc.
Qed.

(** What [normalizeHex] returns on digits with or without the prefix. *)
Lemma normalizeHex_digits (d s : string) :
  s = d \/ s = String "#" d ->
  hex_digits 3 d \/ hex_digits 6 d ->
  normalizeHex s =
    Some (JS.toUpperCase (if (String.length d =? 3)%nat then double_chars d else d)).
Proof.
  intros Hs Hd.
  assert (Hv : isValidHex s = true) by (apply isValidHex_shape; exists d; auto).
  unfold normalizeHex. rewrite Hv. simpl.
  assert (Hstrip : (if JS.startsWithHash s then JS.slice1 s else s) = d).
  { destruct Hs as [-> | ->]; [| reflexivity].
    destruct Hd as [Hd | Hd]; rewrite (digits_no_hash _ _ Hd); reflexivity. }
  rewrite Hstrip, join_doubled.
  destruct (String.length d =? 3)%nat; reflexivity.
Qed.

Lemma normalizeHex_inv (s v : string) :
  normalizeHex s = Some v ->
  exists d, (s = d \/ s = String "#" d) /\
            ((hex_digits 3 d /\ v = JS.toUpperCase (double_chars d)) \/
             (hex_digits 6 d /\ v = JS.toUpperCase d)).
Proof.
  intros Hn.
  destruct (isValidHex s) eqn:Hv.
  - apply isValidHex_shape in Hv as (d & Hs & Hd).
    rewrite (normalizeHex_digits d s Hs Hd) in Hn.
    exists d. split; [exact Hs |].
    destruct Hd as [Hd | Hd]; pose proof Hd as [Hl _]; rewrite Hl in Hn;
      simpl in Hn; inversion Hn; auto.
  - unfold normalizeHex in Hn. rewrite Hv in Hn. discriminate.
Qed.

(** Every value [normalizeHex] returns is six digits out of [0-9A-F]. *)
Lemma normalizeHex_normalized (s v : string) :
  normalizeHex s = Some v -> normalized v.
Proof.
  intros Hn. apply normalizeHex_inv in Hn as (d & _ & [[[Hl Ha] ->] | [[Hl Ha] ->]]).
  - split.
    + rewrite length_toUpperCase, length_double_chars, Hl. reflexivity.
    + apply all_upper_of_hex, all_hex_double, Ha.
  - split.
    + rewrite length_toUpperCase. exact Hl.
    + apply all_upper_of_hex, Ha.
Qed.

Lemma normalized_fixed (v : string) : normalized v -> normalizeHex v = Some v.
Proof.
  intros [Hl Ha].
  rewrite (normalizeHex_digits v v).
  - rewrite Hl. simpl. rewrite toUpperCase_fixed; auto.
  - left; reflexivity.
  - right. split; [exact Hl | apply all_upper_is_hex, Ha].
Qed.

(** C9.  [normalizeHex s] is [null] exactly when [s] is not an optional ['#']
    followed by 3 or 6 hex digits; on three digits (with or without the
    prefix) it returns the upper-cased string in which every digit is
    doubled, and on six digits the upper-cased digits without the prefix. *)
Theorem normalizeHex_spec (s : string) :
  (normalizeHex s = None <-> ~ hex_shape s)
  /\ (forall d, hex_digits 3 d -> (s = d \/ s = String "#" d) ->
        normalizeHex s = Some (JS.toUpperCase (double_chars d)))
  /\ (forall d, hex_digits 6 d -> (s = d \/ s = String "#" d) ->
        normalizeHex s = Some (JS.toUpperCase d)).
Proof.
  split; [| split].
  - rewrite <- isValidHex_shape. unfold normalizeHex.
    destruct (isValidHex s); simpl.
    + split; [| intros H; exfalso; apply H; reflexivity].
      destruct (String.length _ =? 3)%nat; discriminate.
    + split; [discriminate | reflexivity].
  - intros d Hd Hs. rewrite (normalizeHex_digits d s Hs (or_introl Hd)).
    destruct Hd as [-> _]. reflexivity.
  - intros d Hd Hs. rewrite (normalizeHex_digits d s Hs (or_intror Hd)).
    destruct Hd as [-> _]. reflexivity.
Qed.

(** C10.  A value returned by [normalizeHex] is itself a valid hex, and
    normalising it again returns it unchanged. *)
Theorem normalizeHex_closure (s v : string) :
  normalizeHex s = Some v ->
  isValidHex v = true /\ normalizeHex v = Some v.
Proof.
  intros Hn. apply normalizeHex_normalized in Hn.
  pose proof (normalized_fixed v Hn) as Hfix.
  split; [| exact Hfix].
  unfold normalizeHex in Hfix. destruct (isValidHex v); [reflexivity | discriminate].
Qed.

End UtilsFacts.

Example normalize_hash_abc : Utils.normalizeHex "#abc" = Some "AABBCC".
Proof. reflexivity. Qed.

Example normalize_f00 : Utils.normalizeHex "f00" = Some "FF0000".
Proof. reflexivity. Qed.

Example normalize_zzzzzz : Utils.normalizeHex "zzzzzz" = None.
Proof. reflexivity. Qed.

(** ** Rounding *)

Section RoundingFacts.

(** [Math.round] returns the nearest integer, a tie going up. *)
Lemma Math_round_nearest (x : Q) :
  inject_Z (JS.Math_round x) - (1 # 2) <= x /\ x < inject_Z (JS.Math_round x) + (1 # 2).
Proof.
  unfold JS.Math_round.
  pose proof (Qfloor_le (x + (1 # 2))) as Hlo.
  pose proof (Qlt_floor (x + (1 # 2))) as Hhi.
  rewrite inject_Z_plus in Hhi.
  change (inject_Z 1) with 1 in Hhi.
  split; lra.
Qed.

Lemma Math_round_mono (x y : Q) : x <= y -> (JS.Math_round x <= JS.Math_round y)%Z.
Proof.
  intros H. unfold JS.Math_round. apply Qfloor_resp_le. lra.
Qed.

Lemma Math_round_Z (z : Z) : JS.Math_round (inject_Z z) = z.
Proof.
  pose proof (Math_round_nearest (inject_Z z)) as [Hlo Hhi].
  set (r := JS.Math_round (inject_Z z)) in *.
  assert (H1 : inject_Z r < inject_Z (z + 1) /\ inject_Z z < inject_Z (r + 1)).
  { rewrite !inject_Z_plus. change (inject_Z 1) with 1.
    set (a := inject_Z r) in *. set (b := inject_Z z) in *.
    clearbody a b. split; lra. }
  destruct H1 as [H1 H2].
  rewrite <- Zlt_Qlt in H1, H2. lia.
Qed.

End RoundingFacts.

(** ** Rounding to a double *)

Section DoubleFacts.

Lemma rne_comp (x y : Q) : x == y -> Double.rne x = Double.rne y.
Proof.
  intros H. unfold Double.rne. cbv zeta. rewrite (Qfloor_comp x y H).
  assert (Hc : Qcompare (x - inject_Z (Qfloor y)) (1 # 2)
               = Qcompare (y - inject_Z (Qfloor y)) (1 # 2)).
  { apply Qcompare_comp; [rewrite H |]; reflexivity. }
  rewrite Hc. reflexivity.
Qed.

Lemma flog2_comp (x y : Q) : x == y -> Double.flog2 x = Double.flog2 y.
Proof.
  intros H. unfold Double.flog2.
  assert (Hb : Qle_bool 1 x = Qle_bool 1 y) by (rewrite H; reflexivity).
  rewrite Hb, (Qfloor_comp x y H).
  rewrite (Qceiling_comp (/ x) (/ y)); [reflexivity |]. rewrite H. reflexivity.
Qed.

(** Three doubles everyone knows: [0.1], [0.1 + 0.2], and the tie at
    [2^53 + 1], which goes to the even significand. *)
Example double_tenth : Double.round 0.1 == 3602879701896397 # 36028797018963968.
Proof. vm_compute. reflexivity. Qed.

Example double_tenth_plus_fifth :
  Double.add (Double.round 0.1) (Double.round 0.2)
  == 5404319552844596 # 18014398509481984.
Proof. vm_compute. reflexivity. Qed.

Example double_tie_even : Double.round 9007199254740993 == 9007199254740992.
Proof. vm_compute. reflexivity. Qed.

(** Equal rationals round to the same double. *)
Lemma round_comp (x y : Q) : x == y -> Double.round x = Double.round y.
Proof.
  intros H. unfold Double.round, Double.ulp_exp.
  rewrite (Qcompare_comp x y H 0 0 (Qeq_refl 0)).
  destruct (Qcompare y 0); cbv zeta.
  - reflexivity.
  - rewrite (flog2_comp (- x) (- y)) by (rewrite H; reflexivity).
    rewrite (rne_comp (- x * _) (- y * 2 ^ (- Z.max (-1074) (Double.flog2 (- y) - 52))));
      [reflexivity | rewrite H; reflexivity].
  - rewrite (flog2_comp x y H).
    rewrite (rne_comp (x * _) (y * 2 ^ (- Z.max (-1074) (Double.flog2 y - 52))));
      [reflexivity | rewrite H; reflexivity].
Qed.

Lemma rne_nonneg (y : Q) : 0 <= y -> (0 <= Double.rne y)%Z.
Proof.
  intros Hy. unfold Double.rne. cbv zeta.
  assert (Hf : (0 <= Qfloor y)%Z).
  { change 0%Z with (Qfloor 0). apply Qfloor_resp_le. exact Hy. }
  destruct (Qcompare _ _); [destruct (Z.even _) | |]; lia.
Qed.

(** Rounding to an integer does not cross an integer. *)
Lemma rne_le_int (y : Q) (K : Z) : y <= inject_Z K -> (Double.rne y <= K)%Z.
Proof.
  intros Hy. unfold Double.rne. cbv zeta.
  assert (Hf : (Qfloor y <= K)%Z).
  { rewrite <- (Qfloor_Z K). apply Qfloor_resp_le. exact Hy. }
  assert (Hstep : 0 < y - inject_Z (Qfloor y) -> (Qfloor y + 1 <= K)%Z).
  { intros Hpos.
    assert (Hlt : inject_Z (Qfloor y) < inject_Z K) by lra.
    rewrite <- Zlt_Qlt in Hlt. lia. }
  destruct (Qcompare (y - inject_Z (Qfloor y)) (1 # 2)) eqn:E.
  - apply Qeq_alt in E. destruct (Z.even _); [exact Hf |]. apply Hstep. lra.
  - exact Hf.
  - apply Qgt_alt in E. apply Hstep. lra.
Qed.

Lemma flog2_le (x : Q) (c : Z) :
  x <= inject_Z c -> (0 < c)%Z -> (Double.flog2 x <= Z.log2 c)%Z.
Proof.
  intros Hx Hc. unfold Double.flog2.
  destruct (Qle_bool 1 x).
  - apply Z.log2_le_mono. rewrite <- (Qfloor_Z c). apply Qfloor_resp_le. exact Hx.
  - pose proof (Z.log2_up_nonneg (Qceiling (/ x))). pose proof (Z.log2_nonneg c). lia.
Qed.

Lemma round_nonneg (x : Q) : 0 <= x -> 0 <= Double.round x.
Proof.
  intros Hx. unfold Double.round.
  destruct (Qcompare x 0) eqn:E; cbv zeta.
  - apply Qle_refl.
  - apply Qlt_alt in E. lra.
  - apply Qmult_le_0_compat.
    + change 0 with (inject_Z 0). rewrite <- Zle_Qle. apply rne_nonneg.
      apply Qmult_le_0_compat; [exact Hx |]. apply Qpower_0_le. discriminate.
    + apply Qpower_0_le. discriminate.
Qed.

(** Rounding to a double does not cross an integer below [2^53]: such an
    integer is a double, and a multiple of the last place of every smaller
    double. *)
Lemma round_le_int (x : Q) (c : Z) :
  (0 < c < 2 ^ 53)%Z -> x <= inject_Z c -> Double.round x <= inject_Z c.
Proof.
  intros Hc Hx. unfold Double.round.
  destruct (Qcompare x 0) eqn:E; cbv zeta.
  - change 0 with (inject_Z 0). rewrite <- Zle_Qle. lia.
  - apply Qlt_alt in E.
    assert (Hn : 0 <= inject_Z (Double.rne (- x * 2 ^ (- Double.ulp_exp (- x))))
                      * 2 ^ Double.ulp_exp (- x)).
    { apply Qmult_le_0_compat.
      - change 0 with (inject_Z 0). rewrite <- Zle_Qle. apply rne_nonneg.
        apply Qmult_le_0_compat; [lra |]. apply Qpower_0_le. discriminate.
      - apply Qpower_0_le. discriminate. }
    assert (0 <= inject_Z c) by (change 0 with (inject_Z 0); rewrite <- Zle_Qle; lia).
    lra.
  - set (e := Double.ulp_exp x).
    assert (He : (e <= 0)%Z).
    { subst e. unfold Double.ulp_exp.
      pose proof (flog2_le x c Hx (proj1 Hc)) as Hl.
      assert (Z.log2 c < 53)%Z by (apply Z.log2_lt_pow2; lia).
      lia. }
    assert (Hp : 2 ^ (- e) == inject_Z (2 ^ (- e))).
    { rewrite Zpower_Qpower by lia. reflexivity. }
    assert (Hpos : 0 < 2 ^ e) by (apply Qpower_0_lt; reflexivity).
    assert (Hinv : 2 ^ (- e) * 2 ^ e == 1).
    { rewrite <- Qpower_plus by discriminate.
      replace (- e + e)%Z with 0%Z by lia. reflexivity. }
    assert (Hm : (Double.rne (x * 2 ^ (- e)) <= c * 2 ^ (- e))%Z).
    { apply rne_le_int. rewrite inject_Z_mult, <- Hp.
      apply Qmult_le_compat_r; [exact Hx |]. apply Qpower_0_le. discriminate. }
    rewrite Zle_Qle, inject_Z_mult, <- Hp in Hm.
    apply Qle_trans with (inject_Z c * 2 ^ (- e) * 2 ^ e).
    + apply Qmult_le_compat_r; [exact Hm | apply Qlt_le_weak; exact Hpos].
    + rewrite <- Qmult_assoc, Hinv, Qmult_1_r. apply Qle_refl.
Qed.

(** The percentage as the code computes it, and as exact arithmetic would. *)
Local Abbreviation double_percentage p t :=
  (JS.Math_round (Double.mul (Double.div (inject_Z p) (inject_Z t)) 100)).
Local Abbreviation exact_percentage p t :=
  (JS.Math_round (inject_Z p / inject_Z t * 100)).

Lemma double_percentage_range (p t : Z) :
  (0 <= p <= t)%Z -> (0 < t)%Z -> (0 <= double_percentage p t <= 100)%Z.
Proof.
  intros Hp Ht.
  assert (Ht' : 0 < inject_Z t) by (change 0 with (inject_Z 0); rewrite <- Zlt_Qlt; exact Ht).
  assert (Hp0 : 0 <= inject_Z p) by (change 0 with (inject_Z 0); rewrite <- Zle_Qle; lia).
  assert (Hpt : inject_Z p <= inject_Z t) by (rewrite <- Zle_Qle; lia).
  assert (Hq0 : 0 <= inject_Z p / inject_Z t).
  { apply Qle_shift_div_l; [exact Ht' |]. lra. }
  assert (Hq1 : inject_Z p / inject_Z t <= inject_Z 1).
  { apply Qle_shift_div_r; [exact Ht' |]. change (inject_Z 1) with 1. lra. }
  unfold Double.mul, Double.div.
  pose proof (round_nonneg _ Hq0) as Hd0.
  pose proof (round_le_int _ 1 ltac:(split; reflexivity) Hq1) as Hd1.
  change (inject_Z 1) with 1 in Hd1.
  set (d := Double.round (inject_Z p / inject_Z t)) in *. clearbody d.
  assert (Hm0 : 0 <= d * 100) by lra.
  assert (Hm1 : d * 100 <= inject_Z 100) by (change (inject_Z 100) with 100; lra).
  pose proof (round_nonneg _ Hm0) as Hr0.
  pose proof (round_le_int _ 100 ltac:(split; reflexivity) Hm1) as Hr1.
  change (inject_Z 100) with 100 in Hr1.
  set (r := Double.round (d * 100)) in *. clearbody r.
  unfold JS.Math_round. split.
  - change 0%Z with (Qfloor 0). apply Qfloor_resp_le. lra.
  - change 100%Z with (Qfloor (100 + (1 # 2))). apply Qfloor_resp_le. lra.
Qed.

Lemma double_percentage_all (t : Z) : (0 < t)%Z -> double_percentage t t = 100%Z.
Proof.
  intros Ht.
  assert (Ht' : ~ inject_Z t == 0).
  { intros H. unfold Qeq in H. simpl in H. lia. }
  assert (H1 : inject_Z t / inject_Z t == 1) by (field; exact Ht').
  unfold Double.mul, Double.div.
  rewrite (round_comp _ _ H1).
  assert (H2 : Double.round 1 * 100 == 100) by (vm_compute; reflexivity).
  rewrite (round_comp _ _ H2). vm_compute. reflexivity.
Qed.

Lemma double_percentage_none (t : Z) : double_percentage 0 t = 0%Z.
Proof.
  assert (H0 : inject_Z 0 / inject_Z t == 0) by (unfold Qdiv; ring).
  unfold Double.mul, Double.div.
  rewrite (round_comp _ _ H0).
  assert (H2 : Double.round 0 * 100 == 0) by (vm_compute; reflexivity).
  rewrite (round_comp _ _ H2). reflexivity.
Qed.

(** For the matrix of at most 12 colours with pairwise distinct ids, the
    palettes the reducer allows, [total] is [N * (N - 1)], and for every
    count of passing pairs the double computation gives the percentage of
    exact arithmetic. *)
Lemma double_percentage_exact (N p : nat) :
  (N <= 12)%nat -> (p <= N * (N - 1))%nat ->
  double_percentage (Z.of_nat p) (Z.of_nat (N * (N - 1)))
  = exact_percentage (Z.of_nat p) (Z.of_nat (N * (N - 1))).
Proof.
  intros HN Hp.
  assert (Hall :
    forallb (fun n =>
      forallb (fun k =>
        Z.eqb (double_percentage (Z.of_nat k) (Z.of_nat (n * (n - 1))))
              (exact_percentage (Z.of_nat k) (Z.of_nat (n * (n - 1)))))
        (seq 0 (S (n * (n - 1)))))
      (seq 0 13) = true) by (vm_compute; reflexivity).
  rewrite forallb_forall in Hall.
  specialize (Hall N ltac:(apply in_seq; lia)).
  rewrite forallb_forall in Hall.
  specialize (Hall p ltac:(apply in_seq; lia)).
  apply Z.eqb_eq in Hall. exact Hall.
Qed.

End DoubleFacts.

(** ** The contrast result, the matrix and its summary ([contrast.ts]) *)

Section ContrastFacts.

Variable oklch : string -> option Culori.Oklch.
Variable formatHex : Culori.Oklch -> option string.
Variable wcagContrast : string -> string -> Q.

Local Abbreviation result_of := (calculateContrastResult oklch formatHex wcagContrast).
Local Abbreviation matrix_of := (generateContrastMatrix oklch formatHex wcagContrast).
Local Abbreviation fix_of := (findNearestAccessible oklch formatHex wcagContrast).

Lemma strictNe_true (a b : string) : strictNe a b = true <-> a <> b.
Proof.
  unfold strictNe. rewrite negb_true_iff. apply String.eqb_neq.
Qed.

(** C3.  The result of a pair carries the rounded contrast of its two hex
    values, and its flags are that ratio compared with 4.5 and 7.  It
    carries a suggestion attempt only when that ratio is below the
    normal-text threshold of the active level (4.5 for AA, 7 for AAA) and
    the two ids differ; the attempt is the search for these two hex values
    at that threshold.  Otherwise (the pair reaches the threshold, or the
    ids are equal whatever the hex values) the suggestion is [null]. *)
Theorem suggestedFix_rule
    (fgId fgHex bgId bgHex : string) (level : TargetLevel) :
  let r := result_of fgId fgHex bgId bgHex level in
  let measured := calculateContrast wcagContrast fgHex bgHex in
  let target := match level with AA => 4.5 | AAA => 7 end in
  getTargetRatio level false = target
  /\ foregroundId r = fgId /\ backgroundId r = bgId
  /\ ratio r = measured
  /\ passesAA r = Qgeb measured 4.5
  /\ passesAAA r = Qgeb measured 7
  /\ passesLevel level r = Qgeb measured target
  /\ (measured < target -> fgId <> bgId ->
        passesLevel level r = false
        /\ suggestedFix r = fix_of fgHex bgHex target)
  /\ (target <= measured -> passesLevel level r = true /\ suggestedFix r = None)
  /\ (fgId = bgId -> suggestedFix r = None)
  /\ (suggestedFix r <> None ->
        measured < target /\ passesLevel level r = false /\ fgId <> bgId).
Proof.
  intros r measured target.
  assert (Hlevel : passesLevel level r = Qgeb measured target).
  { subst r measured target. destruct level; reflexivity. }
  assert (Hfix : suggestedFix r =
                 if negb (passesLevel level r) && strictNe fgId bgId
                 then fix_of fgHex bgHex target else None).
  { subst r target. unfold calculateContrastResult, passesLevel. simpl.
    destruct level; reflexivity. }
  assert (Hsame : fgId = bgId -> strictNe fgId bgId = false).
  { intros ->. unfold strictNe. rewrite String.eqb_refl. reflexivity. }
  assert (Hbelow : measured < target -> passesLevel level r = false).
  { intros Hlt. rewrite Hlevel. unfold Qgeb.
    destruct (Qle_bool target measured) eqn:E; [| reflexivity].
    apply Qle_bool_iff in E. apply Qlt_not_le in Hlt. contradiction. }
  assert (Hreach : target <= measured -> passesLevel level r = true).
  { intros Hle. rewrite Hlevel. unfold Qgeb. apply Qle_bool_iff. exact Hle. }
  split; [destruct level; reflexivity |].
  split; [reflexivity |]. split; [reflexivity |]. split; [reflexivity |].
  split; [reflexivity |]. split; [reflexivity |].
  split; [exact Hlevel |].
  split; [| split; [| split]].
  - intros Hlt Hne. split; [exact (Hbelow Hlt) |].
    apply strictNe_true in Hne.
    rewrite Hfix, (Hbelow Hlt), Hne. reflexivity.
  - intros Hle. split; [exact (Hreach Hle) |].
    rewrite Hfix, (Hreach Hle). reflexivity.
  - intros Heq. rewrite Hfix, (Hsame Heq), andb_false_r. reflexivity.
  - intros Hsome.
    assert (Hfail : passesLevel level r = false).
    { destruct (passesLevel level r); [| reflexivity].
      exfalso. apply Hsome. rewrite Hfix. reflexivity. }
    split; [| split; [exact Hfail |]].
    + apply Qnot_le_lt. intros Hle. rewrite (Hreach Hle) in Hfail. discriminate.
    + intros Heq. apply Hsome.
      rewrite Hfix, (Hsame Heq), andb_false_r. reflexivity.
Qed.

(** *** Cardinalities *)

Lemma filter_map_length {A B : Type} (p : B -> bool) (g : A -> B) (xs : list A) :
  List.length (filter p (map g xs)) = List.length (filter (fun x => p (g x)) xs).
Proof.
  induction xs as [| x xs IH]; simpl; [reflexivity |].
  destruct (p (g x)); simpl; rewrite IH; reflexivity.
Qed.

(** In a list whose ids are pairwise distinct, exactly one entry has the id
    of a given member. *)
Lemma same_id_once (colors : list ColorEntry) (f : ColorEntry) :
  NoDup (map id colors) -> In f colors ->
  List.length (filter (fun b => String.eqb (id f) (id b)) colors) = 1%nat.
Proof.
  induction colors as [| x xs IH]; simpl; intros Hnd Hin; [contradiction |].
  inversion Hnd as [| ? ? Hnotin Hnd']; subst.
  destruct Hin as [-> | Hin].
  - rewrite String.eqb_refl. simpl. f_equal.
    assert (Hnone : forall ys, ~ In (id f) (map id ys) ->
              filter (fun b => String.eqb (id f) (id b)) ys = []).
    { induction ys as [| y ys IHy]; simpl; intros Hn; [reflexivity |].
      destruct (String.eqb (id f) (id y)) eqn:E.
      - apply String.eqb_eq in E. exfalso. apply Hn. left. congruence.
      - apply IHy. intros Hc. apply Hn. right. exact Hc. }
    rewrite Hnone; auto.
  - destruct (String.eqb (id f) (id x)) eqn:E.
    + apply String.eqb_eq in E. exfalso. apply Hnotin.
      rewrite <- E. apply in_map. exact Hin.
    + apply IH; assumption.
Qed.

Lemma other_ids_count (colors : list ColorEntry) (f : ColorEntry) :
  NoDup (map id colors) -> In f colors ->
  List.length (filter (fun b => strictNe (id f) (id b)) colors)
  = (List.length colors - 1)%nat.
Proof.
  intros Hnd Hin.
  pose proof (filter_length (fun b => String.eqb (id f) (id b)) colors) as Hsplit.
  rewrite (same_id_once colors f Hnd Hin) in Hsplit.
  unfold strictNe. lia.
Qed.

Lemma matrix_length (colors : list ColorEntry) (level : TargetLevel) :
  List.length (matrix_of colors level) = (List.length colors * List.length colors)%nat.
Proof.
  unfold generateContrastMatrix.
  apply flat_map_constant_length. intros x _. apply length_map.
Qed.

Lemma matrix_off_diagonal (colors : list ColorEntry) (level : TargetLevel) :
  NoDup (map id colors) ->
  List.length
    (filter (fun result => strictNe (foregroundId result) (backgroundId result))
            (matrix_of colors level))
  = (List.length colors * List.length colors - List.length colors)%nat.
Proof.
  intros Hnd. unfold generateContrastMatrix.
  set (row := fun foreground : ColorEntry => map _ colors).
  assert (Hrows : forall fs, (forall f, In f fs -> In f colors) ->
            List.length
              (filter (fun result => strictNe (foregroundId result) (backgroundId result))
                      (flat_map row fs))
            = (List.length fs * (List.length colors - 1))%nat).
  { induction fs as [| f fs IH]; intros Hsub; simpl; [reflexivity |].
    rewrite filter_app, length_app, IH by (intros; apply Hsub; right; assumption).
    subst row. simpl. rewrite filter_map_length. simpl.
    rewrite other_ids_count; [reflexivity | exact Hnd | apply Hsub; left; reflexivity]. }
  rewrite Hrows by auto.
  destruct (List.length colors) as [| n]; [reflexivity |].
  simpl. rewrite Nat.sub_0_r. nia.
Qed.

(** C5.  The matrix of [N] colours has [N * N] results; the summary counts
    the results whose two ids differ, which is [N * N - N] of the matrix
    when the ids are pairwise distinct; [failing] is the rest; and
    [percentage] is [0] when [total] is [0], and otherwise [Math.round] of
    [(passing / total) * 100] as double arithmetic computes it: the
    quotient is rounded to a double, and so is the product.  That is the
    percentage of exact arithmetic for every matrix of at most 12 colours
    with pairwise distinct ids; it always lies between 0 and 100. *)
Theorem matrix_and_summary_cardinalities
    (colors : list ColorEntry) (level level' : TargetLevel)
    (matrix : list ContrastResult) :
  let N := Z.of_nat (List.length colors) in
  let s := getContrastSummary matrix level' in
  let s' := getContrastSummary (matrix_of colors level) level' in
  Z.of_nat (List.length (matrix_of colors level)) = (N * N)%Z
  /\ total s = Z.of_nat (List.length
       (filter (fun r => strictNe (foregroundId r) (backgroundId r)) matrix))
  /\ (NoDup (map id colors) -> total s' = (N * N - N)%Z)
  /\ (0 <= passing s <= total s)%Z
  /\ failing s = (total s - passing s)%Z
  /\ (total s = 0%Z -> percentage s = 0%Z)
  /\ (total s <> 0%Z ->
        percentage s
        = JS.Math_round
            (Double.mul (Double.div (inject_Z (passing s)) (inject_Z (total s))) 100))
  /\ (0 <= percentage s <= 100)%Z
  /\ (NoDup (map id colors) -> (List.length colors <= 12)%nat ->
        percentage s'
        = JS.Math_round (inject_Z (passing s') / inject_Z (total s') * 100)).
Proof.
  intros N s s'.
  assert (Hcount : (0 <= passing s <= total s)%Z).
  { subst s. unfold getContrastSummary. cbn [total passing].
    split; [lia |]. apply inj_le. apply filter_length_le. }
  assert (Hdouble : total s <> 0%Z ->
            percentage s
            = JS.Math_round
                (Double.mul (Double.div (inject_Z (passing s)) (inject_Z (total s))) 100)).
  { subst s. unfold getContrastSummary. cbn [total passing percentage]. intros Hne.
    destruct (0 <? Z.of_nat _)%Z eqn:E; [reflexivity |].
    apply Z.ltb_ge in E. lia. }
  assert (Hzero : total s = 0%Z -> percentage s = 0%Z).
  { subst s. unfold getContrastSummary. cbn [total percentage]. intros ->. reflexivity. }
  assert (Htotal : NoDup (map id colors) -> total s' = (N * N - N)%Z).
  { subst s' N. unfold getContrastSummary. cbn [total].
    intros Hnd. rewrite (matrix_off_diagonal colors level Hnd).
    assert (List.length colors <= List.length colors * List.length colors)%nat by nia.
    lia. }
  split; [subst N; rewrite matrix_length; lia |].
  split; [reflexivity |].
  split; [exact Htotal |].
  split; [exact Hcount |].
  split; [reflexivity |].
  split; [exact Hzero |].
  split; [exact Hdouble |].
  split.
  - destruct (Z.eq_dec (total s) 0) as [E | E]; [rewrite (Hzero E); lia |].
    rewrite (Hdouble E). apply double_percentage_range; lia.
  - intros Hnd Hlen.
    assert (Hp' : (0 <= passing s' <= total s')%Z).
    { subst s'. unfold getContrastSummary. cbn [total passing].
      split; [lia |]. apply inj_le. apply filter_length_le. }
    assert (Ht' : total s' = Z.of_nat (List.length colors * (List.length colors - 1))).
    { rewrite (Htotal Hnd). subst N.
      destruct (List.length colors) as [| n]; [reflexivity |].
      rewrite Nat.sub_succ, Nat.sub_0_r. lia. }
    assert (Hperc : percentage s'
              = if (0 <? total s')%Z
                then JS.Math_round
                       (Double.mul (Double.div (inject_Z (passing s')) (inject_Z (total s')))
                          100)
                else 0%Z) by reflexivity.
    rewrite Hperc.
    destruct (0 <? total s')%Z eqn:E.
    + rewrite Ht'.
      replace (passing s') with (Z.of_nat (Z.to_nat (passing s'))) by lia.
      apply double_percentage_exact; [exact Hlen | lia].
    + apply Z.ltb_ge in E. assert (E0 : total s' = 0%Z) by lia.
      rewrite E0. symmetry. unfold JS.Math_round.
      assert (H0 : inject_Z (passing s') / inject_Z 0 * 100 + (1 # 2) == 1 # 2).
      { unfold Qdiv. change (/ inject_Z 0) with 0. ring. }
      rewrite (Qfloor_comp _ _ H0). reflexivity.
Qed.

End ContrastFacts.

(** ** The contrast ratio ([calculateContrast] over the WCAG formula) *)

Section WcagFacts.
Import Utils.

Variable pow24 : Q -> Q.

(** The one fact used about the power: it maps the unit interval into
    itself. *)
Hypothesis pow24_unit : forall x, 0 <= x <= 1 -> 0 <= pow24 x <= 1.

Local Abbreviation contrast := (Wcag.wcagContrast pow24).
Local Abbreviation lum := (Wcag.luminance pow24).

Lemma hexValue_digit (ch : ascii) :
  isHexDigit ch = true -> exists v, Wcag.hexValue ch = Some v /\ (0 <= v <= 15)%Z.
Proof.
  destruct ch as [[|] [|] [|] [|] [|] [|] [|] [|]]; vm_compute; intros H;
    try discriminate H; eexists; (split; [reflexivity | split; discriminate]).
Qed.

Lemma hexValues_digits (d : string) :
  all_hex d = true ->
  exists vs, Wcag.hexValues d = Some vs
             /\ List.length vs = String.length d
             /\ Forall (fun v => 0 <= v <= 15)%Z vs.
Proof.
  induction d as [| ch d IH]; simpl; intros Ha.
  - exists []. auto.
  - apply andb_prop in Ha as [Hc Ha].
    destruct (hexValue_digit ch Hc) as (v & -> & Hv).
    destruct (IH Ha) as (vs & -> & Hl & Hf).
    exists (v :: vs). simpl. auto.
Qed.

(** Six hex digits behind a ['#'] are a colour of three 8-bit channels. *)
Lemma parseHex_six (d : string) :
  hex_digits 6 d ->
  exists r g b, Wcag.parseHex ("#" ++ d) = Some (r, g, b)
                /\ (0 <= r <= 255)%Z /\ (0 <= g <= 255)%Z /\ (0 <= b <= 255)%Z.
Proof.
  intros [Hl Ha].
  destruct (hexValues_digits d Ha) as (vs & Hvs & Hlen & Hf).
  rewrite Hl in Hlen. change ("#" ++ d) with (String "#" d).
  unfold Wcag.parseHex. rewrite Hvs.
  destruct vs as [| r1 [| r2 [| g1 [| g2 [| b1 [| b2 [| ? ?]]]]]]]; try discriminate Hlen.
  repeat match goal with H : Forall _ (_ :: _) |- _ => inversion H; clear H; subst end.
  cbv beta in *. do 3 eexists. split; [reflexivity |]. lia.
Qed.

Lemma linearize_unit (v : Q) : 0 <= v <= 1 -> 0 <= Wcag.linearize pow24 v <= 1.
Proof.
  intros [H0 H1]. unfold Wcag.linearize.
  destruct (Qle_bool v 0.03928) eqn:E.
  - apply Qle_bool_iff in E.
    assert (Heq : v / 12.92 == v * (100 # 1292)) by (unfold Qdiv; reflexivity).
    rewrite Heq. split; lra.
  - apply pow24_unit.
    assert (Heq : (v + 0.055) / 1.055 == (v + 0.055) * (1000 # 1055))
      by (unfold Qdiv; reflexivity).
    rewrite Heq. split; lra.
Qed.

Lemma channel_unit (n : Z) : (0 <= n <= 255)%Z -> 0 <= Wcag.channel pow24 n <= 1.
Proof.
  intros [H0 H1]. unfold Wcag.channel. apply linearize_unit.
  assert (Heq : inject_Z n / 255 == inject_Z n * (1 # 255)) by (unfold Qdiv; reflexivity).
  rewrite Heq.
  assert (Hlo : inject_Z 0 <= inject_Z n) by (rewrite <- Zle_Qle; exact H0).
  assert (Hhi : inject_Z n <= inject_Z 255) by (rewrite <- Zle_Qle; exact H1).
  change (inject_Z 0) with 0 in Hlo. change (inject_Z 255) with 255 in Hhi.
  set (q := inject_Z n) in *. clearbody q. split; lra.
Qed.

Lemma luminance_unit (r g b : Z) :
  (0 <= r <= 255)%Z -> (0 <= g <= 255)%Z -> (0 <= b <= 255)%Z ->
  0 <= lum (r, g, b) <= 1.
Proof.
  intros Hr Hg Hb. unfold Wcag.luminance.
  pose proof (channel_unit r Hr). pose proof (channel_unit g Hg).
  pose proof (channel_unit b Hb).
  split; lra.
Qed.

(** The ratio of two luminances of the unit interval lies between 1 and 21. *)
Lemma ratio_range (L1 L2 : Q) :
  0 <= L1 <= 1 -> 0 <= L2 <= 1 ->
  1 <= (Qmax L1 L2 + 0.05) / (Qmin L1 L2 + 0.05) <= 21.
Proof.
  intros H1 H2.
  assert (Hmm : Qmin L1 L2 <= Qmax L1 L2 /\ 0 <= Qmin L1 L2 /\ Qmax L1 L2 <= 1).
  { destruct (Q.max_spec L1 L2) as [[Hlt ->] | [Hle ->]];
      destruct (Q.min_spec L1 L2) as [[Hlt' ->] | [Hle' ->]]; lra. }
  set (hi := Qmax L1 L2) in *. set (lo := Qmin L1 L2) in *. clearbody hi lo.
  destruct Hmm as (Hle & Hlo & Hhi).
  assert (Hpos : 0 < lo + 0.05) by lra.
  split.
  - apply Qle_shift_div_l; [exact Hpos | lra].
  - apply Qle_shift_div_r; [exact Hpos | lra].
Qed.

(** Rounding to two decimals keeps a ratio between 1 and 21. *)
Lemma round2_range (x : Q) :
  1 <= x <= 21 -> 1 <= inject_Z (JS.Math_round (x * 100)) / 100 <= 21.
Proof.
  intros [Hlo Hhi].
  assert (H100 : (100 <= JS.Math_round (x * 100))%Z).
  { pose proof (Math_round_mono (inject_Z 100) (x * 100)) as Hm.
    rewrite Math_round_Z in Hm. apply Hm.
    change (inject_Z 100) with 100. lra. }
  assert (H2100 : (JS.Math_round (x * 100) <= 2100)%Z).
  { pose proof (Math_round_mono (x * 100) (inject_Z 2100)) as Hm.
    rewrite Math_round_Z in Hm. apply Hm.
    change (inject_Z 2100) with 2100. lra. }
  rewrite Zle_Qle in H100, H2100.
  change (inject_Z 100) with 100 in H100. change (inject_Z 2100) with 2100 in H2100.
  set (k := inject_Z (JS.Math_round (x * 100))) in *. clearbody k.
  assert (Heq : k / 100 == k * (1 # 100)) by (unfold Qdiv; reflexivity).
  rewrite Heq. split; lra.
Qed.

(** On an 8-bit channel the breakpoint 0.03928 of WCAG and the breakpoint
    0.04045 of the sRGB standard select the same branch: no multiple of
    1/255 lies between them. *)
Lemma breakpoint_irrelevant (n : Z) :
  (0 <= n <= 255)%Z ->
  Qle_bool (inject_Z n / 255) 0.03928 = Qle_bool (inject_Z n / 255) 0.04045.
Proof.
  intros Hn. unfold Qle_bool, Qdiv. simpl.
  destruct (Z.leb_spec (n * 1 * 100000) (3928 * 255)),
           (Z.leb_spec (n * 1 * 100000) (4045 * 255)); try reflexivity; lia.
Qed.

(** C4.  For two colours of six hex digits the value of [calculateContrast]
    lies in [1, 21]; it is the WCAG ratio
    [(L_lighter + 0.05) / (L_darker + 0.05)] of the two relative luminances
    rounded to a multiple of 1/100 (the nearest one, a tie going up), where a
    relative luminance is [0.2126 R + 0.7152 G + 0.0722 B] over the
    gamma-decoded channels [n / 255]. *)
Theorem calculateContrast_wcag (fg bg : string) :
  hex_digits 6 fg -> hex_digits 6 bg ->
  let r := calculateContrast contrast fg bg in
  exists fgRGB bgRGB,
    Wcag.parseHex ("#" ++ fg) = Some fgRGB
    /\ Wcag.parseHex ("#" ++ bg) = Some bgRGB
    /\ let Lf := lum fgRGB in
       let Lb := lum bgRGB in
       let wcag := (Qmax Lf Lb + 0.05) / (Qmin Lf Lb + 0.05) in
       1 <= r <= 21
       /\ r = inject_Z (JS.Math_round (wcag * 100)) / 100
       /\ r - (1 # 200) <= wcag /\ wcag < r + (1 # 200).
Proof.
  intros Hf Hb r.
  destruct (parseHex_six fg Hf) as (r1 & g1 & b1 & Hp1 & Hr1 & Hg1 & Hb1).
  destruct (parseHex_six bg Hb) as (r2 & g2 & b2 & Hp2 & Hr2 & Hg2 & Hb2).
  exists (r1, g1, b1), (r2, g2, b2).
  split; [exact Hp1 | split; [exact Hp2 |]].
  intros Lf Lb wcag.
  assert (Hr : r = inject_Z (JS.Math_round (wcag * 100)) / 100).
  { subst r wcag Lf Lb. unfold calculateContrast, Wcag.wcagContrast, Wcag.luminanceOf.
    cbv zeta. rewrite Hp1, Hp2. reflexivity. }
  assert (Hrange : 1 <= wcag <= 21).
  { subst wcag Lf Lb. apply ratio_range; apply luminance_unit; assumption. }
  split; [rewrite Hr; apply round2_range; exact Hrange |].
  split; [exact Hr |].
  rewrite Hr. pose proof (Math_round_nearest (wcag * 100)) as [Hlo Hhi].
  set (k := inject_Z (JS.Math_round (wcag * 100))) in *. clearbody k.
  assert (Heq : k / 100 == k * (1 # 100)) by (unfold Qdiv; reflexivity).
  rewrite Heq. split; lra.
Qed.

(** C8.  The contrast ratio is symmetric: exchanging foreground and
    background does not change [calculateContrast].  The two luminances
    enter the formula only through their maximum and minimum, so no
    assumption on the two strings is needed. *)
Theorem calculateContrast_symmetric (a b : string) :
  calculateContrast contrast a b = calculateContrast contrast b a.
Proof.
  unfold calculateContrast, JS.Math_round. cbv zeta. f_equal. f_equal.
  apply Qfloor_comp.
  unfold Wcag.wcagContrast. cbv zeta.
  rewrite (Q.max_comm (Wcag.luminanceOf pow24 ("#" ++ a))).
  rewrite (Q.min_comm (Wcag.luminanceOf pow24 ("#" ++ a))).
  reflexivity.
Qed.

End WcagFacts.

(** ** The lightness search ([suggestions.ts]) *)

Section SearchFacts.

Variable oklch : string -> option Culori.Oklch.
Variable formatHex : Culori.Oklch -> option string.
Variable wcagContrast : string -> string -> Q.

Section Loop.

Variable fg : Culori.Oklch.
Variable bgColor : string.
Variable targetRatio : Q.
Variable shouldDarken : bool.

Local Abbreviation body :=
  (loop_body formatHex wcagContrast fg bgColor targetRatio shouldDarken).
Local Abbreviation loop :=
  (searchLoop formatHex wcagContrast fg bgColor targetRatio shouldDarken).
Local Abbreviation exec :=
  (loop_exec formatHex wcagContrast fg bgColor targetRatio shouldDarken).
Local Abbreviation init := (initialState fg shouldDarken).

(** Every pass through the body counts one iteration. *)
Lemma body_counts (st st' : LoopState) :
  body st = Continue st' \/ body st = Break st' ->
  iterations st' = S (iterations st).
Proof.
  unfold loop_body.
  destruct (formatHex _) as [[| ? ?] |];
    [| destruct (Qgeb _ _) | ]; intros [H | H]; inversion H; reflexivity.
Qed.

(** The loop rule: a property kept by the body under the guard holds when
    the loop is left. *)
Lemma searchLoop_rule (P : LoopState -> Prop) :
  (forall st st', loop_guard st = true ->
                  body st = Continue st' \/ body st = Break st' -> P st -> P st') ->
  forall st, P st -> P (loop st).
Proof.
  intros Hstep st.
  funelim (loop st); intros HP.
  - exact HP.
  - match goal with IH : forall _ : LoopState -> Prop, _ |- _ => apply IH end;
      [exact Hstep |].
    apply (Hstep st); auto.
  - apply (Hstep st); auto.
Qed.

(** The function computes the run of the loop, and the number of passes is
    the growth of the counter. *)
Lemma searchLoop_exec (st : LoopState) :
  exec st (iterations (loop st) - iterations st) (loop st).
Proof.
  funelim (loop st).
  - rewrite Nat.sub_diag. apply exec_exit. assumption.
  - pose proof (body_counts st st' (or_introl Hbody)) as Hcnt.
    assert (Hge : (iterations st' <= iterations (loop st'))%nat).
    { apply (searchLoop_rule (fun s => iterations st' <= iterations s)%nat); [| lia].
      intros s s' _ Hs Hle. rewrite (body_counts s s' Hs). lia. }
    replace (iterations (loop st') - iterations st)%nat
      with (S (iterations (loop st') - iterations st'))%nat by lia.
    eapply exec_next; eauto.
  - pose proof (body_counts st st' (or_intror e)) as Hcnt.
    replace (iterations st' - iterations st)%nat with 1%nat by lia.
    apply exec_break; assumption.
Qed.

(** A run is unique: the relation is a function of the entry state. *)
Lemma loop_exec_deterministic (st : LoopState) (n : nat) (st' : LoopState) :
  exec st n st' -> forall m st2, exec st m st2 -> n = m /\ st' = st2.
Proof.
  induction 1 as [s Hg | s s' Hg Hb | s s' k s'' Hg Hb Hrun IH];
    intros m st2 Hother; inversion Hother; subst; try congruence.
  - auto.
  - split; congruence.
  - match goal with
    | H2 : body s = Continue ?b |- _ => assert (s' = b) by congruence; subst
    end.
    match goal with
    | Hrest : exec _ _ st2 |- _ => destruct (IH _ _ Hrest) as [-> ->]
    end.
    auto.
Qed.

(** The counter never passes [MAX_ITERATIONS]. *)
Lemma searchLoop_bounded (st : LoopState) :
  (iterations st <= MAX_ITERATIONS)%nat ->
  (iterations (loop st) <= MAX_ITERATIONS)%nat.
Proof.
  apply (searchLoop_rule (fun s => iterations s <= MAX_ITERATIONS)%nat).
  intros s s' Hg Hs _. rewrite (body_counts s s' Hs).
  unfold loop_guard in Hg. apply andb_prop in Hg as [Hlt _].
  apply Nat.ltb_lt in Hlt. exact Hlt.
Qed.

(** Why the loop was left: the guard is false, or the body hit [break]. *)
Lemma searchLoop_exit (st : LoopState) :
  loop_guard (loop st) = false
  \/ exists prev, loop_guard prev = true /\ body prev = Break (loop st).
Proof.
  funelim (loop st).
  - left. assumption.
  - assumption.
  - right. exists st. auto.
Qed.

(** With the guard true the midpoint lies strictly between the bounds. *)
Lemma guard_midpoint (st : LoopState) :
  loop_guard st = true ->
  low st < (low st + high st) / 2 /\ (low st + high st) / 2 < high st.
Proof.
  unfold loop_guard, Qgtb, LIGHTNESS_PRECISION. intros Hg.
  apply andb_prop in Hg as [_ Hw]. apply negb_true_iff in Hw.
  assert (Hgt : ~ high st - low st <= 0.001).
  { intros Hle. apply Qle_bool_iff in Hle. congruence. }
  assert (Heq : (low st + high st) / 2 == (low st + high st) * (1 # 2))
    by (unfold Qdiv; reflexivity).
  rewrite Heq. split; lra.
Qed.

Lemma searchLoop_candidate (c : Culori.Oklch) :
  bestColor (loop init) = Some c ->
  candidate_ok formatHex wcagContrast fg bgColor targetRatio shouldDarken c.
Proof.
  unfold candidate_ok.
  remember (low init) as lo0 eqn:Elo. remember (high init) as hi0 eqn:Ehi.
  set (P := fun s : LoopState =>
              lo0 <= low s /\ high s <= hi0
              /\ forall c, bestColor s = Some c ->
                   (exists hx, formatHex c = Some hx /\ JS.truthy (Some hx) = true
                               /\ targetRatio <= wcagContrast hx bgColor)
                   /\ c = Culori.with_l fg (Culori.l c)
                   /\ lo0 < Culori.l c < hi0).
  assert (HP : P (loop init)).
  { apply searchLoop_rule.
    - intros s s' Hg Hs (Hlo & Hhi & Hbest).
      pose proof (guard_midpoint s Hg) as [Hm1 Hm2].
      unfold loop_body in Hs.
      destruct (formatHex (Culori.with_l fg ((low s + high s) / 2)))
        as [[| a hx] |] eqn:Hfmt.
      + destruct Hs as [Hs | Hs]; inversion Hs; subst s'; simpl.
        split; [| split]; auto.
      + destruct (Qgeb (wcagContrast (String a hx) bgColor) targetRatio) eqn:Hge;
          (destruct Hs as [Hs | Hs]; inversion Hs; subst s'; simpl).
        * split; [| split].
          -- destruct shouldDarken; simpl; lra.
          -- destruct shouldDarken; simpl; lra.
          -- intros c' Hc'. inversion Hc'; subst c'. split; [| split].
             ++ exists (String a hx). repeat split; auto.
                apply Qle_bool_iff. exact Hge.
             ++ reflexivity.
             ++ simpl. lra.
        * split; [| split]; [destruct shouldDarken; simpl; lra .. | auto].
      + destruct Hs as [Hs | Hs]; inversion Hs; subst s'; simpl.
        split; [| split]; auto.
    - unfold P. subst lo0 hi0. repeat split; try apply Qle_refl; discriminate. }
  destruct HP as (_ & _ & Hbest). apply Hbest.
Qed.

(** C7.  The loop of [searchLightness] always ends: from the initial state
    it runs its body some [n <= MAX_ITERATIONS = 50] times and leaves; any
    run of the loop is that run.  When it leaves, the counter has reached
    [MAX_ITERATIONS], or the width [high - low] is at most
    [LIGHTNESS_PRECISION = 0.001], or the midpoint colour did not format
    ([break]).  [searchLightness] is the candidate of the final state, so
    [findNearestAccessible], which runs the loop at most twice, returns a
    hex or [null]. *)
Theorem searchLightness_terminates :
  let fin := loop init in
  MAX_ITERATIONS = 50%nat
  /\ LIGHTNESS_PRECISION == 1 # 1000
  /\ (exists n, (n <= MAX_ITERATIONS)%nat /\ iterations fin = n /\ exec init n fin)
  /\ (forall m st', exec init m st' -> (m <= MAX_ITERATIONS)%nat /\ st' = fin)
  /\ (iterations fin = MAX_ITERATIONS
      \/ high fin - low fin <= LIGHTNESS_PRECISION
      \/ JS.truthy (formatHex (Culori.with_l fg ((low fin + high fin) / 2))) = false)
  /\ searchLightness formatHex wcagContrast fg bgColor targetRatio shouldDarken
     = bestColor fin.
Proof.
  intros fin.
  assert (Hbound : (iterations fin <= MAX_ITERATIONS)%nat).
  { apply searchLoop_bounded. simpl. lia. }
  assert (Hrun : exec init (iterations fin) fin).
  { pose proof (searchLoop_exec init) as H. simpl in H.
    rewrite Nat.sub_0_r in H. exact H. }
  split; [reflexivity |]. split; [reflexivity |].
  split; [exists (iterations fin); auto |].
  split.
  { intros m st' Hm.
    destruct (loop_exec_deterministic _ _ _ Hm _ _ Hrun) as [-> ->]. auto. }
  split; [| reflexivity].
  pose proof (searchLoop_exit init) as Hexit. fold fin in Hexit.
  destruct Hexit as [Hg | (prev & Hg & Hb)].
  - unfold loop_guard in Hg. apply andb_false_iff in Hg as [Hit | Hw].
    + left. apply Nat.ltb_ge in Hit. lia.
    + right; left. unfold Qgtb in Hw. apply negb_false_iff in Hw.
      apply Qle_bool_iff. exact Hw.
  - right; right. unfold loop_body in Hb.
    destruct (formatHex (Culori.with_l fg ((low prev + high prev) / 2)))
      as [[| a hx] |] eqn:Hfmt.
    + inversion Hb as [Hfin]. simpl. rewrite Hfmt. reflexivity.
    + destruct (Qgeb _ _); discriminate.
    + inversion Hb as [Hfin]. simpl. rewrite Hfmt. reflexivity.
Qed.

End Loop.

Local Abbreviation fix_of := (findNearestAccessible oklch formatHex wcagContrast).
Local Abbreviation search := (searchLightness formatHex wcagContrast).
Local Abbreviation to_hex := (resultHex formatHex).

(** The shape of [findNearestAccessible] on a pair that does not pass yet. *)
Lemma findNearestAccessible_failing (fgHex bgHex : string) (target : Q) (f : Culori.Oklch) :
  oklch ("#" ++ fgHex) = Some f ->
  Qgeb (wcagContrast ("#" ++ fgHex) ("#" ++ bgHex)) target = false ->
  let bgLightness :=
    match oklch ("#" ++ bgHex) with Some b => Culori.l b | None => 0.5 end in
  let shouldDarken := Qgtb (Culori.l f) bgLightness in
  fix_of fgHex bgHex target =
    match search f ("#" ++ bgHex) target shouldDarken with
    | Some c => to_hex c
    | None =>
        match search f ("#" ++ bgHex) target (negb shouldDarken) with
        | Some c => to_hex c
        | None => None
        end
    end.
Proof.
  intros Hf Hfail bgL sd. unfold findNearestAccessible.
  rewrite Hf, Hfail. fold bgL. fold sd.
  destruct (search f ("#" ++ bgHex) target sd); reflexivity.
Qed.

(** C6.  On a failing pair the first search darkens exactly when the
    foreground lightness is strictly greater than the background lightness
    and lightens otherwise; a candidate of the first search is the result,
    and the opposite search decides the result only when the first search
    has no candidate.  A darkening search only yields a lightness strictly
    between 0 and the foreground's, a lightening search one strictly between
    the foreground's and 1. *)
Theorem search_direction_rule
    (fgHex bgHex : string) (target : Q) (f : Culori.Oklch) :
  oklch ("#" ++ fgHex) = Some f ->
  Qgeb (wcagContrast ("#" ++ fgHex) ("#" ++ bgHex)) target = false ->
  let bgColor := "#" ++ bgHex in
  let bgLightness := match oklch bgColor with Some b => Culori.l b | None => 0.5 end in
  let darkenFirst := Qgtb (Culori.l f) bgLightness in
  (darkenFirst = true <-> bgLightness < Culori.l f)
  /\ (darkenFirst = false <-> Culori.l f <= bgLightness)
  /\ (forall c, search f bgColor target darkenFirst = Some c ->
        fix_of fgHex bgHex target = to_hex c)
  /\ (search f bgColor target darkenFirst = None ->
        fix_of fgHex bgHex target =
          match search f bgColor target (negb darkenFirst) with
          | Some c => to_hex c
          | None => None
          end)
  /\ (low (initialState f true) = 0 /\ high (initialState f true) = Culori.l f)
  /\ (low (initialState f false) = Culori.l f /\ high (initialState f false) = 1)
  /\ (forall c, search f bgColor target true = Some c -> 0 < Culori.l c < Culori.l f)
  /\ (forall c, search f bgColor target false = Some c -> Culori.l f < Culori.l c < 1).
Proof.
  intros Hf Hfail bgColor bgL sd.
  pose proof (findNearestAccessible_failing fgHex bgHex target f Hf Hfail) as Hshape.
  cbv zeta in Hshape. fold bgColor bgL sd in Hshape.
  assert (Hsd : sd = true <-> bgL < Culori.l f).
  { unfold sd, Qgtb. rewrite negb_true_iff. split.
    - intros Hb. apply Qnot_le_lt. intros Hle.
      apply Qle_bool_iff in Hle. congruence.
    - intros Hlt. destruct (Qle_bool (Culori.l f) bgL) eqn:E; [| reflexivity].
      apply Qle_bool_iff in E. lra. }
  split; [exact Hsd |].
  split.
  { rewrite <- not_true_iff_false, Hsd. split.
    - apply Qnot_lt_le.
    - intros Hle Hlt. lra. }
  split.
  { intros c Hc. rewrite Hshape, Hc. reflexivity. }
  split.
  { intros Hnone. rewrite Hshape, Hnone. reflexivity. }
  split; [split; reflexivity |].
  split; [split; reflexivity |].
  split; intros c Hc;
    apply (searchLoop_candidate f bgColor target) in Hc as (_ & _ & Hrange);
    exact Hrange.
Qed.

(** C2, as the code has it.  The test of the no-op is on the contrast as
    the library returns it, not on the ratio rounded to two decimals: when
    a normalised foreground parses and that contrast already reaches the
    target, the search returns the normalised form of the foreground, which
    is the foreground itself. *)
Theorem fix_noop_returns_input
    (fgHex bgHex : string) (target : Q) (f : Culori.Oklch) :
  Utils.normalized fgHex ->
  oklch ("#" ++ fgHex) = Some f ->
  target <= wcagContrast ("#" ++ fgHex) ("#" ++ bgHex) ->
  fix_of fgHex bgHex target = Utils.normalizeHex fgHex
  /\ Utils.normalizeHex fgHex = Some fgHex.
Proof.
  intros Hn Hf Hpass.
  assert (Hres : fix_of fgHex bgHex target = Some fgHex).
  { unfold findNearestAccessible. rewrite Hf.
    apply Qle_bool_iff in Hpass. unfold Qgeb. rewrite Hpass. reflexivity. }
  pose proof (normalized_fixed fgHex Hn) as Hfixed.
  split; [rewrite Hres; symmetry; exact Hfixed | exact Hfixed].
Qed.

Section Validity.

(** Two facts about the library: a colour is formatted as a ['#'] followed
    by digits, and reading a colour does not depend on the case of its
    digits. *)
Hypothesis formatHex_hash :
  forall c hx, formatHex c = Some hx -> JS.truthy (Some hx) = true ->
               exists d, hx = String "#" d.
Hypothesis wcagContrast_case :
  forall d b, wcagContrast ("#" ++ JS.toUpperCase d) b == wcagContrast ("#" ++ d) b.

(** The hex returned for a candidate measures the same contrast as the
    string the loop tested. *)
Lemma resultHex_contrast (fg : Culori.Oklch) (bgColor : string) (target : Q)
    (sd : bool) (c : Culori.Oklch) (r : string) :
  candidate_ok formatHex wcagContrast fg bgColor target sd c ->
  to_hex c = Some r ->
  target <= wcagContrast ("#" ++ r) bgColor.
Proof.
  intros ((hx & Hfmt & Htruthy & Hge) & _) Hr.
  unfold resultHex in Hr. rewrite Hfmt, Htruthy in Hr. simpl in Hr.
  destruct (formatHex_hash c hx Hfmt Htruthy) as (d & ->).
  inversion Hr; subst r. simpl JS.replaceHash.
  rewrite wcagContrast_case. exact Hge.
Qed.

(** C1.  Whenever [findNearestAccessible] returns a hex, the contrast of
    that hex against the background is at least the target.  The ratio
    rounded to two decimals by [calculateContrast] is then above the target
    less 0.005, and at least the target when the target is itself a
    multiple of 1/100 (as 4.5 and 7 are). *)
Theorem fix_validity (fgHex bgHex : string) (target : Q) (r : string) :
  fix_of fgHex bgHex target = Some r ->
  target <= wcagContrast ("#" ++ r) ("#" ++ bgHex)
  /\ target - (1 # 200) < calculateContrast wcagContrast r bgHex
  /\ (forall k : Z, target == inject_Z k / 100 ->
        target <= calculateContrast wcagContrast r bgHex).
Proof.
  intros Hfix.
  assert (Hraw : target <= wcagContrast ("#" ++ r) ("#" ++ bgHex)).
  { destruct (oklch ("#" ++ fgHex)) as [f |] eqn:Hf;
      [| unfold findNearestAccessible in Hfix; rewrite Hf in Hfix; discriminate].
    destruct (Qgeb (wcagContrast ("#" ++ fgHex) ("#" ++ bgHex)) target) eqn:Hpass.
    - unfold findNearestAccessible in Hfix. rewrite Hf, Hpass in Hfix.
      inversion Hfix; subst r. apply Qle_bool_iff. exact Hpass.
    - rewrite (findNearestAccessible_failing fgHex bgHex target f Hf Hpass) in Hfix.
      cbv zeta in Hfix.
      match type of Hfix with
      | match search f ?b target ?sd with _ => _ end = _ =>
          destruct (search f b target sd) as [c |] eqn:H1;
          [| destruct (search f b target (negb sd)) as [c |] eqn:H2;
             [| discriminate]]
      end;
      eapply resultHex_contrast; eauto; eapply searchLoop_candidate; eauto. }
  split; [exact Hraw |].
  unfold calculateContrast. cbv zeta.
  set (x := wcagContrast ("#" ++ r) ("#" ++ bgHex)) in *.
  pose proof (Math_round_nearest (x * 100)) as [Hlo Hhi].
  split.
  - set (k := inject_Z (JS.Math_round (x * 100))) in *. clearbody k.
    assert (Heq : k / 100 == k * (1 # 100)) by (unfold Qdiv; reflexivity).
    rewrite Heq. lra.
  - intros k Hk.
    assert (Hle : (k <= JS.Math_round (x * 100))%Z).
    { pose proof (Math_round_mono (inject_Z k) (x * 100)) as Hm.
      rewrite Math_round_Z in Hm. apply Hm.
      assert (Heq : inject_Z k / 100 == inject_Z k * (1 # 100))
        by (unfold Qdiv; reflexivity).
      rewrite Heq in Hk. set (q := inject_Z k) in *. clearbody q. lra. }
    rewrite Zle_Qle in Hle.
    set (q := inject_Z k) in *. set (m := inject_Z (JS.Math_round (x * 100))) in *.
    clearbody q m.
    assert (Heq1 : q / 100 == q * (1 # 100)) by (unfold Qdiv; reflexivity).
    assert (Heq2 : m / 100 == m * (1 # 100)) by (unfold Qdiv; reflexivity).
    rewrite Hk, Heq1, Heq2. lra.
Qed.

End Validity.

End SearchFacts.

(* ================================================================== *)
(** * The engine on concrete colours                                   *)
(* ================================================================== *)

Section DemoFacts.

Lemma root5_range (t : Q) (fuel : nat) :
  forall lo hi, (lo <= hi)%Z -> (lo <= Demo.root5 fuel lo hi t <= hi)%Z.
Proof.
  induction fuel as [| k IH]; intros lo hi Hle; simpl; [lia |].
  assert (Hmid : (lo <= (lo + hi) / 2 <= hi)%Z).
  { split; [apply Z.div_le_lower_bound | apply Z.div_le_upper_bound]; lia. }
  destruct ((lo + hi) / 2 =? lo)%Z; [lia |].
  destruct (Qle_bool _ t).
  - specialize (IH ((lo + hi) / 2)%Z hi). lia.
  - specialize (IH lo ((lo + hi) / 2)%Z). lia.
Qed.

Lemma Demo_pow24_unit (x : Q) : 0 <= x <= 1 -> 0 <= Demo.pow24 x <= 1.
Proof.
  intros _. unfold Demo.pow24.
  destruct (Qle_bool x 0); [split; discriminate |].
  destruct (Qle_bool 1 x); [split; discriminate |].
  assert (Hr : (0 <= Demo.root5 40 0 1000000000 (x ^ 12) <= 1000000000)%Z)
    by (apply root5_range; discriminate).
  set (r := Demo.root5 40 0 1000000000 (x ^ 12)) in *. clearbody r.
  unfold Qle. simpl. lia.
Qed.

Lemma hexValue_upper (ch : ascii) : Wcag.hexValue (JS.upper_ascii ch) = Wcag.hexValue ch.
Proof.
  destruct ch as [[|] [|] [|] [|] [|] [|] [|] [|]]; vm_compute; reflexivity.
Qed.

Lemma hexValues_upper (d : string) : Wcag.hexValues (JS.toUpperCase d) = Wcag.hexValues d.
Proof.
  induction d as [| ch d IH]; simpl; [reflexivity |].
  rewrite hexValue_upper, IH. reflexivity.
Qed.

(** The formula reads a colour without regard to the case of its digits. *)
Lemma wcag_formula_case (pow24 : Q -> Q) (d b : string) :
  Wcag.wcagContrast pow24 ("#" ++ JS.toUpperCase d) b
  == Wcag.wcagContrast pow24 ("#" ++ d) b.
Proof.
  unfold Wcag.wcagContrast, Wcag.luminanceOf, Wcag.parseHex. simpl.
  rewrite hexValues_upper. reflexivity.
Qed.

Lemma Demo_formatHex_hash (c : Culori.Oklch) (hx : string) :
  Demo.formatHex c = Some hx -> JS.truthy (Some hx) = true ->
  exists d, hx = String "#" d.
Proof.
  unfold Demo.formatHex. intros H _. inversion H. eexists. reflexivity.
Qed.

End DemoFacts.

(** The scenarios of the specification, with the demo library. *)

Example ratio_black_white : Demo.calculateContrast "000000" "FFFFFF" == 21.
Proof. apply Qeq_bool_iff. vm_compute. reflexivity. Qed.

Example ratio_identity : Demo.calculateContrast "FF0000" "FF0000" == 1.
Proof. apply Qeq_bool_iff. vm_compute. reflexivity. Qed.

Example ratio_boundary_grey : Demo.calculateContrast "767676" "FFFFFF" == 4.54.
Proof. apply Qeq_bool_iff. vm_compute. reflexivity. Qed.

Example fix_unreachable : Demo.findNearestAccessible "808080" "7F7F7F" 21 = None.
Proof. vm_compute. reflexivity. Qed.

(** C1, on the grey [D1D5DB] over white at 4.5: the search returns
    [767676], whose contrast with white reaches 4.5. *)
Lemma fix_validity_witness :
  Demo.findNearestAccessible "D1D5DB" "FFFFFF" 4.5 = Some "767676"
  /\ 4.5 <= Demo.wcagContrast "#767676" "#FFFFFF"
  /\ 4.5 <= Demo.calculateContrast "767676" "FFFFFF".
Proof.
  assert (H : findNearestAccessible Demo.oklch Demo.formatHex Demo.wcagContrast
                "D1D5DB" "FFFFFF" 4.5 = Some "767676")
    by (vm_compute; reflexivity).
  pose proof (fix_validity Demo.oklch Demo.formatHex Demo.wcagContrast
                Demo_formatHex_hash (wcag_formula_case Demo.pow24)
                "D1D5DB" "FFFFFF" 4.5 "767676" H) as (Hraw & _ & Hround).
  split; [exact H |]. split; [exact Hraw |].
  apply (Hround 450%Z). reflexivity.
Defined.

(** The no-op path returns its argument as it is.  A lower-case hex, which
    the documentation of the function does not exclude, comes back in lower
    case, where the function promises a normalised hex and its search path
    upper-cases. *)
Example fix_noop_lower_case :
  Utils.isValidHex "ffffff" = true
  /\ Demo.findNearestAccessible "ffffff" "000000" 4.5 = Some "ffffff"
  /\ Utils.normalizeHex "ffffff" = Some "FFFFFF".
Proof.
  split; [reflexivity |].
  split; [vm_compute; reflexivity | reflexivity].
Qed.

(** C2, on white over black. *)
Lemma fix_noop_returns_input_witness :
  Utils.normalized "FFFFFF"
  /\ Demo.oklch "#FFFFFF" <> None
  /\ 4.5 <= Demo.wcagContrast "#FFFFFF" "#000000"
  /\ Demo.findNearestAccessible "FFFFFF" "000000" 4.5 = Utils.normalizeHex "FFFFFF".
Proof.
  assert (Hn : Utils.normalized "FFFFFF") by (split; reflexivity).
  assert (Hf : Demo.oklch ("#" ++ "FFFFFF")
               = Some {| Culori.l := 765 # 765; Culori.c := 0;
                         Culori.h := None; Culori.alpha := None |})
    by (vm_compute; reflexivity).
  assert (Hp : 4.5 <= Demo.wcagContrast ("#" ++ "FFFFFF") ("#" ++ "000000"))
    by (apply Qle_bool_iff; vm_compute; reflexivity).
  destruct (fix_noop_returns_input Demo.oklch Demo.formatHex Demo.wcagContrast
              "FFFFFF" "000000" 4.5 _ Hn Hf Hp) as [Hres _].
  split; [exact Hn |].
  split; [vm_compute; discriminate |].
  split; [exact Hp | exact Hres].
Defined.

(** C3, on three pairs: [D1D5DB] over white misses 4.5 and gets the search;
    black over white reaches it and gets none; a pair with one id gets
    none, although its hex values are those of the first pair. *)
Lemma suggestedFix_rule_witness :
  Demo.calculateContrast "D1D5DB" "FFFFFF" < 4.5
  /\ "a" <> "b"
  /\ suggestedFix (calculateContrastResult Demo.oklch Demo.formatHex Demo.wcagContrast
                     "a" "D1D5DB" "b" "FFFFFF" AA)
     = findNearestAccessible Demo.oklch Demo.formatHex Demo.wcagContrast
         "D1D5DB" "FFFFFF" 4.5
  /\ 4.5 <= Demo.calculateContrast "000000" "FFFFFF"
  /\ suggestedFix (calculateContrastResult Demo.oklch Demo.formatHex Demo.wcagContrast
                     "a" "000000" "b" "FFFFFF" AA) = None
  /\ suggestedFix (calculateContrastResult Demo.oklch Demo.formatHex Demo.wcagContrast
                     "a" "D1D5DB" "a" "FFFFFF" AA) = None.
Proof.
  assert (Hlow : calculateContrast Demo.wcagContrast "D1D5DB" "FFFFFF" < 4.5)
    by (apply Qlt_alt; vm_compute; reflexivity).
  assert (Hhigh : 4.5 <= calculateContrast Demo.wcagContrast "000000" "FFFFFF")
    by (apply Qle_bool_iff; vm_compute; reflexivity).
  assert (Hne : "a" <> "b") by discriminate.
  pose proof (suggestedFix_rule Demo.oklch Demo.formatHex Demo.wcagContrast
                "a" "D1D5DB" "b" "FFFFFF" AA) as H1.
  pose proof (suggestedFix_rule Demo.oklch Demo.formatHex Demo.wcagContrast
                "a" "000000" "b" "FFFFFF" AA) as H2.
  pose proof (suggestedFix_rule Demo.oklch Demo.formatHex Demo.wcagContrast
                "a" "D1D5DB" "a" "FFFFFF" AA) as H3.
  cbv zeta in H1, H2, H3.
  destruct H1 as (_ & _ & _ & _ & _ & _ & _ & Hfail & _).
  destruct H2 as (_ & _ & _ & _ & _ & _ & _ & _ & Hpass & _).
  destruct H3 as (_ & _ & _ & _ & _ & _ & _ & _ & _ & Hsame & _).
  split; [exact Hlow |]. split; [exact Hne |].
  split; [exact (proj2 (Hfail Hlow Hne)) |].
  split; [exact Hhigh |].
  split; [exact (proj2 (Hpass Hhigh)) | exact (Hsame eq_refl)].
Defined.

Lemma calculateContrast_wcag_witness :
  Utils.hex_digits 6 "767676" /\ Utils.hex_digits 6 "FFFFFF"
  /\ 1 <= Demo.calculateContrast "767676" "FFFFFF" <= 21.
Proof.
  assert (H1 : Utils.hex_digits 6 "767676") by (split; reflexivity).
  assert (H2 : Utils.hex_digits 6 "FFFFFF") by (split; reflexivity).
  destruct (calculateContrast_wcag Demo.pow24 Demo_pow24_unit "767676" "FFFFFF" H1 H2)
    as (fgRGB & bgRGB & _ & _ & Hrange & _).
  split; [exact H1 |]. split; [exact H2 |]. exact Hrange.
Defined.

(** C5 fails as stated, with the percentage of exact arithmetic.  Of 40
    counted results 23 pass: [23 / 40] is not a double, the double nearest
    to it times 100 is just below 57.5, and the code returns 57, where
    [round (23 / 40 * 100)] is 58. *)
Lemma percentage_not_exact :
  let cell := fun pass : bool =>
    {| foregroundId := "a"; backgroundId := "b";
       ratio := if pass then 21 else 1; apcaValue := None;
       passesAA := pass; passesAAA := pass; passesAALarge := pass;
       passesUIComponent := pass; suggestedFix := None |} in
  let s := getContrastSummary (repeat (cell true) 23 ++ repeat (cell false) 17) AA in
  total s = 40%Z /\ passing s = 23%Z
  /\ percentage s = 57%Z
  /\ JS.Math_round (inject_Z (passing s) / inject_Z (total s) * 100) = 58%Z
  /\ percentage s <> JS.Math_round (inject_Z (passing s) / inject_Z (total s) * 100).
Proof.
  intros cell s.
  split; [vm_compute; reflexivity |].
  split; [vm_compute; reflexivity |].
  split; [vm_compute; reflexivity |].
  split; [vm_compute; reflexivity |].
  vm_compute. discriminate.
Defined.

(** C5, on three colours. *)
Lemma matrix_and_summary_cardinalities_witness :
  let colors := [mkColor "a" "000000"; mkColor "b" "FFFFFF"; mkColor "c" "767676"] in
  let s := getContrastSummary
             (generateContrastMatrix Demo.oklch Demo.formatHex Demo.wcagContrast colors AA)
             AA in
  NoDup (map id colors)
  /\ (List.length colors <= 12)%nat
  /\ total s = 6%Z
  /\ percentage s = JS.Math_round (inject_Z (passing s) / inject_Z (total s) * 100).
Proof.
  intros colors s.
  assert (Hnd : NoDup (map id colors)).
  { repeat constructor; simpl; intuition discriminate. }
  assert (Hlen : (List.length colors <= 12)%nat) by (simpl; lia).
  pose proof (matrix_and_summary_cardinalities Demo.oklch Demo.formatHex
                Demo.wcagContrast colors AA AA []) as H.
  cbv zeta in H.
  destruct H as (_ & _ & Htotal & _ & _ & _ & _ & _ & Hexact).
  split; [exact Hnd |]. split; [exact Hlen |].
  split; [exact (Htotal Hnd) | exact (Hexact Hnd Hlen)].
Defined.

Lemma search_direction_rule_witness :
  let f := {| Culori.l := 384 # 765; Culori.c := 0;
              Culori.h := None; Culori.alpha := None |} in
  Demo.oklch "#808080" = Some f
  /\ Qgeb (Demo.wcagContrast "#808080" "#7F7F7F") 3 = false
  /\ exists c,
       searchLightness Demo.formatHex Demo.wcagContrast f "#7F7F7F" 3 true = Some c
       /\ Demo.findNearestAccessible "808080" "7F7F7F" 3 = resultHex Demo.formatHex c
       /\ 0 < Culori.l c < Culori.l f.
Proof.
  intros f.
  assert (Hf : Demo.oklch ("#" ++ "808080") = Some f) by (vm_compute; reflexivity).
  assert (Hfail : Qgeb (Demo.wcagContrast ("#" ++ "808080") ("#" ++ "7F7F7F")) 3 = false)
    by (vm_compute; reflexivity).
  pose proof (search_direction_rule Demo.oklch Demo.formatHex Demo.wcagContrast
                "808080" "7F7F7F" 3 f Hf Hfail) as H.
  cbv zeta in H. destruct H as (_ & _ & Hfirst & _ & _ & _ & Hdark & _).
  change (Qgtb (Culori.l f)
            match Demo.oklch ("#" ++ "7F7F7F") with
            | Some b => Culori.l b
            | None => 0.5
            end) with true in Hfirst.
  split; [exact Hf |]. split; [exact Hfail |].
  change ("#" ++ "7F7F7F") with "#7F7F7F" in Hfirst, Hdark.
  assert (Hsome : searchLightness Demo.formatHex Demo.wcagContrast f "#7F7F7F" 3 true
                  <> None) by (vm_compute; discriminate).
  destruct (searchLightness Demo.formatHex Demo.wcagContrast f "#7F7F7F" 3 true)
    as [c |]; [| contradiction].
  exists c. split; [reflexivity |].
  split; [apply Hfirst | apply Hdark]; reflexivity.
Defined.

Lemma searchLightness_terminates_witness :
  let f := {| Culori.l := 641 # 765; Culori.c := 0;
              Culori.h := None; Culori.alpha := None |} in
  exists n, (n <= 50)%nat
            /\ loop_exec Demo.formatHex Demo.wcagContrast f "#FFFFFF" 4.5 true
                 (initialState f true) n
                 (searchLoop Demo.formatHex Demo.wcagContrast f "#FFFFFF" 4.5 true
                    (initialState f true)).
Proof.
  intros f.
  destruct (searchLightness_terminates Demo.formatHex Demo.wcagContrast
              f "#FFFFFF" 4.5 true) as (_ & _ & (n & Hn & _ & Hrun) & _).
  exists n. split; [exact Hn | exact Hrun].
Defined.

Lemma normalizeHex_spec_witness :
  Utils.hex_digits 3 "abc" /\ Utils.normalizeHex "#abc" = Some "AABBCC".
Proof.
  assert (Hd : Utils.hex_digits 3 "abc") by (split; reflexivity).
  destruct (normalizeHex_spec "#abc") as (_ & Hthree & _).
  split; [exact Hd |].
  exact (Hthree "abc" Hd (or_intror eq_refl)).
Defined.

Lemma normalizeHex_closure_witness :
  Utils.normalizeHex "#abc" = Some "AABBCC"
  /\ Utils.isValidHex "AABBCC" = true
  /\ Utils.normalizeHex "AABBCC" = Some "AABBCC".
Proof.
  assert (H : Utils.normalizeHex "#abc" = Some "AABBCC") by reflexivity.
  split; [exact H |].
  exact (normalizeHex_closure "#abc" "AABBCC" H).
Defined.

(* ================================================================== *)
(** * Further properties of the code                                   *)
(* ================================================================== *)

(** ** Display form of a hex ([utils.ts]) *)

Section DisplayFacts.
Import Utils.

Lemma upper_ascii_idem (ch : ascii) : JS.upper_ascii (JS.upper_ascii ch) = JS.upper_ascii ch.
Proof. destruct ch as [[|] [|] [|] [|] [|] [|] [|] [|]]; vm_compute; reflexivity. Qed.

Lemma upper_ascii_hash (ch : ascii) :
  Ascii.eqb (JS.upper_ascii ch) "#" = Ascii.eqb ch "#".
Proof. destruct ch as [[|] [|] [|] [|] [|] [|] [|] [|]]; vm_compute; reflexivity. Qed.

Lemma isHexDigit_upper (ch : ascii) : isHexDigit (JS.upper_ascii ch) = isHexDigit ch.
Proof. destruct ch as [[|] [|] [|] [|] [|] [|] [|] [|]]; vm_compute; reflexivity. Qed.

Lemma toUpperCase_idem (s : string) : JS.toUpperCase (JS.toUpperCase s) = JS.toUpperCase s.
Proof. induction s; simpl; [| rewrite upper_ascii_idem, IHs]; reflexivity. Qed.

Lemma all_hex_upper (s : string) : all_hex (JS.toUpperCase s) = all_hex s.
Proof. induction s; simpl; [| rewrite isHexDigit_upper, IHs]; reflexivity. Qed.

Lemma double_chars_upper (s : string) :
  double_chars (JS.toUpperCase s) = JS.toUpperCase (double_chars s).
Proof. induction s; simpl; [| rewrite IHs]; reflexivity. Qed.

Lemma startsWithHash_upper (s : string) :
  JS.startsWithHash (JS.toUpperCase s) = JS.startsWithHash s.
Proof. destruct s; simpl; [reflexivity | apply upper_ascii_hash]. Qed.

Lemma hex_digits_upper (n : nat) (d : string) :
  hex_digits n (JS.toUpperCase d) <-> hex_digits n d.
Proof.
  unfold hex_digits. rewrite length_toUpperCase, all_hex_upper. reflexivity.
Qed.

(** The display form is in the pattern exactly when the string is. *)
Lemma formatHexForDisplay_shape (s : string) :
  hex_shape (formatHexForDisplay s) <-> hex_shape s.
Proof.
  unfold formatHexForDisplay. rewrite startsWithHash_upper.
  destruct s as [| ch s']; simpl.
  - split; intros (d & [Hs | Hs] & [[Hl Ha] | [Hl Ha]]); subst; try discriminate;
      inversion Hs; subst; discriminate.
  - destruct (Ascii.eqb ch "#") eqn:Ech.
    + apply Ascii.eqb_eq in Ech. subst ch.
      change (JS.upper_ascii "#") with "#"%char.
      split; intros (d & [Hs | Hs] & Hd).
      * subst d. exfalso. destruct Hd as [Hd | Hd];
          pose proof (digits_no_hash _ _ Hd) as E; simpl in E; discriminate E.
      * inversion Hs; subst d. exists s'. split; [right; reflexivity |].
        destruct Hd as [Hd | Hd]; apply (proj1 (hex_digits_upper _ _)) in Hd;
          [left | right]; exact Hd.
      * subst d. exfalso. destruct Hd as [Hd | Hd];
          pose proof (digits_no_hash _ _ Hd) as E; simpl in E; discriminate E.
      * inversion Hs; subst d. exists (JS.toUpperCase s'). split; [right; reflexivity |].
        destruct Hd as [Hd | Hd]; [left | right]; apply hex_digits_upper; exact Hd.
    + split; intros (d & [Hs | Hs] & Hd).
      * subst d. exfalso. destruct Hd as [Hd | Hd];
          pose proof (digits_no_hash _ _ Hd) as E; simpl in E; discriminate E.
      * inversion Hs; subst d. exists (String ch s'). split; [left; reflexivity |].
        change (String (JS.upper_ascii ch) (JS.toUpperCase s'))
          with (JS.toUpperCase (String ch s')) in Hd.
        destruct Hd as [Hd | Hd]; apply (proj1 (hex_digits_upper _ _)) in Hd;
          [left | right]; exact Hd.
      * subst d. exists (JS.toUpperCase (String ch s')).
        split; [right; reflexivity |].
        destruct Hd as [Hd | Hd]; [left | right]; apply hex_digits_upper; exact Hd.
      * inversion Hs; subst. rewrite Ascii.eqb_refl in Ech. discriminate.
Qed.

(** X1.  Showing a value and reading it back is normalising it:
    [parseHexInput (formatHexForDisplay s)] is [normalizeHex s] for every
    string of ASCII characters, valid or not.  The display form starts with
    ['#'] and formatting it again changes nothing.  (Outside ASCII the
    upper-casing of JavaScript can create hex digits, as for U+FB00, and the
    property is not claimed.) *)
Theorem display_roundtrip (s : string) :
  JS.isAscii s = true ->
  parseHexInput (formatHexForDisplay s) = normalizeHex s
  /\ JS.startsWithHash (formatHexForDisplay s) = true
  /\ formatHexForDisplay (formatHexForDisplay s) = formatHexForDisplay s.
Proof.
  intros _.
  split; [| split].
  - unfold parseHexInput.
    destruct (isValidHex s) eqn:Hv.
    + apply isValidHex_shape in Hv as (d & Hs & Hd).
      rewrite (normalizeHex_digits d s Hs Hd).
      assert (Hd' : hex_digits 3 (JS.toUpperCase d) \/ hex_digits 6 (JS.toUpperCase d)).
      { destruct Hd as [Hd | Hd]; [left | right]; apply hex_digits_upper; exact Hd. }
      assert (Hfmt : formatHexForDisplay s = String "#" (JS.toUpperCase d)).
      { unfold formatHexForDisplay. destruct Hs as [-> | ->].
        - assert (Hno : JS.startsWithHash (JS.toUpperCase d) = false).
          { destruct Hd' as [H | H]; exact (digits_no_hash _ _ H). }
          rewrite Hno. reflexivity.
        - reflexivity. }
      rewrite Hfmt.
      rewrite (normalizeHex_digits (JS.toUpperCase d) _ (or_intror eq_refl) Hd').
      rewrite length_toUpperCase, double_chars_upper.
      destruct (String.length d =? 3)%nat; rewrite toUpperCase_idem; reflexivity.
    + assert (Hn : normalizeHex s = None) by (unfold normalizeHex; rewrite Hv; reflexivity).
      rewrite Hn. unfold normalizeHex.
      destruct (isValidHex (formatHexForDisplay s)) eqn:Hv'; [| reflexivity].
      apply (proj1 (isValidHex_shape _)) in Hv'.
      apply (proj1 (formatHexForDisplay_shape s)) in Hv'.
      apply (proj2 (isValidHex_shape s)) in Hv'. congruence.
  - unfold formatHexForDisplay.
    destruct (JS.startsWithHash (JS.toUpperCase s)) eqn:E; [exact E | reflexivity].
  - unfold formatHexForDisplay.
    destruct (JS.startsWithHash (JS.toUpperCase s)) eqn:E.
    + rewrite toUpperCase_idem, E. reflexivity.
    + change (JS.toUpperCase ("#" ++ JS.toUpperCase s))
        with (String "#" (JS.toUpperCase (JS.toUpperCase s))).
      rewrite toUpperCase_idem. reflexivity.
Qed.

End DisplayFacts.

(** ** Thresholds, lookup and summary ([contrast.ts]) *)

Section MatrixFacts.

Variable oklch : string -> option Culori.Oklch.
Variable formatHex : Culori.Oklch -> option string.
Variable wcagContrast : string -> string -> Q.

Local Abbreviation result_of := (calculateContrastResult oklch formatHex wcagContrast).
Local Abbreviation matrix_of := (generateContrastMatrix oklch formatHex wcagContrast).

Lemma Qgeb_trans_threshold (x lo hi : Q) :
  lo <= hi -> Qgeb x hi = true -> Qgeb x lo = true.
Proof.
  unfold Qgeb. intros Hle Hhi. apply Qle_bool_iff in Hhi. apply Qle_bool_iff. lra.
Qed.

(** X2.  The four flags are ordered by their thresholds: a ratio passing
    AAA passes AA, a ratio passing AA passes AA-large, and the UI-component
    flag is the AA-large flag. *)
Theorem evaluateContrastRatio_ordered (ratio : Q) :
  let e := evaluateContrastRatio ratio in
  implb (ev_passesAAA e) (ev_passesAA e) = true
  /\ implb (ev_passesAA e) (ev_passesAALarge e) = true
  /\ ev_passesUIComponent e = ev_passesAALarge e.
Proof.
  simpl. repeat split.
  - destruct (Qgeb ratio CONTRAST_THRESHOLDS.AAA_NORMAL) eqn:E; [| reflexivity].
    simpl. apply (Qgeb_trans_threshold ratio _ _) with (2 := E).
    unfold CONTRAST_THRESHOLDS.AA_NORMAL, CONTRAST_THRESHOLDS.AAA_NORMAL. lra.
  - destruct (Qgeb ratio CONTRAST_THRESHOLDS.AA_NORMAL) eqn:E; [| reflexivity].
    simpl. apply (Qgeb_trans_threshold ratio _ _) with (2 := E).
    unfold CONTRAST_THRESHOLDS.AA_NORMAL, CONTRAST_THRESHOLDS.AA_LARGE. lra.
Qed.

(** Every result of the matrix is the result of a pair of its colours. *)
Lemma matrix_members (colors : list ColorEntry) (level : TargetLevel) (r : ContrastResult) :
  In r (matrix_of colors level) ->
  exists f b, In f colors /\ In b colors
              /\ r = result_of (id f) (hex f) (id b) (hex b) level.
Proof.
  unfold generateContrastMatrix. intros Hin.
  apply in_flat_map in Hin as (f & Hf & Hin).
  apply in_map_iff in Hin as (b & <- & Hb).
  exists f, b. auto.
Qed.

Lemma same_id_same_entry (colors : list ColorEntry) (a b : ColorEntry) :
  NoDup (map id colors) -> In a colors -> In b colors -> id a = id b -> a = b.
Proof.
  induction colors as [| x xs IH]; simpl; intros Hnd Ha Hb Hid; [contradiction |].
  inversion Hnd as [| ? ? Hnotin Hnd']; subst.
  destruct Ha as [-> | Ha], Hb as [-> | Hb]; auto.
  - exfalso. apply Hnotin. rewrite Hid. apply in_map. exact Hb.
  - exfalso. apply Hnotin. rewrite <- Hid. apply in_map. exact Ha.
Qed.

Lemma find_app_split {A : Type} (p : A -> bool) (xs ys : list A) :
  find p (xs ++ ys) = match find p xs with Some x => Some x | None => find p ys end.
Proof.
  induction xs as [| x xs IH]; simpl; [reflexivity |].
  destruct (p x); [reflexivity | exact IH].
Qed.

Lemma find_none_all {A : Type} (p : A -> bool) (xs : list A) :
  (forall x, In x xs -> p x = false) -> find p xs = None.
Proof.
  induction xs as [| x xs IH]; simpl; intros H; [reflexivity |].
  rewrite (H x) by auto. apply IH. auto.
Qed.

Lemma matrix_lookup (colors : list ColorEntry) (level : TargetLevel) (f b : ColorEntry) :
  NoDup (map id colors) -> In f colors -> In b colors ->
  findContrastResult (matrix_of colors level) (id f) (id b)
  = Some (result_of (id f) (hex f) (id b) (hex b) level).
Proof.
  intros Hnd Hf Hb.
  unfold findContrastResult, generateContrastMatrix.
  set (p := fun result : ContrastResult => _).
  set (row := fun foreground : ColorEntry => map _ colors).
  assert (Hrow_other : forall x, In x colors -> x <> f -> find p (row x) = None).
  { intros x Hx Hne. apply find_none_all. intros r Hr.
    subst row. apply in_map_iff in Hr as (y & <- & _). subst p. simpl.
    destruct (String.eqb (id x) (id f)) eqn:E; [| reflexivity].
    apply String.eqb_eq in E. exfalso. apply Hne.
    apply (same_id_same_entry colors); auto. }
  assert (Hrow_f : find p (row f) = Some (result_of (id f) (hex f) (id b) (hex b) level)).
  { subst row. cbv beta.
    assert (Hgen : forall ys, (forall y, In y ys -> In y colors) -> In b ys ->
              find p (map (fun background =>
                             result_of (id f) (hex f) (id background) (hex background)
                               level) ys)
              = Some (result_of (id f) (hex f) (id b) (hex b) level)).
    { induction ys as [| y ys IHy]; simpl; intros Hsub Hin; [contradiction |].
      assert (Hp : p (result_of (id f) (hex f) (id y) (hex y) level)
                   = String.eqb (id y) (id b)).
      { subst p. cbv beta.
        change (foregroundId (result_of (id f) (hex f) (id y) (hex y) level))
          with (id f).
        change (backgroundId (result_of (id f) (hex f) (id y) (hex y) level))
          with (id y).
        rewrite String.eqb_refl. reflexivity. }
      rewrite Hp.
      destruct (String.eqb (id y) (id b)) eqn:E.
      - apply String.eqb_eq in E.
        assert (y = b) by (apply (same_id_same_entry colors); auto).
        subst y. reflexivity.
      - destruct Hin as [-> | Hin]; [rewrite String.eqb_refl in E; discriminate |].
        apply IHy; auto. }
    apply Hgen; auto. }
  assert (Hall : forall fs, (forall x, In x fs -> In x colors) -> In f fs ->
            find p (flat_map row fs)
            = Some (result_of (id f) (hex f) (id b) (hex b) level)).
  { induction fs as [| x fs IHfs]; simpl; intros Hsub Hin; [contradiction |].
    rewrite find_app_split.
    destruct (find p (row x)) as [r |] eqn:Hx.
    - destruct Hin as [-> | Hin]; [congruence |].
      assert (x = f).
      { destruct (find_some _ _ Hx) as [Hr Hp].
        subst row. apply in_map_iff in Hr as (y & <- & _). subst p. simpl in Hp.
        apply andb_prop in Hp as [Hp _]. apply String.eqb_eq in Hp.
        apply (same_id_same_entry colors); auto. }
      subst x. congruence.
    - destruct Hin as [-> | Hin]; [congruence |].
      apply IHfs; auto. }
  apply Hall; auto.
Qed.

(** X3.  Lookup in the matrix of colours with pairwise distinct ids returns
    the result computed for that ordered pair; an id that no colour has
    finds nothing. *)
Theorem findContrastResult_matrix
    (colors : list ColorEntry) (level : TargetLevel) :
  (NoDup (map id colors) ->
   forall f b, In f colors -> In b colors ->
     findContrastResult (matrix_of colors level) (id f) (id b)
     = Some (result_of (id f) (hex f) (id b) (hex b) level))
  /\ (forall fgId bgId,
        ~ In fgId (map id colors) \/ ~ In bgId (map id colors) ->
        findContrastResult (matrix_of colors level) fgId bgId = None).
Proof.
  split.
  - intros Hnd f b Hf Hb. apply matrix_lookup; assumption.
  - intros fgId bgId Hmiss.
    unfold findContrastResult. apply find_none_all. intros r Hr.
    apply matrix_members in Hr as (f & b & Hf & Hb & ->). simpl.
    destruct (String.eqb (id f) fgId) eqn:E1; [| reflexivity].
    destruct (String.eqb (id b) bgId) eqn:E2; [| reflexivity].
    apply String.eqb_eq in E1, E2. subst.
    exfalso. destruct Hmiss as [H | H]; apply H; apply in_map; assumption.
Qed.

(** X4.  The matrix lists the pairs foreground-major: the entry at index
    [i * N + j] is the result for the [i]-th colour over the [j]-th. *)
Theorem matrix_row_major
    (colors : list ColorEntry) (level : TargetLevel) (i j : nat) (f b : ColorEntry) :
  nth_error colors i = Some f ->
  nth_error colors j = Some b ->
  nth_error (matrix_of colors level) (i * List.length colors + j)
  = Some (result_of (id f) (hex f) (id b) (hex b) level).
Proof.
  intros Hi Hj. unfold generateContrastMatrix.
  set (row := fun foreground : ColorEntry => map _ colors).
  assert (Hlen : forall x, List.length (row x) = List.length colors)
    by (intros x; apply length_map).
  assert (Hj' : (j < List.length colors)%nat)
    by (apply nth_error_Some; congruence).
  assert (Hgen : forall fs k, nth_error fs k = Some f ->
            nth_error (flat_map row fs) (k * List.length colors + j)
            = Some (result_of (id f) (hex f) (id b) (hex b) level)).
  { induction fs as [| x fs IH]; intros k Hk; [destruct k; discriminate |].
    cbn [flat_map]. destruct k as [| k].
    - inversion Hk; subst x.
      rewrite nth_error_app1 by (rewrite Hlen; exact Hj').
      subst row. cbv beta.
      apply (map_nth_error (fun background =>
               result_of (id f) (hex f) (id background) (hex background) level)).
      exact Hj.
    - rewrite nth_error_app2 by (rewrite Hlen; lia).
      rewrite Hlen.
      replace (S k * List.length colors + j - List.length colors)%nat
        with (k * List.length colors + j)%nat by lia.
      apply IH. exact Hk. }
  apply Hgen. exact Hi.
Qed.

Lemma filter_length_impl {A : Type} (p q : A -> bool) (xs : list A) :
  (forall x, In x xs -> p x = true -> q x = true) ->
  (List.length (filter p xs) <= List.length (filter q xs))%nat.
Proof.
  induction xs as [| x xs IH]; simpl; intros H; [lia |].
  assert (IH' := IH (fun y Hy => H y (or_intror Hy))).
  destruct (p x) eqn:Ep.
  - rewrite (H x (or_introl eq_refl) Ep). simpl. lia.
  - destruct (q x); simpl; lia.
Qed.

(** X5.  On a matrix built by [generateContrastMatrix] no more pairs pass
    AAA than pass AA, whatever level the suggestions were computed for. *)
Theorem summary_level_monotone (colors : list ColorEntry) (level : TargetLevel) :
  (passing (getContrastSummary (matrix_of colors level) AAA)
   <= passing (getContrastSummary (matrix_of colors level) AA))%Z
  /\ (failing (getContrastSummary (matrix_of colors level) AA)
      <= failing (getContrastSummary (matrix_of colors level) AAA))%Z.
Proof.
  unfold getContrastSummary. cbn [passing failing total].
  set (valid := filter _ (matrix_of colors level)).
  assert (H : (List.length (filter (passesLevel AAA) valid)
               <= List.length (filter (passesLevel AA) valid))%nat).
  { apply filter_length_impl. intros r Hr Hp.
    apply filter_In in Hr as [Hr _].
    apply matrix_members in Hr as (f & b & _ & _ & ->).
    simpl in *. eapply Qgeb_trans_threshold; [| exact Hp].
    unfold CONTRAST_THRESHOLDS.AA_NORMAL, CONTRAST_THRESHOLDS.AAA_NORMAL. lra. }
  lia.
Qed.

(** X6.  The percentage of the summary lies between 0 and 100; it is 100
    when every counted pair passes and there is at least one, and 0 when
    none passes. *)
Theorem summary_percentage_range (matrix : list ContrastResult) (level : TargetLevel) :
  let s := getContrastSummary matrix level in
  (0 <= percentage s <= 100)%Z
  /\ (passing s = total s -> total s <> 0%Z -> percentage s = 100%Z)
  /\ (passing s = 0%Z -> percentage s = 0%Z)
  /\ (passing s + failing s = total s)%Z.
Proof.
  intros s. subst s. unfold getContrastSummary. cbn [total passing failing percentage].
  set (valid := filter _ matrix).
  set (t := Z.of_nat (List.length valid)).
  set (p := Z.of_nat (List.length (filter (passesLevel level) valid))).
  assert (Hp : (0 <= p <= t)%Z).
  { subst p t. split; [lia |]. apply inj_le, filter_length_le. }
  split; [| split; [| split]].
  - destruct (0 <? t)%Z eqn:E; [| lia].
    apply Z.ltb_lt in E. apply double_percentage_range; assumption.
  - intros Heq Hne.
    destruct (0 <? t)%Z eqn:E; [| apply Z.ltb_ge in E; lia].
    apply Z.ltb_lt in E. rewrite Heq. apply double_percentage_all. exact E.
  - intros H0. rewrite H0.
    destruct (0 <? t)%Z; [| reflexivity].
    apply double_percentage_none.
  - lia.
Qed.

End MatrixFacts.

(** ** How far and how long the lightness search goes ([suggestions.ts]) *)

Section SearchBounds.

Variable oklch : string -> option Culori.Oklch.
Variable formatHex : Culori.Oklch -> option string.
Variable wcagContrast : string -> string -> Q.
Variable fg : Culori.Oklch.
Variable bgColor : string.
Variable targetRatio : Q.
Variable shouldDarken : bool.

Local Abbreviation body :=
  (loop_body formatHex wcagContrast fg bgColor targetRatio shouldDarken).
Local Abbreviation loop :=
  (searchLoop formatHex wcagContrast fg bgColor targetRatio shouldDarken).
Local Abbreviation exec :=
  (loop_exec formatHex wcagContrast fg bgColor targetRatio shouldDarken).
Local Abbreviation init := (initialState fg shouldDarken).
Local Abbreviation candidate_side := (candidate_side shouldDarken).
Local Abbreviation original_side := (original_side shouldDarken).
Local Abbreviation probed_failing :=
  (probed_failing formatHex wcagContrast fg bgColor targetRatio).

Lemma pow2_large (n : nat) : (10 <= n)%nat -> (1024 <= Z.pos (pow2 n))%Z.
Proof.
  intros Hn. replace n with (n - 10 + 10)%nat by lia.
  induction (n - 10)%nat as [| k IH]; [vm_compute; discriminate |].
  change (S k + 10)%nat with (S (k + 10)). cbn [pow2]. lia.
Qed.

Lemma half_of_bound (w : Q) (n : nat) :
  w <= 1 # pow2 n -> w * (1 # 2) <= 1 # pow2 (S n).
Proof.
  intros H.
  assert (Heq : 1 # pow2 (S n) == (1 # pow2 n) * (1 # 2)).
  { unfold Qeq. cbn [pow2]. simpl. lia. }
  rewrite Heq. set (y := 1 # pow2 n) in *. clearbody y. lra.
Qed.

(** With the guard true, a width of at most [1 / 2^n] after [n] passes
    leaves room for at most nine passes so far. *)
Lemma guard_width_iterations (st : LoopState) :
  loop_guard st = true ->
  high st - low st <= 1 # pow2 (iterations st) ->
  (iterations st <= 9)%nat.
Proof.
  unfold loop_guard, Qgtb, LIGHTNESS_PRECISION. intros Hg Hw.
  apply andb_prop in Hg as [_ Hg]. apply negb_true_iff in Hg.
  destruct (Nat.le_gt_cases (iterations st) 9) as [Hle | Hgt]; [exact Hle |].
  exfalso. pose proof (pow2_large (iterations st) Hgt) as Hbig.
  assert (Hsmall : 1 # pow2 (iterations st) <= 0.001).
  { unfold Qle. simpl. lia. }
  assert (Hle : high st - low st <= 0.001) by lra.
  apply Qle_bool_iff in Hle. congruence.
Qed.

(** A pass that does not break halves the width. *)
Lemma body_halves_width (st st' : LoopState) :
  body st = Continue st' ->
  high st' - low st' == (high st - low st) * (1 # 2).
Proof.
  unfold loop_body.
  destruct (formatHex _) as [[| a hx] |]; try discriminate.
  assert (Heq : (low st + high st) / 2 == (low st + high st) * (1 # 2))
    by (unfold Qdiv; reflexivity).
  destruct (Qgeb _ _); intros H; inversion H; subst st'; simpl;
    destruct shouldDarken; rewrite Heq; ring.
Qed.

Lemma exec_iterations_bound (st : LoopState) (n : nat) (st' : LoopState) :
  exec st n st' ->
  high st - low st <= 1 # pow2 (iterations st) ->
  (iterations st <= 10)%nat ->
  (iterations st' <= 10)%nat.
Proof.
  induction 1 as [s Hg | s s' Hg Hb | s s' k s'' Hg Hb Hrun IH]; intros Hw Hit.
  - exact Hit.
  - pose proof (guard_width_iterations s Hg Hw).
    rewrite (body_counts formatHex wcagContrast fg bgColor targetRatio shouldDarken
               s s' (or_intror Hb)). lia.
  - pose proof (guard_width_iterations s Hg Hw) as H9.
    pose proof (body_counts formatHex wcagContrast fg bgColor targetRatio shouldDarken
                  s s' (or_introl Hb)) as Hcnt.
    apply IH.
    + rewrite Hcnt, (body_halves_width s s' Hb). apply half_of_bound. exact Hw.
    + lia.
Qed.

Lemma searchLoop_ten :
  0 <= Culori.l fg <= 1 -> (iterations (loop init) <= 10)%nat.
Proof.
  intros Hl.
  pose proof (searchLoop_exec formatHex wcagContrast fg bgColor targetRatio
                shouldDarken init) as Hrun.
  apply (exec_iterations_bound _ _ _ Hrun).
  - unfold initialState. destruct shouldDarken; cbn; lra.
  - simpl. lia.
Qed.

(** Why the loop was left, when the counter is below its limit. *)
Lemma searchLoop_exit_width :
  let fin := loop init in
  (iterations fin < MAX_ITERATIONS)%nat ->
  high fin - low fin <= LIGHTNESS_PRECISION
  \/ JS.truthy (formatHex (Culori.with_l fg ((low fin + high fin) / 2))) = false.
Proof.
  intros fin Hlt.
  pose proof (searchLoop_exit formatHex wcagContrast fg bgColor targetRatio
                shouldDarken init) as Hexit.
  fold fin in Hexit. destruct Hexit as [Hg | (prev & Hg & Hb)].
  - left. unfold loop_guard in Hg. apply andb_false_iff in Hg as [Hit | Hw].
    + apply Nat.ltb_ge in Hit. lia.
    + unfold Qgtb in Hw. apply negb_false_iff in Hw. apply Qle_bool_iff. exact Hw.
  - right. unfold loop_body in Hb.
    destruct (formatHex (Culori.with_l fg ((low prev + high prev) / 2)))
      as [[| a hx] |] eqn:Hfmt.
    + inversion Hb as [Hfin]. simpl. rewrite Hfmt. reflexivity.
    + destruct (Qgeb _ _); discriminate.
    + inversion Hb as [Hfin]. simpl. rewrite Hfmt. reflexivity.
Qed.

(** X7.  For a foreground lightness in [0, 1] the loop runs its body at most
    ten times, so the limit of 50 is never what stops it: it stops because
    the width is at most 0.001, or at the [break]. *)
Theorem search_at_most_ten_iterations :
  0 <= Culori.l fg <= 1 ->
  let fin := loop init in
  (iterations fin <= 10)%nat
  /\ (high fin - low fin <= LIGHTNESS_PRECISION
      \/ JS.truthy (formatHex (Culori.with_l fg ((low fin + high fin) / 2))) = false).
Proof.
  intros Hl fin. pose proof (searchLoop_ten Hl) as Hten. fold fin in Hten.
  split; [exact Hten |].
  apply searchLoop_exit_width. fold fin. unfold MAX_ITERATIONS. lia.
Qed.

Lemma searchLoop_frontier :
  let fin := loop init in
  (forall c, bestColor fin = Some c ->
             Culori.l c = candidate_side fin /\ low fin < high fin)
  /\ (original_side fin = Culori.l fg \/ probed_failing (original_side fin)).
Proof.
  apply (searchLoop_rule formatHex wcagContrast fg bgColor targetRatio shouldDarken
           (fun s => (forall c, bestColor s = Some c ->
                                Culori.l c = candidate_side s /\ low s < high s)
                     /\ (original_side s = Culori.l fg
                         \/ probed_failing (original_side s)))).
  - intros s s' Hg Hs (Hbest & Horig).
    pose proof (guard_midpoint s Hg) as [Hm1 Hm2].
    unfold loop_body in Hs.
    destruct (formatHex (Culori.with_l fg ((low s + high s) / 2)))
      as [[| a hx] |] eqn:Hfmt.
    + destruct Hs as [Hs | Hs]; inversion Hs; subst s'. split; [exact Hbest | exact Horig].
    + destruct (Qgeb (wcagContrast (String a hx) bgColor) targetRatio) eqn:Hge;
        (destruct Hs as [Hs | Hs]; inversion Hs; subst s').
      * split.
        -- intros c Hc. simpl in Hc. inversion Hc; subst c.
           unfold candidate_side. destruct shouldDarken; simpl; split; auto.
        -- unfold original_side in *. destruct shouldDarken; simpl; exact Horig.
      * split.
        -- intros c Hc. simpl in Hc. destruct (Hbest c Hc) as [Hlc _].
           unfold candidate_side in *. destruct shouldDarken; simpl; split; auto.
        -- right. exists (String a hx).
           unfold original_side. destruct shouldDarken; simpl; (split; [exact Hfmt |]);
             apply Qnot_le_lt; intros Hle; apply Qle_bool_iff in Hle;
             unfold Qgeb in Hge; congruence.
    + destruct Hs as [Hs | Hs]; inversion Hs; subst s'. split; [exact Hbest | exact Horig].
  - split; [discriminate |]. left. unfold original_side, initialState.
    destruct shouldDarken; reflexivity.
Qed.

(** X8.  When the library formats every colour and the foreground
    lightness is in [0, 1], a candidate returned by [searchLightness] is
    within 0.001 of a lightness [m] that is the original lightness or a
    probed lightness that misses the target; [m] lies on the side of the
    original. *)
Theorem search_candidate_near_minimal (c : Culori.Oklch) :
  0 <= Culori.l fg <= 1 ->
  (forall x, JS.truthy (formatHex x) = true) ->
  searchLightness formatHex wcagContrast fg bgColor targetRatio shouldDarken = Some c ->
  exists m,
    (m = Culori.l fg \/ probed_failing m)
    /\ (if shouldDarken
        then Culori.l c < m /\ m - Culori.l c <= LIGHTNESS_PRECISION
        else m < Culori.l c /\ Culori.l c - m <= LIGHTNESS_PRECISION).
Proof.
  intros Hl Hfmt Hc. unfold searchLightness in Hc.
  pose proof searchLoop_frontier as [Hbest Horig]. cbv zeta in Hbest, Horig.
  destruct (Hbest c Hc) as [Hlc Hlt].
  pose proof (searchLoop_ten Hl) as Hten.
  destruct searchLoop_exit_width as [Hw | Hbreak];
    [unfold MAX_ITERATIONS; lia | | rewrite Hfmt in Hbreak; discriminate].
  exists (original_side (loop init)). split; [exact Horig |].
  rewrite Hlc. unfold candidate_side, original_side.
  destruct shouldDarken; split; auto.
Qed.

End SearchBounds.

(** ** What a suggestion is ([suggestions.ts]) *)

Section SuggestionFacts.

Variable oklch : string -> option Culori.Oklch.
Variable formatHex : Culori.Oklch -> option string.
Variable wcagContrast : string -> string -> Q.

Local Abbreviation fix_of := (findNearestAccessible oklch formatHex wcagContrast).
Local Abbreviation search := (searchLightness formatHex wcagContrast).
Local Abbreviation to_hex := (resultHex formatHex).

(** A non-null result is the argument itself on a pair that passes, or the
    hex of a candidate of one of the two searches on a pair that fails. *)
Lemma fix_cases (fgHex bgHex : string) (target : Q) (r : string) :
  fix_of fgHex bgHex target = Some r ->
  (r = fgHex /\ target <= wcagContrast ("#" ++ fgHex) ("#" ++ bgHex))
  \/ (wcagContrast ("#" ++ fgHex) ("#" ++ bgHex) < target
      /\ exists f sd c, oklch ("#" ++ fgHex) = Some f
                        /\ search f ("#" ++ bgHex) target sd = Some c
                        /\ to_hex c = Some r).
Proof.
  intros Hfix.
  destruct (oklch ("#" ++ fgHex)) as [f |] eqn:Hf;
    [| unfold findNearestAccessible in Hfix; rewrite Hf in Hfix; discriminate].
  destruct (Qgeb (wcagContrast ("#" ++ fgHex) ("#" ++ bgHex)) target) eqn:Hpass.
  - left. unfold findNearestAccessible in Hfix. rewrite Hf, Hpass in Hfix.
    inversion Hfix; subst r. split; [reflexivity |]. apply Qle_bool_iff. exact Hpass.
  - right. split.
    + apply Qnot_le_lt. intros Hle. apply Qle_bool_iff in Hle.
      unfold Qgeb in Hpass. congruence.
    + rewrite (findNearestAccessible_failing oklch formatHex wcagContrast
                 fgHex bgHex target f Hf Hpass) in Hfix.
      cbv zeta in Hfix.
      match type of Hfix with
      | match search f ?b target ?sd with _ => _ end = _ =>
          destruct (search f b target sd) as [c |] eqn:H1;
          [exists f, sd, c; auto
          | destruct (search f b target (negb sd)) as [c |] eqn:H2;
            [exists f, (negb sd), c; auto | discriminate]]
      end.
Qed.

Section Format.

(** The library formats a colour as ['#'] and six hex digits. *)
Hypothesis formatHex_six :
  forall c hx, formatHex c = Some hx -> exists d, hx = String "#" d /\ Utils.hex_digits 6 d.

Lemma resultHex_normalized (c : Culori.Oklch) (r : string) :
  to_hex c = Some r -> Utils.normalized r.
Proof.
  unfold resultHex. intros Hr.
  destruct (formatHex c) as [hx |] eqn:Hfmt; [| discriminate].
  destruct (formatHex_six c hx Hfmt) as (d & -> & Hl & Ha).
  simpl in Hr. inversion Hr; subst r. split.
  - rewrite length_toUpperCase. exact Hl.
  - apply all_upper_of_hex. exact Ha.
Qed.

(** X9.  When the library formats a colour as ['#'] and six hex digits,
    the suggestion for a normalised foreground is normalised: six digits out
    of 0-9A-F, a fixed point of [normalizeHex] that [isValidHex] accepts. *)
Theorem fix_is_normalized (fgHex bgHex : string) (target : Q) (r : string) :
  Utils.normalized fgHex ->
  fix_of fgHex bgHex target = Some r ->
  Utils.normalized r /\ Utils.normalizeHex r = Some r /\ Utils.isValidHex r = true.
Proof.
  intros Hn Hfix.
  assert (Hr : Utils.normalized r).
  { destruct (fix_cases fgHex bgHex target r Hfix)
      as [[-> _] | (_ & f & sd & c & _ & _ & Hc)]; [exact Hn |].
    exact (resultHex_normalized c r Hc). }
  pose proof (normalized_fixed r Hr) as Hfixed.
  split; [exact Hr |]. split; [exact Hfixed |].
  unfold Utils.normalizeHex in Hfixed.
  destruct (Utils.isValidHex r); [reflexivity | discriminate].
Qed.

End Format.

(** *** The map of suggestions *)

Lemma JSMap_get_set (k k' v : string) (m : JSMap.t) :
  JSMap.get k (JSMap.set k' v m) = if String.eqb k' k then Some v else JSMap.get k m.
Proof.
  induction m as [| [k1 v1] rest IH]; simpl.
  - reflexivity.
  - destruct (String.eqb k1 k') eqn:E1; simpl.
    + apply String.eqb_eq in E1. subst k1.
      destruct (String.eqb k' k); reflexivity.
    + rewrite IH. destruct (String.eqb k1 k) eqn:E2; [| reflexivity].
      apply String.eqb_eq in E2. subst k1. rewrite String.eqb_sym, E1. reflexivity.
Qed.

Lemma JSMap_keys_set (k v : string) (m : JSMap.t) :
  JSMap.keys (JSMap.set k v m) = JSMap.keys m
  \/ (~ In k (JSMap.keys m) /\ JSMap.keys (JSMap.set k v m) = (JSMap.keys m ++ [k])%list).
Proof.
  unfold JSMap.keys.
  induction m as [| [k1 v1] rest IH]; simpl.
  - right. auto.
  - destruct (String.eqb k1 k) eqn:E; simpl.
    + apply String.eqb_eq in E. subst. left. reflexivity.
    + apply String.eqb_neq in E.
      destruct IH as [-> | [Hnot ->]]; [left; reflexivity |].
      right. split; [| reflexivity]. intros [H | H]; auto.
Qed.

Lemma JSMap_set_NoDup (k v : string) (m : JSMap.t) :
  NoDup (JSMap.keys m) -> NoDup (JSMap.keys (JSMap.set k v m)).
Proof.
  intros Hnd. destruct (JSMap_keys_set k v m) as [-> | [Hnot ->]]; [exact Hnd |].
  apply NoDup_app; [exact Hnd | repeat constructor; simpl; tauto |].
  intros x Hx [<- | []]. exact (Hnot Hx).
Qed.

(** X10.  The map returned by [findSuggestionsForColor] has one entry per
    key, and every entry [id -> v] comes from a background with that id whose
    hex differs from the foreground, on which the pair misses the target
    ratio of the level, and [v] is the non-empty result of
    [findNearestAccessible] for it, different from the foreground. *)
Theorem findSuggestionsForColor_entries
    (foregroundHex : string) (backgrounds : list ColorEntry) (level : TargetLevel) :
  let m := findSuggestionsForColor oklch formatHex wcagContrast
             foregroundHex backgrounds level in
  let target := getTargetRatio level false in
  NoDup (JSMap.keys m)
  /\ forall k v, JSMap.get k m = Some v ->
       exists bg, In bg backgrounds /\ id bg = k
                  /\ hex bg <> foregroundHex
                  /\ fix_of foregroundHex (hex bg) target = Some v
                  /\ v <> foregroundHex /\ v <> ""
                  /\ wcagContrast ("#" ++ foregroundHex) ("#" ++ hex bg) < target.
Proof.
  intros m target. subst m. unfold findSuggestionsForColor. fold target.
  set (P := fun acc : JSMap.t =>
              NoDup (JSMap.keys acc)
              /\ forall k v, JSMap.get k acc = Some v ->
                   exists bg, In bg backgrounds /\ id bg = k
                              /\ hex bg <> foregroundHex
                              /\ fix_of foregroundHex (hex bg) target = Some v
                              /\ v <> foregroundHex /\ v <> ""
                              /\ wcagContrast ("#" ++ foregroundHex) ("#" ++ hex bg)
                                 < target).
  assert (Hgen : forall bgs acc, (forall bg, In bg bgs -> In bg backgrounds) ->
            P acc ->
            P (fold_left (suggestion_step oklch formatHex wcagContrast
                            foregroundHex target) bgs acc)).
  { induction bgs as [| bg bgs IH]; simpl; intros acc Hsub Hacc; [exact Hacc |].
    apply IH; [auto |].
    unfold suggestion_step.
    destruct (String.eqb (hex bg) foregroundHex) eqn:Ehex; [exact Hacc |].
    destruct (fix_of foregroundHex (hex bg) target) as [[| a sug] |] eqn:Hfix;
      try exact Hacc.
    destruct (strictNe (String a sug) foregroundHex) eqn:Ene; [| exact Hacc].
    destruct Hacc as [Hnd Hget]. split; [apply JSMap_set_NoDup; exact Hnd |].
    intros k v Hk. rewrite JSMap_get_set in Hk.
    destruct (String.eqb (id bg) k) eqn:Ek; [| exact (Hget k v Hk)].
    inversion Hk; subst v. apply String.eqb_eq in Ek.
    apply String.eqb_neq in Ehex.
    assert (Hv : String a sug <> foregroundHex).
    { unfold strictNe in Ene. apply negb_true_iff, String.eqb_neq in Ene. exact Ene. }
    exists bg. repeat split; auto; try discriminate.
    destruct (fix_cases foregroundHex (hex bg) target _ Hfix) as [[Heq _] | [Hlt _]];
      [contradiction | exact Hlt]. }
  apply Hgen; [auto |]. split; [constructor | discriminate].
Qed.

End SuggestionFacts.

(** ** The palette reducer ([lib/palette]) *)

Section ReducerFacts.

Variable initialPaletteState : Palette.PaletteState.

Local Abbreviation reducer := (Palette.paletteReducer initialPaletteState).

(** The ids of a state, in order. *)
Local Abbreviation ids_of st := (map Palette.id (Palette.colors st)).

Lemma ids_filter (k : string) (cs : list Palette.ColorEntry) :
  map Palette.id (filter (fun color => strictNe (Palette.id color) k) cs)
  = filter (fun i => strictNe i k) (map Palette.id cs).
Proof.
  induction cs as [| c cs IH]; simpl; [reflexivity |].
  destruct (strictNe (Palette.id c) k); simpl; rewrite IH; reflexivity.
Qed.

Lemma filter_fresh (k : string) (cs : list Palette.ColorEntry) :
  ~ In k (map Palette.id cs) ->
  filter (fun color => strictNe (Palette.id color) k) cs = cs.
Proof.
  induction cs as [| c cs IH]; simpl; intros Hnot; [reflexivity |].
  assert (Hne : strictNe (Palette.id c) k = true).
  { unfold strictNe. apply negb_true_iff, String.eqb_neq. intros E. apply Hnot. auto. }
  rewrite Hne, IH; auto.
Qed.

Lemma filter_drops_one (k : string) (xs : list string) :
  NoDup xs ->
  (List.length xs <= S (List.length (filter (fun i => strictNe i k) xs)))%nat.
Proof.
  induction xs as [| x xs IH]; simpl; intros Hnd; [lia |].
  inversion Hnd as [| ? ? Hnotin Hnd']; subst.
  unfold strictNe at 1. destruct (String.eqb x k) eqn:E; simpl.
  - apply String.eqb_eq in E. subst x.
    assert (Hall : filter (fun i => strictNe i k) xs = xs).
    { apply forallb_filter_id. apply forallb_forall. intros y Hy.
      unfold strictNe. apply negb_true_iff, String.eqb_neq. intros ->. auto. }
    rewrite Hall. lia.
  - specialize (IH Hnd'). lia.
Qed.

Lemma ids_update (k : string) (u : Palette.Updates) (cs : list Palette.ColorEntry) :
  map Palette.id
      (map (fun color => if String.eqb (Palette.id color) k
                         then Palette.merge color u else color) cs)
  = map Palette.id cs.
Proof.
  induction cs as [| c cs IH]; simpl; [reflexivity |].
  rewrite IH. destruct (String.eqb (Palette.id c) k); reflexivity.
Qed.

(** X11.  The reducer keeps a palette well formed.  From a state of 2 to 12
    colours with pairwise distinct ids, every action leads to such a state,
    provided an added colour brings a new id and the initial state (for the
    reset) is such a state.  The action [REPLACE_COLORS] has no case in the
    reducer and leaves the state as it is. *)
Theorem reducer_keeps_palette_well_formed
    (state : Palette.PaletteState) (action : Palette.PaletteAction) :
  let ok st := NoDup (ids_of st)
               /\ (2 <= List.length (Palette.colors st) <= 12)%nat in
  ok initialPaletteState ->
  ok state ->
  (forall color, action = Palette.ADD_COLOR color ->
                 ~ In (Palette.id color) (ids_of state)) ->
  ok (reducer state action)
  /\ (forall payload, action = Palette.REPLACE_COLORS payload ->
                      reducer state action = state).
Proof.
  intros ok Hinit [Hnd [Hlo Hhi]] Hfresh. unfold ok in *. clear ok.
  split; [| intros payload ->; reflexivity].
  destruct action as [color | k | k u | p | p | p | | p];
    unfold Palette.paletteReducer;
    try (cbn [Palette.colors]; split; [exact Hnd | split; assumption]).
  - destruct (12 <=? List.length (Palette.colors state))%nat eqn:E;
      [split; [exact Hnd | split; assumption] |].
    apply Nat.leb_gt in E. cbn [Palette.colors]. split.
    + rewrite map_app. cbn [map].
      apply NoDup_app; [exact Hnd | repeat constructor; simpl; tauto |].
      intros x Hx [<- | []]. exact (Hfresh color eq_refl Hx).
    + rewrite length_app. cbn [List.length]. lia.
  - destruct (List.length (Palette.colors state) <=? 2)%nat eqn:E;
      [split; [exact Hnd | split; assumption] |].
    apply Nat.leb_gt in E. cbn [Palette.colors]. split.
    + rewrite ids_filter. apply NoDup_filter. exact Hnd.
    + pose proof (filter_drops_one k _ Hnd) as Hone.
      rewrite <- ids_filter in Hone. rewrite !length_map in Hone.
      pose proof (filter_length_le (fun color => strictNe (Palette.id color) k)
                    (Palette.colors state)).
      lia.
  - cbn [Palette.colors]. rewrite ids_update, length_map. auto.
  - exact Hinit.
Qed.

(** X12.  Adding a colour with a new id and removing that id again gives
    back the state, for every state of at least two colours (at twelve
    colours the addition is ignored and the removal finds nothing). *)
Theorem add_then_remove (state : Palette.PaletteState) (color : Palette.ColorEntry) :
  (2 <= List.length (Palette.colors state))%nat ->
  ~ In (Palette.id color) (ids_of state) ->
  reducer (reducer state (Palette.addColor color))
          (Palette.removeColor (Palette.id color))
  = state.
Proof.
  intros Hlen Hfresh. destruct state as [cs std lvl md].
  cbn [Palette.colors] in Hlen, Hfresh.
  unfold Palette.addColor, Palette.removeColor.
  unfold Palette.paletteReducer at 2. cbn [Palette.colors].
  destruct (12 <=? List.length cs)%nat eqn:E.
  - unfold Palette.paletteReducer. cbn [Palette.colors].
    destruct (List.length cs <=? 2)%nat eqn:E2; [reflexivity |].
    rewrite filter_fresh by exact Hfresh. reflexivity.
  - apply Nat.leb_gt in E.
    unfold Palette.paletteReducer.
    cbn [Palette.colors Palette.contrastStandard Palette.targetLevel Palette.mode].
    rewrite length_app. cbn [List.length].
    destruct (List.length cs + 1 <=? 2)%nat eqn:E2; [apply Nat.leb_le in E2; lia |].
    rewrite filter_app, filter_fresh by exact Hfresh. cbn [filter].
    unfold strictNe. rewrite String.eqb_refl. cbn [negb]. rewrite app_nil_r. reflexivity.
Qed.

(** X13.  Updating a colour keeps the ids, their order and the settings;
    the [i]-th colour is merged with the updates when its id is the given
    one and is left alone otherwise; an id that no colour has changes
    nothing.  A field that the updates do not mention keeps its value. *)
Theorem update_color_pointwise
    (state : Palette.PaletteState) (k : string) (u : Palette.Updates) :
  let state' := reducer state (Palette.updateColor k u) in
  ids_of state' = ids_of state
  /\ (forall i c, nth_error (Palette.colors state) i = Some c ->
        nth_error (Palette.colors state') i
        = Some (if String.eqb (Palette.id c) k then Palette.merge c u else c))
  /\ (~ In k (ids_of state) -> state' = state)
  /\ (forall c, Palette.upd_hex u = None -> Palette.hex (Palette.merge c u) = Palette.hex c)
  /\ (forall c h, Palette.upd_hex u = Some h -> Palette.hex (Palette.merge c u) = h)
  /\ Palette.targetLevel state' = Palette.targetLevel state.
Proof.
  intros state'. subst state'. simpl.
  split; [apply ids_update |].
  split.
  { intros i c Hi.
    apply (map_nth_error (fun color => if String.eqb (Palette.id color) k
                                       then Palette.merge color u else color)).
    exact Hi. }
  split.
  { intros Hnot. destruct state as [cs std lvl md]. simpl in *. f_equal.
    induction cs as [| c cs IH]; simpl; [reflexivity |].
    simpl in Hnot.
    destruct (String.eqb (Palette.id c) k) eqn:E.
    - apply String.eqb_eq in E. exfalso. apply Hnot. auto.
    - rewrite IH; auto. }
  split; [intros c Hu; unfold Palette.merge; simpl; rewrite Hu; reflexivity |].
  split; [intros c h Hu; unfold Palette.merge; simpl; rewrite Hu; reflexivity |].
  reflexivity.
Qed.

End ReducerFacts.

(** ** Applying a suggestion (matrix component, hook and reducer) *)

Section ApplyFixFacts.

Variable oklch : string -> option Culori.Oklch.
Variable formatHex : Culori.Oklch -> option string.
Variable wcagContrast : string -> string -> Q.
Variable initialPaletteState : Palette.PaletteState.

Hypothesis formatHex_hash :
  forall c hx, formatHex c = Some hx -> JS.truthy (Some hx) = true ->
               exists d, hx = String "#" d.
Hypothesis wcagContrast_case :
  forall d b, wcagContrast ("#" ++ JS.toUpperCase d) b == wcagContrast ("#" ++ d) b.

Local Abbreviation fix_of := (findNearestAccessible oklch formatHex wcagContrast).
Local Abbreviation result_of := (calculateContrastResult oklch formatHex wcagContrast).
Local Abbreviation hook := (useContrastMatrix oklch formatHex wcagContrast).

Lemma fix_reaches_target (fgHex bgHex : string) (target : Q) (r : string) :
  fix_of fgHex bgHex target = Some r ->
  target <= wcagContrast ("#" ++ r) ("#" ++ bgHex).
Proof.
  intros Hfix.
  destruct (fix_cases oklch formatHex wcagContrast fgHex bgHex target r Hfix)
    as [[-> Hpass] | (_ & f & sd & c & _ & Hsearch & Hc)]; [exact Hpass |].
  eapply resultHex_contrast; eauto.
  eapply searchLoop_candidate. exact Hsearch.
Qed.

(** A ratio that reaches a threshold of whole hundredths still reaches it
    after the rounding of [calculateContrast]. *)
Lemma rounded_reaches (x target : Q) (k : Z) :
  target == inject_Z k / 100 -> target <= x ->
  target <= inject_Z (JS.Math_round (x * 100)) / 100.
Proof.
  intros Hk Hx.
  assert (Hle : (k <= JS.Math_round (x * 100))%Z).
  { pose proof (Math_round_mono (inject_Z k) (x * 100)) as Hm.
    rewrite Math_round_Z in Hm. apply Hm.
    assert (Heq : inject_Z k / 100 == inject_Z k * (1 # 100))
      by (unfold Qdiv; reflexivity).
    rewrite Heq in Hk. set (q := inject_Z k) in *. clearbody q. lra. }
  rewrite Zle_Qle in Hle.
  set (q := inject_Z k) in *. set (m := inject_Z (JS.Math_round (x * 100))) in *.
  clearbody q m.
  assert (Heq1 : q / 100 == q * (1 # 100)) by (unfold Qdiv; reflexivity).
  assert (Heq2 : m / 100 == m * (1 # 100)) by (unfold Qdiv; reflexivity).
  rewrite Hk, Heq1, Heq2. lra.
Qed.

Lemma level_target_hundredths (level : TargetLevel) :
  exists k, getTargetRatio level false == inject_Z k / 100.
Proof. destruct level; [exists 450%Z | exists 700%Z]; reflexivity. Qed.

Lemma passesLevel_result (level : TargetLevel) (fgId fgHex bgId bgHex : string) :
  passesLevel level (result_of fgId fgHex bgId bgHex level)
  = Qgeb (calculateContrast wcagContrast fgHex bgHex) (getTargetRatio level false).
Proof. destruct level; reflexivity. Qed.

Lemma suggestedFix_result (level : TargetLevel) (fgId fgHex bgId bgHex : string) :
  suggestedFix (result_of fgId fgHex bgId bgHex level)
  = if negb (passesLevel level (result_of fgId fgHex bgId bgHex level))
       && strictNe fgId bgId
    then fix_of fgHex bgHex (getTargetRatio level false)
    else None.
Proof. destruct level; reflexivity. Qed.

(** X14.  Applying a suggestion settles the pair.  In a palette with
    pairwise distinct ids, when the matrix shows a suggestion for the
    foreground [f] over the background [b] and [handleApplyFix] stores it as
    the hex of [f], the matrix of the new state has the pair passing the
    target level, with no further suggestion. *)
Theorem apply_fix_settles_pair
    (state : Palette.PaletteState) (f b : Palette.ColorEntry)
    (res : ContrastResult) (newHex : string) :
  NoDup (map Palette.id (Palette.colors state)) ->
  In f (Palette.colors state) ->
  In b (Palette.colors state) ->
  hook_getResult (hook state) (Palette.id f) (Palette.id b) = Some res ->
  suggestedFix res = Some newHex ->
  let state' := Palette.handleApplyFix initialPaletteState state (Palette.id f) newHex in
  exists res',
    hook_getResult (hook state') (Palette.id f) (Palette.id b) = Some res'
    /\ passesLevel (Palette.targetLevel state) res' = true
    /\ suggestedFix res' = None
    /\ getTargetRatio (Palette.targetLevel state) false
       <= wcagContrast ("#" ++ newHex) ("#" ++ Palette.hex b).
Proof.
  intros Hnd Hf Hb Hres Hsug state'.
  set (level := Palette.targetLevel state) in *.
  assert (Hids : forall cs, map id (map idHex cs) = map Palette.id cs).
  { intros cs. rewrite map_map. reflexivity. }
  (* the result shown for the pair *)
  assert (Hlook : res = result_of (Palette.id f) (Palette.hex f)
                          (Palette.id b) (Palette.hex b) level).
  { unfold useContrastMatrix in Hres. cbn [hook_getResult] in Hres.
    pose proof (matrix_lookup oklch formatHex wcagContrast
                  (map idHex (Palette.colors state)) level (idHex f) (idHex b)) as Hm.
    rewrite Hids in Hm. specialize (Hm Hnd (in_map _ _ _ Hf) (in_map _ _ _ Hb)).
    cbn [idHex id hex] in Hm. fold level in Hres. congruence. }
  subst res. rewrite suggestedFix_result in Hsug.
  destruct (negb _ && strictNe (Palette.id f) (Palette.id b)) eqn:Hcond;
    [| discriminate].
  apply andb_prop in Hcond as [_ Hne].
  apply strictNe_true in Hne.
  pose proof (fix_reaches_target _ _ _ _ Hsug) as Hraw.
  (* the new state *)
  set (u := {| Palette.upd_hex := Some newHex; Palette.upd_label := None;
               Palette.upd_role := None; Palette.upd_locked := None |}).
  set (upd := fun color => if String.eqb (Palette.id color) (Palette.id f)
                           then Palette.merge color u else color).
  assert (Hcolors : Palette.colors state' = map upd (Palette.colors state)) by reflexivity.
  assert (Hlevel : Palette.targetLevel state' = level) by reflexivity.
  assert (Hf' : In (upd f) (Palette.colors state')) by (rewrite Hcolors; apply in_map; exact Hf).
  assert (Hb' : In b (Palette.colors state')).
  { rewrite Hcolors. replace b with (upd b); [apply in_map; exact Hb |].
    unfold upd. destruct (String.eqb (Palette.id b) (Palette.id f)) eqn:E; [| reflexivity].
    apply String.eqb_eq in E. congruence. }
  assert (Hnd' : NoDup (map Palette.id (Palette.colors state'))).
  { rewrite Hcolors. unfold upd. rewrite ids_update. exact Hnd. }
  assert (Hupd : upd f = Palette.merge f u).
  { unfold upd. rewrite String.eqb_refl. reflexivity. }
  pose proof (matrix_lookup oklch formatHex wcagContrast
                (map idHex (Palette.colors state')) level (idHex (upd f)) (idHex b)) as Hm.
  rewrite Hids in Hm. specialize (Hm Hnd' (in_map _ _ _ Hf') (in_map _ _ _ Hb')).
  rewrite Hupd in Hm. cbn [idHex id hex Palette.merge Palette.id Palette.hex u
                            Palette.upd_hex] in Hm.
  exists (result_of (Palette.id f) newHex (Palette.id b) (Palette.hex b) level).
  assert (Hpass : passesLevel level
                    (result_of (Palette.id f) newHex (Palette.id b) (Palette.hex b) level)
                  = true).
  { rewrite passesLevel_result. unfold Qgeb. apply Qle_bool_iff.
    destruct (level_target_hundredths level) as (k & Hk).
    unfold calculateContrast. cbv zeta.
    apply (rounded_reaches _ _ k Hk). exact Hraw. }
  split.
  { unfold useContrastMatrix. cbn [hook_getResult]. rewrite Hlevel. exact Hm. }
  split; [exact Hpass |].
  split; [| exact Hraw].
  rewrite suggestedFix_result, Hpass. reflexivity.
Qed.

(** X15.  A fix is stable.  Asking again for a fix of the returned hex,
    over the same background and for the same or a lower target, returns
    that hex unchanged, provided the library reads it as a colour: a fix
    computed for AAA is left alone at AA. *)
Theorem fix_is_stable (fgHex bgHex : string) (target target' : Q) (r : string) :
  fix_of fgHex bgHex target = Some r ->
  oklch ("#" ++ r) <> None ->
  target' <= target ->
  fix_of r bgHex target' = Some r.
Proof.
  intros Hfix Hparse Hle.
  pose proof (fix_reaches_target _ _ _ _ Hfix) as Hraw.
  unfold findNearestAccessible.
  destruct (oklch ("#" ++ r)) as [f |]; [| contradiction].
  cbv zeta.
  assert (Hpass : Qgeb (wcagContrast ("#" ++ r) ("#" ++ bgHex)) target' = true).
  { unfold Qgeb. apply Qle_bool_iff. eapply Qle_trans; eauto. }
  rewrite Hpass. reflexivity.
Qed.

End ApplyFixFacts.

(** ** Colour-blindness simulation ([colorblind.ts]) *)

Section ColorblindFacts.
Import Utils Colorblind.

Lemma hex_not_space (ch : ascii) : isHexDigit ch = true -> isWhiteSpace ch = false.
Proof. destruct ch as [[|] [|] [|] [|] [|] [|] [|] [|]]; vm_compute; auto. Qed.

Lemma hex_not_x (ch : ascii) :
  isHexDigit ch = true -> Ascii.eqb ch "x" || Ascii.eqb ch "X" = false.
Proof. destruct ch as [[|] [|] [|] [|] [|] [|] [|] [|]]; vm_compute; auto. Qed.

Lemma option_map_mul1 (o : option Z) : option_map (Z.mul 1) o = o.
Proof. destruct o as [[| p | p] |]; reflexivity. Qed.

(** [parseInt] of two hex digits is their value. *)
Lemma parseInt16_two (c1 c2 : ascii) (v1 v2 : Z) :
  Wcag.hexValue c1 = Some v1 -> Wcag.hexValue c2 = Some v2 ->
  parseInt16 (String c1 (String c2 "")) = Some (16 * v1 + v2)%Z.
Proof.
  intros H1 H2.
  assert (Hx : Ascii.eqb c2 "x" || Ascii.eqb c2 "X" = false).
  { apply hex_not_x. revert H2. clear.
    destruct c2 as [[|] [|] [|] [|] [|] [|] [|] [|]]; vm_compute; auto; discriminate. }
  assert (Hgen : parseInt16 (String c1 (String c2 ""))
                 = digits16 (String c1 (String c2 "")) None).
  { revert H1. clear - Hx.
    destruct c1 as [[|] [|] [|] [|] [|] [|] [|] [|]]; vm_compute Wcag.hexValue;
      intros H1; try discriminate H1;
      unfold parseInt16, skipWhiteSpace;
      match goal with
      | |- context [isWhiteSpace ?c] => change (isWhiteSpace c) with false
      end;
      cbv beta iota zeta; try (rewrite Hx); apply option_map_mul1. }
  rewrite Hgen. cbn [digits16]. rewrite H1, H2. f_equal; lia.
Qed.

Lemma parseInt16_empty : parseInt16 "" = None.
Proof. reflexivity. Qed.

Lemma replaceHash_digits (d : string) : all_hex d = true -> JS.replaceHash d = d.
Proof.
  induction d as [| ch d IH]; simpl; intros Ha; [reflexivity |].
  apply andb_prop in Ha as [Hc Ha]. rewrite (hex_not_hash ch Hc), IH; auto.
Qed.

Lemma clean_hex (d h : string) (n : nat) :
  hex_digits (S n) d -> h = d \/ h = String "#" d -> JS.replaceHash h = d.
Proof.
  intros [_ Ha] [-> | ->]; [apply replaceHash_digits; exact Ha | reflexivity].
Qed.

Lemma toUpperCase_app (s t : string) :
  JS.toUpperCase (s ++ t) = JS.toUpperCase s ++ JS.toUpperCase t.
Proof. induction s; simpl; [| rewrite IHs]; reflexivity. Qed.

Lemma hexDigitChar_value (ch : ascii) (v : Z) :
  Wcag.hexValue ch = Some v ->
  JS.upper_ascii (hexDigitChar v) = JS.upper_ascii ch
  /\ isHexDigit (hexDigitChar v) = true.
Proof.
  destruct ch as [[|] [|] [|] [|] [|] [|] [|] [|]]; vm_compute Wcag.hexValue;
    intros H; try discriminate H; inversion H; subst v; split; reflexivity.
Qed.

Lemma hexValue_range (ch : ascii) (v : Z) :
  Wcag.hexValue ch = Some v -> (0 <= v <= 15)%Z.
Proof.
  destruct ch as [[|] [|] [|] [|] [|] [|] [|] [|]]; vm_compute Wcag.hexValue;
    intros H; try discriminate H; inversion H; subst v; lia.
Qed.

(** The two digits written for a byte. *)
Lemma toHex_byte (c1 c2 : ascii) (v1 v2 : Z) (q : Q) :
  Wcag.hexValue c1 = Some v1 -> Wcag.hexValue c2 = Some v2 ->
  JS.Math_round (Double.mul q 255) = (16 * v1 + v2)%Z ->
  JS.toUpperCase (toHex (Some q)) = JS.toUpperCase (String c1 (String c2 "")).
Proof.
  intros H1 H2 Hround.
  pose proof (hexValue_range c1 v1 H1) as Hv1.
  pose proof (hexValue_range c2 v2 H2) as Hv2.
  unfold toHex.
  rewrite Hround.
  replace (Z.max 0 (Z.min 255 (16 * v1 + v2))) with (16 * v1 + v2)%Z by lia.
  destruct (hexDigitChar_value c1 v1 H1) as [Hu1 _].
  destruct (hexDigitChar_value c2 v2 H2) as [Hu2 _].
  unfold toString16.
  destruct (16 * v1 + v2 <? 16)%Z eqn:E.
  - apply Z.ltb_lt in E. assert (v1 = 0%Z) by lia. subst v1.
    replace (16 * 0 + v2)%Z with v2 by lia.
    cbn [padStart2 JS.toUpperCase]. rewrite Hu2, <- Hu1. reflexivity.
  - replace ((16 * v1 + v2) / 16)%Z with v1
      by (apply Z.div_unique with v2; lia).
    replace ((16 * v1 + v2) mod 16)%Z with v2
      by (apply Z.mod_unique with v1; lia).
    cbn [padStart2 JS.toUpperCase]. rewrite Hu1, Hu2. reflexivity.
Qed.

Lemma hexDigitChar_digit (k : Z) :
  (0 <= k <= 15)%Z -> isHexDigit (hexDigitChar k) = true.
Proof.
  intros Hk.
  assert (Hcases : (k = 0 \/ k = 1 \/ k = 2 \/ k = 3 \/ k = 4 \/ k = 5 \/ k = 6 \/ k = 7
                    \/ k = 8 \/ k = 9 \/ k = 10 \/ k = 11 \/ k = 12 \/ k = 13
                    \/ k = 14 \/ k = 15)%Z) by lia.
  repeat (destruct Hcases as [-> | Hcases]; [reflexivity |]). subst k. reflexivity.
Qed.

(** Whatever the number, [toHex] writes two hex digits. *)
Lemma toHex_two_digits (q : Q) :
  exists c1 c2, toHex (Some q) = String c1 (String c2 "")
                /\ isHexDigit c1 = true /\ isHexDigit c2 = true.
Proof.
  unfold toHex.
  set (n := Z.max 0 (Z.min 255 (JS.Math_round (Double.mul q 255)))).
  assert (Hn : (0 <= n <= 255)%Z) by (subst n; lia).
  clearbody n.
  pose proof hexDigitChar_digit as Hdigit.
  unfold toString16. destruct (n <? 16)%Z eqn:E.
  - apply Z.ltb_lt in E. exists "0"%char, (hexDigitChar n).
    split; [reflexivity |]. split; [reflexivity | apply Hdigit; lia].
  - apply Z.ltb_ge in E. exists (hexDigitChar (n / 16)), (hexDigitChar (n mod 16)).
    split; [reflexivity |].
    split; apply Hdigit.
    + assert (n / 16 < 16)%Z by (apply Z.div_lt_upper_bound; lia).
      assert (0 <= n / 16)%Z by (apply Z.div_pos; lia).
      lia.
    + pose proof (Z.mod_pos_bound n 16). lia.
Qed.

Lemma rgbToHex_normalized (r g b : Q) :
  normalized (rgbToHex (Some r) (Some g) (Some b)).
Proof.
  unfold rgbToHex.
  destruct (toHex_two_digits r) as (r1 & r2 & -> & Hr1 & Hr2).
  destruct (toHex_two_digits g) as (g1 & g2 & -> & Hg1 & Hg2).
  destruct (toHex_two_digits b) as (b1 & b2 & -> & Hb1 & Hb2).
  split; [reflexivity |].
  apply all_upper_of_hex. simpl. rewrite Hr1, Hr2, Hg1, Hg2, Hb1, Hb2. reflexivity.
Qed.

(** A byte survives the division by 255 and the multiplication by 255 of
    [hexToRgb] and [toHex], each rounded to a double: checked for the 256
    bytes. *)
Lemma byte_roundtrip (v : Z) :
  (0 <= v <= 255)%Z ->
  JS.Math_round (Double.mul (Double.div (inject_Z v) 255) 255) = v.
Proof.
  intros Hv.
  assert (Hall :
    forallb (fun n =>
               Z.eqb (JS.Math_round
                        (Double.mul (Double.div (inject_Z (Z.of_nat n)) 255) 255))
                     (Z.of_nat n))
            (seq 0 256) = true) by (vm_compute; reflexivity).
  rewrite forallb_forall in Hall.
  specialize (Hall (Z.to_nat v) ltac:(apply in_seq; lia)).
  rewrite Z2Nat.id in Hall by lia.
  apply Z.eqb_eq. exact Hall.
Qed.

(** A channel keeps the byte [v]: it is a number that [toHex] writes as
    [v]. *)
Local Abbreviation keeps v q :=
  (match q with
   | Some a => JS.Math_round (Double.mul a 255) = v
   | None => False
   end).

(** On a grey every row of the three matrices, and the weights of the grey
    scale, give the byte back, with every product and sum rounded to a
    double: checked for the 256 bytes. *)
Lemma grey_channels (v : Z) :
  (0 <= v <= 255)%Z ->
  let x := Some (Double.div (inject_Z v) 255) in
  (forall type m, matrices type = Some m ->
     let '(a, b, c) := applyMatrix x x x m in keeps v a /\ keeps v b /\ keeps v c)
  /\ keeps v (nadd (nadd (nmul 0.299 x) (nmul 0.587 x)) (nmul 0.114 x)).
Proof.
  intros Hv x.
  assert (Hall :
    forallb (fun n =>
      let y := Some (Double.div (inject_Z (Z.of_nat n)) 255) in
      let ok := fun q : number =>
        match q with
        | Some a => Z.eqb (JS.Math_round (Double.mul a 255)) (Z.of_nat n)
        | None => false
        end in
      forallb (fun type =>
                 match matrices type with
                 | Some m => let '(a, b, c) := applyMatrix y y y m in
                             ok a && ok b && ok c
                 | None => false
                 end) [protanopia; deuteranopia; tritanopia]
      && ok (nadd (nadd (nmul 0.299 y) (nmul 0.587 y)) (nmul 0.114 y)))
      (seq 0 256) = true) by (vm_compute; reflexivity).
  rewrite forallb_forall in Hall.
  specialize (Hall (Z.to_nat v) ltac:(apply in_seq; lia)).
  cbv zeta in Hall. rewrite Z2Nat.id in Hall by lia. fold x in Hall.
  apply andb_prop in Hall as [Hrows Hgrey].
  rewrite forallb_forall in Hrows.
  assert (Hok : forall q : number,
            match q with
            | Some a => Z.eqb (JS.Math_round (Double.mul a 255)) v
            | None => false
            end = true -> keeps v q).
  { intros [a |] H; [apply Z.eqb_eq; exact H | discriminate]. }
  split; [| apply Hok; exact Hgrey].
  intros type m Hm.
  assert (Hin : In type [protanopia; deuteranopia; tritanopia]).
  { destruct type; simpl; auto; discriminate Hm. }
  specialize (Hrows type Hin). rewrite Hm in Hrows.
  destruct (applyMatrix x x x m) as [[a b] c].
  apply andb_prop in Hrows as [Hab Hc]. apply andb_prop in Hab as [Ha Hb].
  repeat split; apply Hok; assumption.
Qed.

(** The channels of six hex digits are numbers: bytes divided by 255. *)
Lemma hexToRgb_six (d : string) :
  hex_digits 6 d ->
  exists c1 c2 c3 c4 c5 c6 v1 v2 v3 v4 v5 v6,
    d = String c1 (String c2 (String c3 (String c4 (String c5 (String c6 "")))))
    /\ Wcag.hexValue c1 = Some v1 /\ Wcag.hexValue c2 = Some v2
    /\ Wcag.hexValue c3 = Some v3 /\ Wcag.hexValue c4 = Some v4
    /\ Wcag.hexValue c5 = Some v5 /\ Wcag.hexValue c6 = Some v6
    /\ channelAt d 0 = Some (Double.div (inject_Z (16 * v1 + v2)) 255)
    /\ channelAt d 2 = Some (Double.div (inject_Z (16 * v3 + v4)) 255)
    /\ channelAt d 4 = Some (Double.div (inject_Z (16 * v5 + v6)) 255).
Proof.
  intros [Hl Ha].
  destruct d as [| c1 [| c2 [| c3 [| c4 [| c5 [| c6 [| ? ?]]]]]]]; try discriminate Hl.
  simpl in Ha.
  repeat match goal with
         | H : _ && _ = true |- _ => apply andb_prop in H as [? ?]
         end.
  destruct (hexValue_digit c1) as (v1 & Hx1 & _); [assumption |].
  destruct (hexValue_digit c2) as (v2 & Hx2 & _); [assumption |].
  destruct (hexValue_digit c3) as (v3 & Hx3 & _); [assumption |].
  destruct (hexValue_digit c4) as (v4 & Hx4 & _); [assumption |].
  destruct (hexValue_digit c5) as (v5 & Hx5 & _); [assumption |].
  destruct (hexValue_digit c6) as (v6 & Hx6 & _); [assumption |].
  exists c1, c2, c3, c4, c5, c6, v1, v2, v3, v4, v5, v6.
  unfold channelAt. cbn [substring].
  rewrite (parseInt16_two c1 c2 v1 v2 Hx1 Hx2), (parseInt16_two c3 c4 v3 v4 Hx3 Hx4),
    (parseInt16_two c5 c6 v5 v6 Hx5 Hx6).
  repeat split; assumption || reflexivity.
Qed.

(** X16.  On six hex digits, with or without the ['#'], every simulation
    returns a normalised value (six digits out of 0-9A-F); without
    simulation it is the value [normalizeHex] returns. *)
Theorem simulateColorBlindness_normalized
    (d h : string) (type : ColorBlindnessType) :
  hex_digits 6 d -> h = d \/ h = String "#" d ->
  normalized (simulateColorBlindness h type)
  /\ normalizeHex (simulateColorBlindness h type) = Some (simulateColorBlindness h type)
  /\ Some (simulateColorBlindness h none) = normalizeHex h.
Proof.
  intros Hd Hh.
  assert (Hclean : JS.replaceHash h = d) by (eapply clean_hex; eauto).
  assert (Hnone : normalized (JS.toUpperCase d)).
  { destruct Hd as [Hl Ha]. split; [rewrite length_toUpperCase; exact Hl |].
    apply all_upper_of_hex. exact Ha. }
  assert (Hn : normalized (simulateColorBlindness h type)).
  { destruct (hexToRgb_six d Hd)
      as (c1 & c2 & c3 & c4 & c5 & c6 & v1 & v2 & v3 & v4 & v5 & v6
          & _ & _ & _ & _ & _ & _ & _ & Hr & Hg & Hb).
    unfold simulateColorBlindness, hexToRgb. rewrite Hclean, Hr, Hg, Hb.
    destruct type; try exact Hnone; cbn [matrices applyMatrix nmul nadd option_map];
      apply rgbToHex_normalized. }
  split; [exact Hn |]. split; [apply normalized_fixed; exact Hn |].
  cbn [simulateColorBlindness]. rewrite Hclean.
  rewrite (normalizeHex_digits d h Hh (or_intror Hd)).
  destruct Hd as [-> _]. reflexivity.
Qed.

(** X17.  A grey is left as it is by every simulation: when the three
    channels are the same two hex digits, the result is the upper-cased
    input.  Each row of the three matrices and the weights of the grey scale
    sum to 1, and the rounding of the products and sums never moves a
    channel to another byte. *)
Theorem simulateColorBlindness_grey
    (c1 c2 : ascii) (type : ColorBlindnessType) :
  isHexDigit c1 = true -> isHexDigit c2 = true ->
  let p := String c1 (String c2 "") in
  simulateColorBlindness (p ++ p ++ p) type = JS.toUpperCase (p ++ p ++ p)
  /\ simulateColorBlindness (String "#" (p ++ p ++ p)) type = JS.toUpperCase (p ++ p ++ p).
Proof.
  intros Hc1 Hc2 p.
  destruct (hexValue_digit c1 Hc1) as (v1 & H1 & _).
  destruct (hexValue_digit c2 Hc2) as (v2 & H2 & _).
  pose proof (hexValue_range c1 v1 H1) as Hv1.
  pose proof (hexValue_range c2 v2 H2) as Hv2.
  set (v := (16 * v1 + v2)%Z).
  assert (Hv : (0 <= v <= 255)%Z) by (subst v; lia).
  assert (Hchan : forall a, (a = 0 \/ a = 2 \/ a = 4)%nat ->
            channelAt (p ++ p ++ p) a = Some (Double.div (inject_Z v) 255)).
  { intros a [-> | [-> | ->]]; unfold channelAt; subst p; cbn [append substring];
      rewrite (parseInt16_two c1 c2 v1 v2 H1 H2); reflexivity. }
  assert (Hwrite : forall q1 q2 q3 : number,
            keeps v q1 -> keeps v q2 -> keeps v q3 ->
            rgbToHex q1 q2 q3 = JS.toUpperCase (p ++ p ++ p)).
  { intros [q1 |] [q2 |] [q3 |] K1 K2 K3; try contradiction.
    unfold rgbToHex. rewrite !toUpperCase_app.
    rewrite (toHex_byte c1 c2 v1 v2 q1 H1 H2 K1), (toHex_byte c1 c2 v1 v2 q2 H1 H2 K2),
      (toHex_byte c1 c2 v1 v2 q3 H1 H2 K3).
    reflexivity. }
  destruct (grey_channels v Hv) as [Hrows Hgrey]. cbv zeta in Hrows, Hgrey.
  assert (Hall : forall h, JS.replaceHash h = p ++ p ++ p ->
            simulateColorBlindness h type = JS.toUpperCase (p ++ p ++ p)).
  { intros h Hclean. unfold simulateColorBlindness, hexToRgb.
    rewrite Hclean, !Hchan by auto.
    destruct type; try reflexivity.
    - specialize (Hrows protanopia _ eq_refl). cbn [matrices].
      destruct (applyMatrix _ _ _ _) as [[a b] c].
      destruct Hrows as (Ka & Kb & Kc). apply Hwrite; assumption.
    - specialize (Hrows deuteranopia _ eq_refl). cbn [matrices].
      destruct (applyMatrix _ _ _ _) as [[a b] c].
      destruct Hrows as (Ka & Kb & Kc). apply Hwrite; assumption.
    - specialize (Hrows tritanopia _ eq_refl). cbn [matrices].
      destruct (applyMatrix _ _ _ _) as [[a b] c].
      destruct Hrows as (Ka & Kb & Kc). apply Hwrite; assumption.
    - apply Hwrite; exact Hgrey. }
  split; apply Hall.
  - apply replaceHash_digits. subst p. simpl. rewrite Hc1, Hc2. reflexivity.
  - reflexivity.
Qed.

(** X18.  The three-digit shorthand, which [isValidHex] accepts, is not
    read by the simulation: the third channel is cut from an empty
    substring, [parseInt] gives [NaN], and every simulated result is the
    text ["NANNANNAN"]. *)
Theorem simulateColorBlindness_shorthand
    (d h : string) (type : ColorBlindnessType) :
  hex_digits 3 d -> h = d \/ h = String "#" d ->
  isValidHex h = true
  /\ (type <> none -> simulateColorBlindness h type = "NANNANNAN").
Proof.
  intros Hd Hh.
  split; [apply isValidHex_shape; exists d; auto |].
  intros Htype.
  assert (Hclean : JS.replaceHash h = d) by (eapply clean_hex; eauto).
  destruct Hd as [Hl _].
  destruct d as [| c1 [| c2 [| c3 [| ? ?]]]]; try discriminate Hl.
  assert (Hb : channelAt (String c1 (String c2 (String c3 ""))) 4 = None) by reflexivity.
  assert (Hnan : forall x y a, nadd (nadd x y) (nmul a None) = None).
  { intros [x |] [y |] a; reflexivity. }
  unfold simulateColorBlindness, hexToRgb. rewrite Hclean, Hb.
  destruct type; try contradiction; try reflexivity;
    cbn [matrices applyMatrix]; rewrite !Hnan; reflexivity.
Qed.

(** X19.  Splitting six hex digits into channels and writing the channels
    back gives the digits again, upper-cased: [rgbToHex] undoes [hexToRgb],
    and the result is the normalised form of the input. *)
Theorem rgbToHex_hexToRgb (d h : string) :
  hex_digits 6 d -> h = d \/ h = String "#" d ->
  let '(r, g, b) := hexToRgb h in
  rgbToHex r g b = JS.toUpperCase d
  /\ Some (rgbToHex r g b) = normalizeHex h.
Proof.
  intros Hd Hh.
  assert (Hclean : JS.replaceHash h = d) by (eapply clean_hex; eauto).
  assert (Hnorm : normalizeHex h = Some (JS.toUpperCase d)).
  { rewrite (normalizeHex_digits d h Hh (or_intror Hd)).
    destruct Hd as [-> _]. reflexivity. }
  destruct (hexToRgb_six d Hd)
    as (c1 & c2 & c3 & c4 & c5 & c6 & v1 & v2 & v3 & v4 & v5 & v6
        & Ed & H1 & H2 & H3 & H4 & H5 & H6 & Hr & Hg & Hb).
  unfold hexToRgb. rewrite Hclean, Hr, Hg, Hb.
  assert (Hbyte : forall a b x y, Wcag.hexValue a = Some x -> Wcag.hexValue b = Some y ->
            JS.Math_round (Double.mul (Double.div (inject_Z (16 * x + y)) 255) 255)
            = (16 * x + y)%Z).
  { intros a b x y Ha Hb'. apply byte_roundtrip.
    pose proof (hexValue_range a x Ha). pose proof (hexValue_range b y Hb'). lia. }
  assert (Hback : rgbToHex (Some (Double.div (inject_Z (16 * v1 + v2)) 255))
                    (Some (Double.div (inject_Z (16 * v3 + v4)) 255))
                    (Some (Double.div (inject_Z (16 * v5 + v6)) 255))
                  = JS.toUpperCase d).
  { unfold rgbToHex. rewrite !toUpperCase_app.
    rewrite (toHex_byte c1 c2 v1 v2 _ H1 H2 (Hbyte c1 c2 v1 v2 H1 H2)),
      (toHex_byte c3 c4 v3 v4 _ H3 H4 (Hbyte c3 c4 v3 v4 H3 H4)),
      (toHex_byte c5 c6 v5 v6 _ H5 H6 (Hbyte c5 c6 v5 v6 H5 H6)).
    rewrite Ed. reflexivity. }
  split; [exact Hback |]. rewrite Hback, Hnorm. reflexivity.
Qed.

End ColorblindFacts.

(** ** The generator's acceptance test and the matrix *)

Section ComplianceFacts.

Variable oklch : string -> option Culori.Oklch.
Variable formatHex : Culori.Oklch -> option string.
Variable wcagContrast : string -> string -> Q.

Lemma findRole_In (r : Palette.ColorRole) (palette : list Palette.ColorEntry)
    (c : Palette.ColorEntry) :
  findRole r palette = Some c -> In c palette.
Proof. intros H. apply find_some in H. tauto. Qed.

Lemma Qltb_false_geb (a b : Q) : Qltb a b = false -> Qgeb a b = true.
Proof. unfold Qltb, Qgeb. intros H. apply negb_false_iff in H. exact H. Qed.

(** The cell of the AA matrix for a pair whose rounded ratio reaches 4.5. *)
Lemma passing_cell (palette : list Palette.ColorEntry) (f b : Palette.ColorEntry) :
  NoDup (map Palette.id palette) -> In f palette -> In b palette ->
  Qltb (calculateContrast wcagContrast (Palette.hex f) (Palette.hex b)) 4.5 = false ->
  exists res,
    findContrastResult
      (generateContrastMatrix oklch formatHex wcagContrast (map idHex palette) AA)
      (Palette.id f) (Palette.id b) = Some res
    /\ passesAA res = true /\ suggestedFix res = None.
Proof.
  intros Hnd Hf Hb Hlt.
  pose proof (matrix_lookup oklch formatHex wcagContrast
                (map idHex palette) AA (idHex f) (idHex b)) as Hm.
  rewrite map_map in Hm. specialize (Hm Hnd (in_map _ _ _ Hf) (in_map _ _ _ Hb)).
  cbn [idHex id hex] in Hm.
  eexists. split; [exact Hm |].
  assert (Hpass : passesAA (calculateContrastResult oklch formatHex wcagContrast
                    (Palette.id f) (Palette.hex f) (Palette.id b) (Palette.hex b) AA)
                  = true).
  { apply Qltb_false_geb in Hlt. exact Hlt. }
  split; [exact Hpass |].
  rewrite suggestedFix_result. change (passesLevel AA ?r) with (passesAA r).
  rewrite Hpass. reflexivity.
Qed.

(** X20.  A palette that [isPaletteCompliant] accepts has a background, a
    surface and a primary text colour, and, when its ids are pairwise
    distinct, the AA matrix shows the primary text passing on both and the
    secondary text, when there is one, passing on the background, each
    without a suggestion. *)
Theorem compliant_palette_matrix (palette : list Palette.ColorEntry) :
  NoDup (map Palette.id palette) ->
  isPaletteCompliant wcagContrast palette = true ->
  exists background surface textPrimary,
    findRole Palette.role_background palette = Some background
    /\ findRole Palette.role_surface palette = Some surface
    /\ findRole Palette.role_text_primary palette = Some textPrimary
    /\ forall f b,
         (f = textPrimary /\ (b = background \/ b = surface))
         \/ (findRole Palette.role_text_secondary palette = Some f /\ b = background) ->
         exists res,
           findContrastResult
             (generateContrastMatrix oklch formatHex wcagContrast (map idHex palette) AA)
             (Palette.id f) (Palette.id b) = Some res
           /\ passesAA res = true /\ suggestedFix res = None.
Proof.
  intros Hnd Hc. unfold isPaletteCompliant in Hc.
  destruct (findRole Palette.role_background palette) as [bg |] eqn:Ebg; [| discriminate].
  destruct (findRole Palette.role_surface palette) as [sf |] eqn:Esf; [| discriminate].
  destruct (findRole Palette.role_text_primary palette) as [tp |] eqn:Etp; [| discriminate].
  cbv zeta in Hc.
  destruct (Qltb (calculateContrast wcagContrast (Palette.hex tp) (Palette.hex bg)) 4.5)
    eqn:E1; [discriminate |].
  destruct (Qltb (calculateContrast wcagContrast (Palette.hex tp) (Palette.hex sf)) 4.5)
    eqn:E2; [discriminate |].
  exists bg, sf, tp. repeat split.
  intros f b [[-> [-> | ->]] | [Ets ->]].
  - apply passing_cell; eauto using findRole_In.
  - apply passing_cell; eauto using findRole_In.
  - rewrite Ets in Hc.
    destruct (Qltb (calculateContrast wcagContrast (Palette.hex f) (Palette.hex bg)) 4.5)
      eqn:E3; [discriminate |].
    apply passing_cell; eauto using findRole_In.
Qed.

End ComplianceFacts.

(** ** The properties on sample colours and palettes *)

Section DemoFormat.

Lemma Demo_hexByte_digits (v : Z) :
  (0 <= v <= 255)%Z -> Utils.hex_digits 2 (Demo.hexByte v).
Proof.
  intros Hv. split; [reflexivity |].
  unfold Demo.hexByte. cbn [Utils.all_hex].
  change Demo.hexDigit with Colorblind.hexDigitChar.
  rewrite !hexDigitChar_digit; [reflexivity | |].
  - pose proof (Z.mod_pos_bound v 16). lia.
  - assert (v / 16 < 16)%Z by (apply Z.div_lt_upper_bound; lia).
    assert (0 <= v / 16)%Z by (apply Z.div_pos; lia).
    lia.
Qed.

Lemma Demo_formatHex_six (c : Culori.Oklch) (hx : string) :
  Demo.formatHex c = Some hx ->
  exists d, hx = String "#" d /\ Utils.hex_digits 6 d.
Proof.
  unfold Demo.formatHex. cbv zeta. intros H. inversion H as [Hhx]. clear H Hhx.
  set (v := Demo.clampByte _).
  assert (Hv : (0 <= v <= 255)%Z) by (subst v; unfold Demo.clampByte; lia).
  clearbody v. eexists. split; [reflexivity |].
  destruct (Demo_hexByte_digits v Hv) as [_ Ha].
  split; [reflexivity |].
  unfold Demo.hexByte in *. cbn [append Utils.all_hex] in *.
  apply andb_prop in Ha as [H1 H2]. apply andb_prop in H2 as [H2 _].
  rewrite H1, H2. reflexivity.
Qed.

Lemma Demo_formatHex_truthy (x : Culori.Oklch) : JS.truthy (Demo.formatHex x) = true.
Proof. reflexivity. Qed.

(** The grey [D1D5DB] over white at 4.5 is fixed to [767676]. *)
Lemma Demo_fix_sample :
  findNearestAccessible Demo.oklch Demo.formatHex Demo.wcagContrast
    "D1D5DB" "FFFFFF" 4.5 = Some "767676".
Proof. vm_compute. reflexivity. Qed.

End DemoFormat.

(** X3, on black and white: the cell of a pair is found, an unknown id
    finds nothing. *)
Lemma findContrastResult_matrix_witness :
  let colors := [mkColor "a" "000000"; mkColor "b" "FFFFFF"] in
  NoDup (map id colors)
  /\ findContrastResult
       (generateContrastMatrix Demo.oklch Demo.formatHex Demo.wcagContrast colors AA)
       "a" "b"
     = Some (calculateContrastResult Demo.oklch Demo.formatHex Demo.wcagContrast
               "a" "000000" "b" "FFFFFF" AA)
  /\ findContrastResult
       (generateContrastMatrix Demo.oklch Demo.formatHex Demo.wcagContrast colors AA)
       "z" "a"
     = None.
Proof.
  intros colors.
  assert (Hnd : NoDup (map id colors)).
  { repeat constructor; simpl; intuition discriminate. }
  destruct (findContrastResult_matrix Demo.oklch Demo.formatHex Demo.wcagContrast
              colors AA) as [Hfound Hmissing].
  split; [exact Hnd |]. split.
  - exact (Hfound Hnd (mkColor "a" "000000") (mkColor "b" "FFFFFF")
             (or_introl eq_refl) (or_intror (or_introl eq_refl))).
  - apply Hmissing. left. simpl. intuition discriminate.
Defined.

(** X4, on three colours: the cell at index [1 * 3 + 2] is the pair of the
    second colour over the third. *)
Lemma matrix_row_major_witness :
  let colors := [mkColor "a" "000000"; mkColor "b" "FFFFFF"; mkColor "c" "767676"] in
  nth_error colors 1 = Some (mkColor "b" "FFFFFF")
  /\ nth_error colors 2 = Some (mkColor "c" "767676")
  /\ nth_error
       (generateContrastMatrix Demo.oklch Demo.formatHex Demo.wcagContrast colors AA)
       (1 * List.length colors + 2)
     = Some (calculateContrastResult Demo.oklch Demo.formatHex Demo.wcagContrast
               "b" "FFFFFF" "c" "767676" AA).
Proof.
  intros colors.
  split; [reflexivity |]. split; [reflexivity |].
  exact (matrix_row_major Demo.oklch Demo.formatHex Demo.wcagContrast colors AA 1 2
           (mkColor "b" "FFFFFF") (mkColor "c" "767676") eq_refl eq_refl).
Defined.

(** X6, on a matrix of two passing cells: the percentage is 100. *)
Lemma summary_percentage_range_witness :
  let cell := fun f b =>
    {| foregroundId := f; backgroundId := b; ratio := 21; apcaValue := None;
       passesAA := true; passesAAA := true; passesAALarge := true;
       passesUIComponent := true; suggestedFix := None |} in
  let s := getContrastSummary [cell "a" "b"; cell "b" "a"] AA in
  passing s = total s /\ total s <> 0%Z /\ percentage s = 100%Z.
Proof.
  intros cell s.
  assert (Hall : passing s = total s) by reflexivity.
  assert (Hne : total s <> 0%Z) by discriminate.
  destruct (summary_percentage_range [cell "a" "b"; cell "b" "a"] AA)
    as (_ & Hfull & _).
  split; [exact Hall |]. split; [exact Hne |]. exact (Hfull Hall Hne).
Defined.

(** X7, on the grey [D1D5DB] darkened over white. *)
Lemma search_at_most_ten_iterations_witness :
  let f := {| Culori.l := 641 # 765; Culori.c := 0;
              Culori.h := None; Culori.alpha := None |} in
  0 <= Culori.l f <= 1
  /\ (iterations (searchLoop Demo.formatHex Demo.wcagContrast f "#FFFFFF" 4.5 true
                    (initialState f true)) <= 10)%nat.
Proof.
  intros f.
  assert (Hl : 0 <= Culori.l f <= 1) by (split; discriminate).
  pose proof (search_at_most_ten_iterations Demo.formatHex Demo.wcagContrast
                f "#FFFFFF" 4.5 true Hl) as H.
  cbv zeta in H. destruct H as [Hten _].
  split; [exact Hl | exact Hten].
Defined.

(** X8, on the same search: its candidate lies within 0.001 below a
    lightness that is the original one or misses the target. *)
Lemma search_candidate_near_minimal_witness :
  let f := {| Culori.l := 641 # 765; Culori.c := 0;
              Culori.h := None; Culori.alpha := None |} in
  0 <= Culori.l f <= 1
  /\ exists c m,
       searchLightness Demo.formatHex Demo.wcagContrast f "#FFFFFF" 4.5 true = Some c
       /\ (m = Culori.l f
           \/ probed_failing Demo.formatHex Demo.wcagContrast f "#FFFFFF" 4.5 m)
       /\ Culori.l c < m /\ m - Culori.l c <= LIGHTNESS_PRECISION.
Proof.
  intros f.
  assert (Hl : 0 <= Culori.l f <= 1) by (split; discriminate).
  assert (Hsome : searchLightness Demo.formatHex Demo.wcagContrast f "#FFFFFF" 4.5 true
                  <> None) by (vm_compute; discriminate).
  split; [exact Hl |].
  destruct (searchLightness Demo.formatHex Demo.wcagContrast f "#FFFFFF" 4.5 true)
    as [c |] eqn:E; [| contradiction].
  destruct (search_candidate_near_minimal Demo.formatHex Demo.wcagContrast
              f "#FFFFFF" 4.5 true c Hl Demo_formatHex_truthy E) as (m & Hm & Hlt & Hnear).
  exists c, m. repeat split; assumption.
Defined.

(** X9, on the fix of [D1D5DB] over white. *)
Lemma fix_is_normalized_witness :
  Utils.normalized "D1D5DB"
  /\ Demo.findNearestAccessible "D1D5DB" "FFFFFF" 4.5 = Some "767676"
  /\ Utils.normalizeHex "767676" = Some "767676".
Proof.
  assert (Hn : Utils.normalized "D1D5DB") by (split; reflexivity).
  pose proof Demo_fix_sample as H.
  destruct (fix_is_normalized Demo.oklch Demo.formatHex Demo.wcagContrast
              Demo_formatHex_six "D1D5DB" "FFFFFF" 4.5 "767676" Hn H) as (_ & Hfix & _).
  split; [exact Hn |]. split; [exact H | exact Hfix].
Defined.

(** X10, on [D1D5DB] with white as the only background. *)
Lemma findSuggestionsForColor_entries_witness :
  let m := findSuggestionsForColor Demo.oklch Demo.formatHex Demo.wcagContrast
             "D1D5DB" [mkColor "b" "FFFFFF"] AA in
  JSMap.get "b" m = Some "767676"
  /\ exists bg, In bg [mkColor "b" "FFFFFF"] /\ id bg = "b"
                /\ Demo.wcagContrast ("#" ++ "D1D5DB") ("#" ++ hex bg) < 4.5.
Proof.
  intros m.
  assert (Hget : JSMap.get "b"
                   (findSuggestionsForColor Demo.oklch Demo.formatHex Demo.wcagContrast
                      "D1D5DB" [mkColor "b" "FFFFFF"] AA) = Some "767676").
  { unfold findSuggestionsForColor, suggestion_step. cbn [fold_left hex id].
    change (getTargetRatio AA false) with 4.5.
    rewrite Demo_fix_sample. reflexivity. }
  pose proof (findSuggestionsForColor_entries Demo.oklch Demo.formatHex Demo.wcagContrast
                "D1D5DB" [mkColor "b" "FFFFFF"] AA) as H.
  cbv zeta in H. destruct H as [_ Hentries].
  destruct (Hentries "b" "767676" Hget) as (bg & Hin & Hid & _ & _ & _ & _ & Hfail).
  split; [exact Hget |].
  exists bg. split; [exact Hin |]. split; [exact Hid | exact Hfail].
Defined.

(** X11, on the default palette and a sixth colour. *)
Lemma reducer_keeps_palette_well_formed_witness :
  let init := Palette.initialPaletteState "1" "2" "3" "4" "5" in
  let color := Palette.mkEntry "6" "EF4444" "Error" Palette.role_error false in
  let state' := Palette.paletteReducer init init (Palette.ADD_COLOR color) in
  ~ In "6" (map Palette.id (Palette.colors init))
  /\ NoDup (map Palette.id (Palette.colors state'))
  /\ (2 <= List.length (Palette.colors state') <= 12)%nat.
Proof.
  intros init color state'.
  assert (Hfresh : ~ In "6" (map Palette.id (Palette.colors init))).
  { simpl. intuition discriminate. }
  assert (Hok : NoDup (map Palette.id (Palette.colors init))
                /\ (2 <= List.length (Palette.colors init) <= 12)%nat).
  { split; [repeat constructor; simpl; intuition discriminate | simpl; lia]. }
  pose proof (reducer_keeps_palette_well_formed init init (Palette.ADD_COLOR color)) as H.
  cbv zeta in H.
  destruct (H Hok Hok) as [[Hnd Hlen] _].
  { intros c Hc. inversion Hc. subst c. exact Hfresh. }
  split; [exact Hfresh |]. split; [exact Hnd | exact Hlen].
Defined.

(** X12, on the default palette: adding a sixth colour and removing it. *)
Lemma add_then_remove_witness :
  let init := Palette.initialPaletteState "1" "2" "3" "4" "5" in
  let color := Palette.mkEntry "6" "EF4444" "Error" Palette.role_error false in
  (2 <= List.length (Palette.colors init))%nat
  /\ ~ In "6" (map Palette.id (Palette.colors init))
  /\ Palette.paletteReducer init
       (Palette.paletteReducer init init (Palette.addColor color))
       (Palette.removeColor "6")
     = init.
Proof.
  intros init color.
  assert (Hlen : (2 <= List.length (Palette.colors init))%nat) by (simpl; lia).
  assert (Hfresh : ~ In "6" (map Palette.id (Palette.colors init))).
  { simpl. intuition discriminate. }
  split; [exact Hlen |]. split; [exact Hfresh |].
  exact (add_then_remove init init color Hlen Hfresh).
Defined.

(** X13, on the default palette: a new hex for the second colour. *)
Lemma update_color_pointwise_witness :
  let init := Palette.initialPaletteState "1" "2" "3" "4" "5" in
  let u := Palette.mkUpdates (Some "E5E7EB") None None None in
  let surface := Palette.mkEntry "2" "F3F4F6" "Surface" Palette.role_surface false in
  nth_error (Palette.colors init) 1 = Some surface
  /\ nth_error
       (Palette.colors (Palette.paletteReducer init init (Palette.updateColor "2" u))) 1
     = Some (Palette.merge surface u)
  /\ Palette.hex (Palette.merge surface u) = "E5E7EB".
Proof.
  intros init u surface.
  assert (Hnth : nth_error (Palette.colors init) 1 = Some surface) by reflexivity.
  pose proof (update_color_pointwise init init "2" u) as H.
  cbv zeta in H. destruct H as (_ & Hat & _ & _ & Hhex & _).
  split; [exact Hnth |]. split.
  - exact (Hat 1%nat surface Hnth).
  - exact (Hhex surface "E5E7EB" eq_refl).
Defined.

(** X14, on [D1D5DB] over white: the matrix suggests [767676]; once it is
    applied the pair passes. *)
Lemma apply_fix_settles_pair_witness :
  let init := Palette.initialPaletteState "1" "2" "3" "4" "5" in
  let f := Palette.mkEntry "a" "D1D5DB" "Border" Palette.role_border false in
  let b := Palette.mkEntry "b" "FFFFFF" "Background" Palette.role_background false in
  let state := Palette.mkState [f; b] Palette.WCAG2 AA Palette.light in
  let state' := Palette.handleApplyFix init state "a" "767676" in
  suggestedFix (calculateContrastResult Demo.oklch Demo.formatHex Demo.wcagContrast
                  "a" "D1D5DB" "b" "FFFFFF" AA) = Some "767676"
  /\ exists res',
       hook_getResult
         (useContrastMatrix Demo.oklch Demo.formatHex Demo.wcagContrast state') "a" "b"
       = Some res'
       /\ passesLevel AA res' = true
       /\ suggestedFix res' = None.
Proof.
  intros init f b state state'.
  assert (Hlow : Qgeb (calculateContrast Demo.wcagContrast "D1D5DB" "FFFFFF")
                    (getTargetRatio AA false) = false) by (vm_compute; reflexivity).
  assert (Hsug : suggestedFix
                   (calculateContrastResult Demo.oklch Demo.formatHex Demo.wcagContrast
                      "a" "D1D5DB" "b" "FFFFFF" AA) = Some "767676").
  { rewrite suggestedFix_result, passesLevel_result, Hlow.
    change (getTargetRatio AA false) with 4.5. exact Demo_fix_sample. }
  assert (Hnd : NoDup (map Palette.id (Palette.colors state))).
  { repeat constructor; simpl; intuition discriminate. }
  assert (Hf : In f (Palette.colors state)) by (left; reflexivity).
  assert (Hb : In b (Palette.colors state)) by (right; left; reflexivity).
  assert (Hres : hook_getResult
                   (useContrastMatrix Demo.oklch Demo.formatHex Demo.wcagContrast state)
                   (Palette.id f) (Palette.id b)
                 = Some (calculateContrastResult Demo.oklch Demo.formatHex
                           Demo.wcagContrast "a" "D1D5DB" "b" "FFFFFF" AA)).
  { exact (matrix_lookup Demo.oklch Demo.formatHex Demo.wcagContrast
             (map idHex (Palette.colors state)) AA (idHex f) (idHex b)
             Hnd (or_introl eq_refl) (or_intror (or_introl eq_refl))). }
  destruct (apply_fix_settles_pair Demo.oklch Demo.formatHex Demo.wcagContrast init
              Demo_formatHex_hash (wcag_formula_case Demo.pow24)
              state f b _ "767676" Hnd Hf Hb Hres Hsug)
    as (res' & Hget & Hpass & Hnone & _).
  split; [exact Hsug |].
  exists res'. split; [exact Hget |]. split; [exact Hpass | exact Hnone].
Defined.

(** X16, on the default primary colour seen with protanopia. *)
Lemma simulateColorBlindness_normalized_witness :
  Utils.hex_digits 6 "2563EB"
  /\ Utils.normalized (Colorblind.simulateColorBlindness "#2563EB" Colorblind.protanopia)
  /\ Some (Colorblind.simulateColorBlindness "#2563EB" Colorblind.none)
     = Utils.normalizeHex "#2563EB".
Proof.
  assert (Hd : Utils.hex_digits 6 "2563EB") by (split; reflexivity).
  destruct (simulateColorBlindness_normalized "2563EB" "#2563EB" Colorblind.protanopia
              Hd (or_intror eq_refl)) as (Hn & _ & Hnone).
  split; [exact Hd |]. split; [exact Hn | exact Hnone].
Defined.

(** X17, on the middle grey seen with deuteranopia. *)
Lemma simulateColorBlindness_grey_witness :
  Utils.isHexDigit "8" = true /\ Utils.isHexDigit "0" = true
  /\ Colorblind.simulateColorBlindness "808080" Colorblind.deuteranopia = "808080".
Proof.
  split; [reflexivity |]. split; [reflexivity |].
  exact (proj1 (simulateColorBlindness_grey "8" "0" Colorblind.deuteranopia
                  eq_refl eq_refl)).
Defined.

(** X18, on the shorthand [#abc] seen with protanopia. *)
Lemma simulateColorBlindness_shorthand_witness :
  Utils.hex_digits 3 "abc"
  /\ Utils.isValidHex "#abc" = true
  /\ Colorblind.simulateColorBlindness "#abc" Colorblind.protanopia = "NANNANNAN".
Proof.
  assert (Hd : Utils.hex_digits 3 "abc") by (split; reflexivity).
  destruct (simulateColorBlindness_shorthand "abc" "#abc" Colorblind.protanopia
              Hd (or_intror eq_refl)) as [Hvalid Hnan].
  split; [exact Hd |]. split; [exact Hvalid |].
  apply Hnan. discriminate.
Defined.

(** X20, on black text over a white background and surface. *)
Lemma compliant_palette_matrix_witness :
  let bg := Palette.mkEntry "b" "FFFFFF" "Background" Palette.role_background false in
  let sf := Palette.mkEntry "s" "FFFFFF" "Surface" Palette.role_surface false in
  let tp := Palette.mkEntry "t" "000000" "Text" Palette.role_text_primary false in
  let palette := [bg; sf; tp] in
  NoDup (map Palette.id palette)
  /\ isPaletteCompliant Demo.wcagContrast palette = true
  /\ exists res,
       findContrastResult
         (generateContrastMatrix Demo.oklch Demo.formatHex Demo.wcagContrast
            (map idHex palette) AA) "t" "s" = Some res
       /\ passesAA res = true /\ suggestedFix res = None.
Proof.
  intros bg sf tp palette.
  assert (Hnd : NoDup (map Palette.id palette)).
  { repeat constructor; simpl; intuition discriminate. }
  assert (Hc : isPaletteCompliant Demo.wcagContrast palette = true)
    by (vm_compute; reflexivity).
  destruct (compliant_palette_matrix Demo.oklch Demo.formatHex Demo.wcagContrast
              palette Hnd Hc) as (bg' & sf' & tp' & Hbg & Hsf & Htp & Hcells).
  assert (Hsf0 : findRole Palette.role_surface palette = Some sf) by reflexivity.
  assert (Htp0 : findRole Palette.role_text_primary palette = Some tp) by reflexivity.
  assert (Esf : sf' = sf) by congruence.
  assert (Etp : tp' = tp) by congruence.
  split; [exact Hnd |]. split; [exact Hc |].
  exact (Hcells tp sf (or_introl (conj (eq_sym Etp) (or_intror (eq_sym Esf))))).
Defined.

(** X15, on the fix of [D1D5DB] over white for 4.5, asked again for 3. *)
Lemma fix_is_stable_witness :
  Demo.findNearestAccessible "D1D5DB" "FFFFFF" 4.5 = Some "767676"
  /\ Demo.oklch "#767676" <> None
  /\ 3 <= 4.5
  /\ findNearestAccessible Demo.oklch Demo.formatHex Demo.wcagContrast
       "767676" "FFFFFF" 3 = Some "767676".
Proof.
  pose proof Demo_fix_sample as H.
  assert (Hparse : Demo.oklch ("#" ++ "767676") <> None) by (vm_compute; discriminate).
  assert (Hle : 3 <= 4.5) by discriminate.
  split; [exact H |]. split; [exact Hparse |]. split; [exact Hle |].
  exact (fix_is_stable Demo.oklch Demo.formatHex Demo.wcagContrast
           Demo_formatHex_hash (wcag_formula_case Demo.pow24)
           "D1D5DB" "FFFFFF" 4.5 3 "767676" H Hparse Hle).
Defined.

(** X19, on the default primary colour. *)
Lemma rgbToHex_hexToRgb_witness :
  Utils.hex_digits 6 "2563eb"
  /\ (let '(r, g, b) := Colorblind.hexToRgb "#2563eb" in
      Colorblind.rgbToHex r g b = JS.toUpperCase "2563eb"
      /\ Some (Colorblind.rgbToHex r g b) = Utils.normalizeHex "#2563eb").
Proof.
  assert (Hd : Utils.hex_digits 6 "2563eb") by (split; reflexivity).
  split; [exact Hd |].
  exact (rgbToHex_hexToRgb "2563eb" "#2563eb" Hd (or_intror eq_refl)).
Defined.

(** X1, on a shorthand and on a string that is no hex. *)
Lemma display_roundtrip_witness :
  JS.isAscii "#abc" = true
  /\ Utils.parseHexInput (Utils.formatHexForDisplay "#abc") = Utils.normalizeHex "#abc"
  /\ JS.isAscii "zz" = true
  /\ Utils.parseHexInput (Utils.formatHexForDisplay "zz") = Utils.normalizeHex "zz".
Proof.
  split; [reflexivity |].
  split; [exact (proj1 (display_roundtrip "#abc" eq_refl)) |].
  split; [reflexivity |].
  exact (proj1 (display_roundtrip "zz" eq_refl)).
Defined.

(** C2 fails as stated, with the ratio rounded to two decimals.  The
    contrast of [088766] over white is 4.4989...: it rounds to 4.50, which
    reaches the target 4.5, but the test of the code is on the unrounded
    value, the search runs, and what it returns has a contrast of at least
    4.5, so it is not [088766]. *)
Lemma fix_noop_rounded_ratio :
  Utils.normalized "088766"
  /\ Demo.oklch "#088766" <> None
  /\ 4.5 <= Demo.calculateContrast "088766" "FFFFFF"
  /\ Demo.wcagContrast "#088766" "#FFFFFF" < 4.5
  /\ Demo.findNearestAccessible "088766" "FFFFFF" 4.5 <> Utils.normalizeHex "088766".
Proof.
  assert (Hraw : Demo.wcagContrast ("#" ++ "088766") ("#" ++ "FFFFFF") < 4.5)
    by (apply Qlt_alt; vm_compute; reflexivity).
  split; [split; reflexivity |].
  split; [vm_compute; discriminate |].
  split; [apply Qle_bool_iff; vm_compute; reflexivity |].
  split; [exact Hraw |].
  assert (Hnorm : Utils.normalizeHex "088766" = Some "088766") by reflexivity.
  rewrite Hnorm. intros Hfix.
  pose proof (fix_reaches_target Demo.oklch Demo.formatHex Demo.wcagContrast
                Demo_formatHex_hash (wcag_formula_case Demo.pow24)
                "088766" "FFFFFF" 4.5 "088766" Hfix) as Hreach.
  exact (Qlt_not_le _ _ Hraw Hreach).
Defined.
